(** * A Markdown batch cleaner: the text pipeline of [script.py]

    Shallow embedding of [MarkdownCleaner] (src/script.py).  A Python [str]
    is a sequence of Unicode code points; it is modelled as a list of [N].
    The stages are translated function by function.  Regular expressions
    are run by a small backtracking matcher that follows the priorities of
    Python's [re] (greedy and lazy repetition, ordered alternatives,
    leftmost match), so every call of [re.sub] in the script is an
    application of [Re.sub] to the pattern as it is written there. *)

From Stdlib Require Import NArith List Bool Lia String Ascii Arith.
Import ListNotations.

(* ===================================================================== *)
(** ** Python strings *)
(* ===================================================================== *)

Module Py.

Definition char := N.
Definition str := list char.

(** Code point of an 8-bit character and the text of a literal. *)
Definition ch (a : ascii) : char := N_of_ascii a.

Fixpoint lit (s : string) : str :=
  match s with
  | EmptyString => []
  | String a s' => ch a :: lit s'
  end.

Definition NL : char := 10%N.
Definition SP : char := 32%N.
Definition HASH : char := 35%N.
Definition BAR : char := 124%N.
Definition DASH : char := 45%N.

(** [str.isspace] for one character, which is also the class [\s] of [re]
    on [str] patterns: the 29 white-space code points of Unicode. *)
Definition isspace (c : char) : bool :=
  ((9 <=? c) && (c <=? 13) || (28 <=? c) && (c <=? 32) ||
   (c =? 133) || (c =? 160) || (c =? 5760) ||
   (8192 <=? c) && (c <=? 8202) || (c =? 8232) || (c =? 8233) ||
   (c =? 8239) || (c =? 8287) || (c =? 12288))%N.

(** [s.lstrip()], [s.rstrip()], [s.strip()]. *)
Fixpoint lstrip (s : str) : str :=
  match s with
  | [] => []
  | c :: s' => if isspace c then lstrip s' else s
  end.

Fixpoint rstrip (s : str) : str :=
  match s with
  | [] => []
  | c :: s' =>
      match rstrip s' with
      | [] => if isspace c then [] else [c]
      | r => c :: r
      end
  end.

Definition strip (s : str) : str := lstrip (rstrip s).

(** [s.split(sep)] for a separator of one character: never empty. *)
Fixpoint split (sep : char) (s : str) : list str :=
  match s with
  | [] => [[]]
  | c :: s' =>
      if (c =? sep)%N then [] :: split sep s'
      else match split sep s' with
           | [] => [[c]]
           | x :: xs => (c :: x) :: xs
           end
  end.

(** [sep.join(l)]. *)
Fixpoint join (sep : str) (l : list str) : str :=
  match l with
  | [] => []
  | x :: l' =>
      match l' with
      | [] => x
      | _ :: _ => x ++ sep ++ join sep l'
      end
  end.

(** [c in s], [s.count(c)], [s.replace(c, '')], [s.startswith(c)]. *)
Definition contains (c : char) (s : str) : bool := existsb (N.eqb c) s.

Definition count (c : char) (s : str) : nat :=
  List.length (filter (N.eqb c) s).

Definition remove (c : char) (s : str) : str :=
  filter (fun x => negb (x =? c)%N) s.

Definition startswith (c : char) (s : str) : bool :=
  match s with
  | [] => false
  | x :: _ => (x =? c)%N
  end.

(** [l[1:-1]]. *)
Definition inner {A} (l : list A) : list A := removelast (tl l).

(** [enumerate(l)]. *)
Definition enumerate {A} (l : list A) : list (nat * A) :=
  combine (seq 0 (List.length l)) l.

(** [c * n] and the format specification [{cell:<w}]: pad with spaces on
    the right up to [w] code points; a cell that is already as long, and
    any cell when [w] is 0, is left as it is. *)
Definition times (c : char) (n : nat) : str := repeat c n.

Definition ljust (s : str) (w : nat) : str :=
  s ++ times SP (w - List.length s).

End Py.

Import Py.

(* ===================================================================== *)
(** ** Regular expressions, as [re.sub] runs them *)
(* ===================================================================== *)

Module Re.

(** The fragment of the pattern language that the script uses.  A pattern
    is a sequence of items; [x+] is written [One x; Star x]. *)
Inductive item :=
| One (p : char -> bool)      (* one character of a class *)
| Star (p : char -> bool)     (* [p*], greedy *)
| Lazy (p : char -> bool)     (* [p*?] *)
| Alt (ws : list str)         (* [(w1|w2|...)] of literal words, in order *)
| Open (g : nat)              (* start of capture group [g] *)
| Close (g : nat)             (* end of capture group [g] *)
| Bol                         (* [^], no MULTILINE *)
| Eol.                        (* [$], no MULTILINE *)

Definition regex := list item.

(** Character classes. *)
Definition only (c : char) : char -> bool := fun x => (x =? c)%N.
Definition dot : char -> bool := fun x => negb (x =? NL)%N.
Definition space : char -> bool := isspace.

(** Literal text as a sequence of one-character items. *)
Definition text (s : string) : regex := map (fun c => One (only c)) (lit s).

(** Capture state: the suffixes at which groups were opened, and the text
    of the groups closed so far. *)
Definition marks := list (nat * str).

Fixpoint find (g : nat) (m : marks) : option str :=
  match m with
  | [] => None
  | (h, s) :: m' => if Nat.eqb g h then Some s else find g m'
  end.

Record caps := { opened : marks; closed : marks }.

Definition no_caps : caps := {| opened := []; closed := [] |}.

Definition open_group (g : nat) (s : str) (e : caps) : caps :=
  {| opened := (g, s) :: opened e; closed := closed e |}.

Definition close_group (g : nat) (s : str) (e : caps) : caps :=
  match find g (opened e) with
  | Some s0 =>
      {| opened := opened e;
         closed := (g, firstn (List.length s0 - List.length s) s0) :: closed e |}
  | None => e
  end.

(** [strip_prefix w s]: the rest of [s] after the literal word [w]. *)
Fixpoint strip_prefix (w s : str) : option str :=
  match w with
  | [] => Some s
  | a :: w' =>
      match s with
      | [] => None
      | c :: s' => if (c =? a)%N then strip_prefix w' s' else None
      end
  end.

(** A continuation: what is left of the pattern, to be run on what is left
    of the subject.  The flag tells whether the position is the start of
    the whole subject. *)
Definition cont := bool -> str -> caps -> option (str * caps).

(** [p*] followed by [k]: longest repetition first. *)
Fixpoint star (p : char -> bool) (k : cont) (b : bool) (s : str) (e : caps)
  : option (str * caps) :=
  match s with
  | c :: s' =>
      if p c then
        match star p k false s' e with
        | Some x => Some x
        | None => k b s e
        end
      else k b s e
  | [] => k b s e
  end.

(** [p*?] followed by [k]: shortest repetition first. *)
Fixpoint lazy (p : char -> bool) (k : cont) (b : bool) (s : str) (e : caps)
  : option (str * caps) :=
  match k b s e with
  | Some x => Some x
  | None =>
      match s with
      | c :: s' => if p c then lazy p k false s' e else None
      | [] => None
      end
  end.

(** [(w1|w2|...)] followed by [k]: the alternatives in the order written. *)
Fixpoint alt (ws : list str) (k : cont) (b : bool) (s : str) (e : caps)
  : option (str * caps) :=
  match ws with
  | [] => None
  | w :: ws' =>
      match strip_prefix w s with
      | Some s' =>
          match k (b && Nat.eqb (List.length w) 0) s' e with
          | Some x => Some x
          | None => alt ws' k b s e
          end
      | None => alt ws' k b s e
      end
  end.

(** [run r b s e]: match [r] at the start of [s].  The result is the first
    successful match in the order in which a backtracking matcher tries
    them: the text left after the match, and the captures. *)
Fixpoint run (r : regex) : cont :=
  match r with
  | [] => fun _ s e => Some (s, e)
  | One p :: r' => fun _ s e =>
      match s with
      | c :: s' => if p c then run r' false s' e else None
      | [] => None
      end
  | Star p :: r' => star p (run r')
  | Lazy p :: r' => lazy p (run r')
  | Alt ws :: r' => alt ws (run r')
  | Open g :: r' => fun b s e => run r' b s (open_group g s e)
  | Close g :: r' => fun b s e => run r' b s (close_group g s e)
  | Bol :: r' => fun b s e => if b then run r' b s e else None
  | Eol :: r' => fun b s e =>
      match s with
      | [] => run r' b s e
      | [c] => if (c =? NL)%N then run r' b s e else None
      | _ => None
      end
  end.

(** Replacement templates: literal text and group references [\g]. *)
Inductive piece :=
| Txt (s : str)
| Ref (g : nat).

Definition template := list piece.

Definition expand (t : template) (e : caps) : str :=
  flat_map (fun p =>
              match p with
              | Txt s => s
              | Ref g => match find g (closed e) with
                         | Some s => s
                         | None => []
                         end
              end) t.

(** [re.sub(r, t, s)]: scan [s] from the left; where [r] matches, emit the
    expanded template and go on after the match; elsewhere copy one
    character.  [skip] counts the characters of a match still to pass, and
    [b] is true at the start of the subject only.  An empty match is
    replaced and the character after it copied; every pattern of the
    script needs one character at least, so this case does not arise
    there. *)
Fixpoint sub_from (r : regex) (t : template) (b : bool) (skip : nat) (s : str)
  : str :=
  match s with
  | [] =>
      match skip, run r b [] no_caps with
      | O, Some (_, e) => expand t e
      | _, _ => []
      end
  | c :: s' =>
      match skip with
      | S k => sub_from r t false k s'
      | O =>
          match run r b s no_caps with
          | Some (rest, e) =>
              let n := List.length s - List.length rest in
              match n with
              | O => expand t e ++ c :: sub_from r t false 0 s'
              | S k => expand t e ++ sub_from r t false k s'
              end
          | None => c :: sub_from r t false 0 s'
          end
      end
  end.

Definition sub (r : regex) (t : template) (s : str) : str :=
  sub_from r t true 0 s.

End Re.

(* ===================================================================== *)
(** ** Errors *)
(* ===================================================================== *)

(** Exceptions that the script can meet.  The only operation of the
    transformation stages that can raise is the indexing of the list of
    column widths; it is modelled as it is in Python, with the exception as
    a result. *)
Inductive exn :=
| IndexError
| OSError.

Inductive result (A : Type) :=
| Ok (a : A)
| Raise (x : exn).

Arguments Ok {A} a.
Arguments Raise {A} x.

Definition bind {A B} (m : result A) (f : A -> result B) : result B :=
  match m with
  | Ok a => f a
  | Raise x => Raise x
  end.

Notation "x <- m ;; k" := (bind m (fun x => k))
  (at level 61, m at next level, right associativity).

(** [l[i]] and [l[i] = v]. *)
Fixpoint index {A} (l : list A) (i : nat) : result A :=
  match l, i with
  | [], _ => Raise IndexError
  | x :: _, O => Ok x
  | _ :: l', S i' => index l' i'
  end.

Fixpoint store {A} (l : list A) (i : nat) (v : A) : result (list A) :=
  match l, i with
  | [], _ => Raise IndexError
  | _ :: l', O => Ok (v :: l')
  | x :: l', S i' => l'' <- store l' i' v ;; Ok (x :: l'')
  end.

(** A [for] loop whose body can raise. *)
Fixpoint foldM {A S} (f : S -> A -> result S) (l : list A) (s : S) : result S :=
  match l with
  | [] => Ok s
  | a :: l' => s' <- f s a ;; foldM f l' s'
  end.

Fixpoint mapM {A B} (f : A -> result B) (l : list A) : result (list B) :=
  match l with
  | [] => Ok []
  | a :: l' => b <- f a ;; bs <- mapM f l' ;; Ok (b :: bs)
  end.

(* ===================================================================== *)
(** ** The cleaner *)
(* ===================================================================== *)

Module Cleaner.

Import Re.

(** [self.config]: a dictionary of switches, read with a default. *)
Definition config := string -> option bool.

Definition get (cfg : config) (key : string) (default : bool) : bool :=
  match cfg key with
  | Some b => b
  | None => default
  end.

(** *** remove_image_links *)

Definition raster : list str :=
  map lit ["jpg"; "jpeg"; "png"; "gif"; "bmp"; "webp"]%string.

Definition vector : list str := map lit ["svg"; "ico"; "tiff"]%string.

(** [!\[.*?\]\(.*?\.(jpg|jpeg|png|gif|bmp|webp).*?\)] *)
Definition pattern1 : regex :=
  text "![" ++ [Lazy dot] ++ text "](" ++ [Lazy dot] ++ text "." ++
  [Open 1; Alt raster; Close 1; Lazy dot] ++ text ")".

(** [<img.*?src=.*?\.(jpg|jpeg|png|gif|bmp|webp).*?>] *)
Definition pattern2 : regex :=
  text "<img" ++ [Lazy dot] ++ text "src=" ++ [Lazy dot] ++ text "." ++
  [Open 1; Alt raster; Close 1; Lazy dot] ++ text ">".

(** [!\[.*?\]\(.*?\.(svg|ico|tiff).*?\)] *)
Definition pattern3 : regex :=
  text "![" ++ [Lazy dot] ++ text "](" ++ [Lazy dot] ++ text "." ++
  [Open 1; Alt vector; Close 1; Lazy dot] ++ text ")".

Definition remove_image_links (cfg : config) (content : str) : str :=
  if negb (get cfg "remove_image_links" true) then content
  else
    let content := sub pattern1 [] content in
    let content := sub pattern2 [] content in
    let content := sub pattern3 [] content in
    content.

(** *** remove_empty_lines *)

(** [\n\s*\n\s*\n] *)
Definition blank_run : regex :=
  [One (only NL); Star space; One (only NL); Star space; One (only NL)].

Definition remove_empty_lines (cfg : config) (content : str) : str :=
  if negb (get cfg "remove_empty_lines" true) then content
  else
    let content := sub blank_run [Txt [NL; NL]] content in
    let content := sub blank_run [Txt [NL; NL]] content in
    strip content ++ [NL].

(** *** normalize_headings *)

(** [^#+\s*] and [\s*#+\s*$] *)
Definition leading_marks : regex :=
  [Bol; One (only HASH); Star (only HASH); Star space].

Definition trailing_marks : regex :=
  [Star space; One (only HASH); Star (only HASH); Star space; Eol].

(** The body of the loop, for one line. *)
Definition normalize_line (line : str) : str :=
  if startswith HASH (strip line) then
    let line := sub leading_marks [] line in
    let line := sub trailing_marks [] line in
    let heading_level :=
      if contains HASH line then Nat.min (count HASH line + 1) 6 else 1 in
    times HASH heading_level ++ [SP] ++ strip (remove HASH line)
  else line.

Definition normalize_headings (cfg : config) (content : str) : str :=
  if negb (get cfg "normalize_headings" true) then content
  else join [NL] (map normalize_line (split NL content)).

(** *** _format_table_lines *)

(** [[cell.strip() for cell in line.split('|')[1:-1]]] *)
Definition cells_of (line : str) : list str :=
  map strip (inner (split BAR line)).

(** The body of the inner loop that computes the widths. *)
Definition widen (col_widths : list nat) (ic : nat * str)
  : result (list nat) :=
  let '(i, cell) := ic in
  let col_widths :=
    if List.length col_widths <=? i then col_widths ++ [0] else col_widths in
  w <- index col_widths i ;;
  store col_widths i (Nat.max w (List.length cell)).

Definition widths_of (table_lines : list str) : result (list nat) :=
  foldM (fun col_widths line => foldM widen (enumerate (cells_of line)) col_widths)
        table_lines [].

(** One cell of row [j]: dashes in the second row, the padded text in the
    others. *)
Definition format_cell (col_widths : list nat) (j : nat) (ic : nat * str)
  : result str :=
  let '(i, cell) := ic in
  w <- index col_widths i ;;
  if j =? 1 then Ok (times DASH (w + 2))
  else Ok ([SP] ++ ljust cell w ++ [SP]).

Definition format_row (col_widths : list nat) (jl : nat * str) : result str :=
  let '(j, line) := jl in
  formatted_cells <- mapM (format_cell col_widths j) (enumerate (cells_of line)) ;;
  Ok ([BAR] ++ join [BAR] formatted_cells ++ [BAR]).

Definition _format_table_lines (table_lines : list str) : result (list str) :=
  if List.length table_lines <? 2 then Ok table_lines
  else
    col_widths <- widths_of table_lines ;;
    mapM (format_row col_widths) (enumerate table_lines).

(** *** format_tables *)

(** The variables of the scanning loop. *)
Record scan := {
  out : list str;          (* [result] *)
  table_lines : list str;
  in_table : bool
}.

(** The body of the loop, for one line. *)
Definition scan_line (st : scan) (line : str) : result scan :=
  let line :=
    if contains BAR line && negb (startswith BAR (strip line))
    then [BAR] ++ line ++ [BAR] else line in
  if contains BAR line then
    let rows := if in_table st then table_lines st else [] in
    Ok {| out := out st; table_lines := rows ++ [line]; in_table := true |}
  else if in_table st && (2 <=? List.length (table_lines st)) then
    formatted_table <- _format_table_lines (table_lines st) ;;
    Ok {| out := out st ++ formatted_table ++ [line];
          table_lines := [];
          in_table := false |}
  else
    Ok {| out := out st ++ [line];
          table_lines := table_lines st;
          in_table := in_table st |}.

Definition flush (st : scan) : result (list str) :=
  if in_table st && (2 <=? List.length (table_lines st)) then
    formatted_table <- _format_table_lines (table_lines st) ;;
    Ok (out st ++ formatted_table)
  else Ok (out st).

Definition format_tables (cfg : config) (content : str) : result str :=
  if negb (get cfg "format_tables" true) then Ok content
  else
    st <- foldM scan_line (split NL content)
            {| out := []; table_lines := []; in_table := false |} ;;
    lines <- flush st ;;
    Ok (join [NL] lines).

(** *** remove_special_chars *)

(** [[\x00-\x08\x0B\x0C\x0E-\x1F\x7F]] *)
Definition special (c : char) : bool :=
  ((c <=? 8) || (c =? 11) || (c =? 12) || (14 <=? c) && (c <=? 31) ||
   (c =? 127))%N.

Definition remove_special_chars (cfg : config) (content : str) : str :=
  if negb (get cfg "remove_special_chars" false) then content
  else sub [One special] [] content.

(** *** standardize_code_blocks, fix_urls *)

Section Interpreter.

(** [str.isalnum] beyond ASCII comes from the Unicode database of the
    interpreter, which is no part of the script. *)
Variable uni_alnum : char -> bool.

(** The class [\w]. *)
Definition word (c : char) : bool :=
  ((48 <=? c) && (c <=? 57) || (65 <=? c) && (c <=? 90) || (c =? 95) ||
   (97 <=? c) && (c <=? 122) || (128 <=? c) && uni_alnum c)%N.

(** [```\s*(\w+)] and [```\s*\n] *)
Definition fence_tag : regex :=
  text "```" ++ [Star space; Open 1; One word; Star word; Close 1].

Definition fence_end : regex := text "```" ++ [Star space; One (only NL)].

Definition standardize_code_blocks (cfg : config) (content : str) : str :=
  if negb (get cfg "standardize_code_blocks" true) then content
  else
    let content := sub fence_tag [Txt (lit "```"); Ref 1] content in
    let content := sub fence_end [Txt (lit "```" ++ [NL])] content in
    content.

(** [\!\[(.*?)\]\(\s*(.*?)\s*\)] and [\[(.*?)\]\(\s*(.*?)\s*\)] *)
Definition link_target : regex :=
  text "[" ++ [Open 1; Lazy dot; Close 1] ++ text "](" ++
  [Star space; Open 2; Lazy dot; Close 2; Star space] ++ text ")".

Definition image_target : regex := text "!" ++ link_target.

Definition fix_urls (cfg : config) (content : str) : str :=
  if negb (get cfg "fix_urls" true) then content
  else
    let content :=
      sub image_target
          [Txt (lit "!["); Ref 1; Txt (lit "]("); Ref 2; Txt (lit ")")] content in
    let content :=
      sub link_target
          [Txt (lit "["); Ref 1; Txt (lit "]("); Ref 2; Txt (lit ")")] content in
    content.

(** *** remove_trailing_whitespace, add_final_newline *)

Definition remove_trailing_whitespace (cfg : config) (content : str) : str :=
  if negb (get cfg "remove_trailing_whitespace" true) then content
  else join [NL] (map rstrip (split NL content)).

Definition add_final_newline (cfg : config) (content : str) : str :=
  if negb (get cfg "add_final_newline" true) then content
  else rstrip content ++ [NL].

(** *** The pipeline of clean_file *)

(** [cleaning_functions], in the order of the list. *)
Definition cleaning_functions (cfg : config) : list (str -> result str) :=
  [ fun c => Ok (remove_image_links cfg c);
    fun c => Ok (remove_special_chars cfg c);
    fun c => Ok (normalize_headings cfg c);
    format_tables cfg;
    fun c => Ok (standardize_code_blocks cfg c);
    fun c => Ok (fix_urls cfg c);
    fun c => Ok (remove_trailing_whitespace cfg c);
    fun c => Ok (remove_empty_lines cfg c);
    fun c => Ok (add_final_newline cfg c) ].

(** [for func in cleaning_functions: content = func(content)] *)
Definition clean_content (cfg : config) (content : str) : result str :=
  foldM (fun content func => func content) (cleaning_functions cfg) content.

(** *** Files and the log *)

Definition path := string.
Definition bytes := list Byte.byte.

Inductive encoding := UTF8 | GBK.

(** The lines that the script writes to its log. *)
Inductive event :=
| Started (p : path)        (* info: start of the processing of [p] *)
| ReadFailed (p : path)     (* error: [p] cannot be read *)
| ImagesRemoved             (* info: image links were removed *)
| Cleaned (p : path)        (* info: [p] was cleaned and written *)
| WriteFailed (p : path)    (* error: [p] cannot be written *)
| Unchanged (p : path).     (* info: [p] needs no change *)

Record world := {
  files : path -> option bytes;
  log : list event
}.

Definition say (w : world) (ev : event) : world :=
  {| files := files w; log := log w ++ [ev] |}.

Definition put (fs : path -> option bytes) (p : path) (d : option bytes)
  : path -> option bytes :=
  fun q => if String.eqb q p then d else fs q.

(** The codecs of the interpreter are no part of the script.  [decode enc
    d] is what reading a file of content [d] in text mode with encoding
    [enc] returns, [None] when it raises [UnicodeDecodeError]; [encode] is
    the writing of text as UTF-8. *)
Variable decode : encoding -> bytes -> option str.
Variable encode : str -> bytes.

(** An absent file makes the first [open] raise an error that the handler
    for [UnicodeDecodeError] does not catch. *)
Definition read_file (w : world) (file_path : path) : result (str * world) :=
  match files w file_path with
  | None => Raise OSError
  | Some d =>
      match decode UTF8 d with
      | Some content => Ok (content, w)
      | None =>
          match decode GBK d with
          | Some content => Ok (content, w)
          | None => Ok ([], say w (ReadFailed file_path))
          end
      end
  end.

(** [shutil.copy2(src, dst)] raises when there is no file [src]; on a file
    that exists the copy is taken to succeed. *)
Definition copy2 (fs : path -> option bytes) (src dst : path)
  : result (path -> option bytes) :=
  match fs src with
  | None => Raise OSError
  | Some d => Ok (put fs dst (Some d))
  end.

(** The body of the [try] and its handler.  The [open] for writing creates
    the file when there is none, and the write is taken to succeed; the
    handler logs the error of a failed copy, and then nothing is
    written. *)
Definition write_file (cfg : config) (w : world) (file_path : path)
  (content : str) : world :=
  let attempt :=
    fs <- (if get cfg "backup" true then
             let backup_path := (file_path ++ ".bak")%string in
             match files w backup_path with
             | None => copy2 (files w) file_path backup_path
             | Some _ => Ok (files w)
             end
           else Ok (files w)) ;;
    Ok {| files := put fs file_path (Some (encode content));
          log := log w ++ [Cleaned file_path] |} in
  match attempt with
  | Ok w' => w'
  | Raise _ => say w (WriteFailed file_path)
  end.

Definition str_eqb (a b : str) : bool :=
  if list_eq_dec N.eq_dec a b then true else false.

Definition clean_file (cfg : config) (w : world) (file_path : path)
  : result world :=
  let w := say w (Started file_path) in
  cw <- read_file w file_path ;;
  let '(content, w) := cw in
  match content with
  | [] => Ok w
  | _ :: _ =>
      let original_content := content in
      let w :=
        if get cfg "remove_image_links" true then say w ImagesRemoved else w in
      content <- clean_content cfg content ;;
      if negb (str_eqb content original_content)
      then Ok (write_file cfg w file_path content)
      else Ok (say w (Unchanged file_path))
  end.

End Interpreter.

End Cleaner.

(* ===================================================================== *)
(** ** Derived notions *)
(* ===================================================================== *)

(** The notions in which the properties below are stated and proved: the
    results of the stages with the error cases resolved, the parts of the
    blank-line pattern, and the documents that a stage leaves as they
    are. *)

Import Re Cleaner.

(** *** Configurations and documents *)

(** A configuration that sets no key: every switch takes its default. *)
Definition defaults : config := fun _ => None.

(** A configuration in which one more switch is on. *)
Definition enable (key : string) (cfg : config) : config :=
  fun k => if String.eqb k key then Some true else cfg k.

(** A configuration in which one more switch is off. *)
Definition disable (key : string) (cfg : config) : config :=
  fun k => if String.eqb k key then Some false else cfg k.

(** The configuration in which only the stages on white space run. *)
Definition whitespace_only : config :=
  disable "remove_image_links"
    (disable "normalize_headings"
       (disable "format_tables"
          (disable "standardize_code_blocks" (disable "fix_urls" defaults)))).

(** A document written on one line of the development, with [$] for the
    end of a line. *)
Definition doc (s : string) : str :=
  map (fun c => if (c =? 36)%N then NL else c) (lit s).

(** *** The results of the table stage and of the pipeline *)

(** Column by column maximum of two lists of widths; the longer list gives
    the columns that the shorter one lacks. *)
Fixpoint maxes (ws ns : list nat) : list nat :=
  match ws, ns with
  | [], _ => ns
  | _, [] => ws
  | w :: ws', n :: ns' => Nat.max w n :: maxes ws' ns'
  end.

(** The widths after the rows [rows], starting from [ws]. *)
Definition widths_from (ws : list nat) (rows : list str) : list nat :=
  fold_left (fun ws line => maxes ws (map (@List.length char) (cells_of line)))
            rows ws.

(** The text of cell [i] of row [j] for the widths [ws]. *)
Definition cell_text (ws : list nat) (j : nat) (ic : nat * str) : str :=
  if j =? 1 then times DASH (nth (fst ic) ws 0 + 2)
  else [SP] ++ ljust (snd ic) (nth (fst ic) ws 0) ++ [SP].

(** The text of row [j] for the widths [ws]. *)
Definition row_text (ws : list nat) (jl : nat * str) : str :=
  [BAR] ++
  join [BAR] (map (cell_text ws (fst jl)) (enumerate (cells_of (snd jl)))) ++
  [BAR].

(** What [_format_table_lines] returns, for every block. *)
Definition table_text (rows : list str) : list str :=
  if List.length rows <? 2 then rows
  else map (row_text (widths_from [] rows)) (enumerate rows).



(** The body of the loop of [format_tables], with the result of the
    formatter put in. *)
Definition scan_step (st : scan) (line : str) : scan :=
  let line :=
    if contains BAR line && negb (startswith BAR (strip line))
    then [BAR] ++ line ++ [BAR] else line in
  if contains BAR line then
    {| out := out st;
       table_lines := (if in_table st then table_lines st else []) ++ [line];
       in_table := true |}
  else if in_table st && (2 <=? List.length (table_lines st)) then
    {| out := out st ++ table_text (table_lines st) ++ [line];
       table_lines := [];
       in_table := false |}
  else
    {| out := out st ++ [line];
       table_lines := table_lines st;
       in_table := in_table st |}.

(** The final flush of the loop variables. *)
Definition flush_text (st : scan) : list str :=
  if in_table st && (2 <=? List.length (table_lines st))
  then out st ++ table_text (table_lines st)
  else out st.

(** The loop variables before the first line. *)
Definition start : scan :=
  {| out := []; table_lines := []; in_table := false |}.

(** What [format_tables] returns, for every document. *)
Definition tables_text (cfg : config) (content : str) : str :=
  if negb (get cfg "format_tables" true) then content
  else join [NL] (flush_text (fold_left scan_step (split NL content) start)).

(** The composition of the stages, in the order of [cleaning_functions]. *)
Definition pipeline_text (uni_alnum : char -> bool) (cfg : config)
  (content : str) : str :=
  add_final_newline cfg
    (remove_empty_lines cfg
       (remove_trailing_whitespace cfg
          (fix_urls cfg
             (standardize_code_blocks uni_alnum cfg
                (tables_text cfg
                   (normalize_headings cfg
                      (remove_special_chars cfg
                         (remove_image_links cfg content)))))))).

(** *** The parts of the blank-line pattern *)

(** [w] is white space only. *)
Definition blank (w : str) : bool := forallb isspace w.

(** [t] does not go on with white space. *)
Definition stops (t : str) : bool :=
  match t with
  | [] => true
  | d :: _ => negb (isspace d)
  end.

(** The white space that [lstrip] removes. *)
Fixpoint lead (s : str) : str :=
  match s with
  | [] => []
  | c :: s' => if isspace c then c :: lead s' else []
  end.

(** The text after the last newline of [w], if [w] has a newline. *)
Fixpoint cut (w : str) : option str :=
  match w with
  | [] => None
  | c :: w' =>
      match cut w' with
      | Some x => Some x
      | None => if (c =? NL)%N then Some w' else None
      end
  end.

(** The text after the last newline of [w], if [w] has two newlines. *)
Fixpoint cut2 (w : str) : option str :=
  match w with
  | [] => None
  | c :: w' =>
      match cut2 w' with
      | Some x => Some x
      | None => if (c =? NL)%N then cut w' else None
      end
  end.

(** The result of a match that leaves [tail] of a run, before [t]. *)
Definition after (t : str) (e : caps) (x : option str) : option (str * caps) :=
  match x with
  | Some tail => Some (tail ++ t, e)
  | None => None
  end.

(** The first [re.sub] of [remove_empty_lines]. *)
Definition collapse (s : str) : str := sub blank_run [Txt [NL; NL]] s.

(** A run of white space after the first [re.sub]. *)
Fixpoint squeeze (w : str) : str :=
  match w with
  | [] => []
  | c :: w' =>
      if (c =? NL)%N then
        match cut2 w' with
        | Some tail => NL :: NL :: tail
        | None => w
        end
      else c :: squeeze w'
  end.

(** No run of white space has more than two newlines: no two blank lines
    follow each other. *)
Definition no_blank_run (s : str) : Prop :=
  forall x w y, s = x ++ w ++ y -> blank w = true -> count NL w <= 2.

(** *** Lines *)

(** A text that ends with exactly one newline. *)
Definition ends_with_one_newline (s : str) : Prop :=
  exists body, s = body ++ [NL] /\ forall b, body <> b ++ [NL].

(** A character of a line has a next one. *)
Definition ok_next (s : str) : bool :=
  match s with
  | [] => false
  | d :: _ => negb (d =? NL)%N
  end.

(** No white space stands at the end of a line: every white space other
    than the newline has a next character on its line. *)
Fixpoint trimmed (s : str) : bool :=
  match s with
  | [] => true
  | c :: s' => (negb (isspace c) || (c =? NL)%N || ok_next s') && trimmed s'
  end.

(** *** Documents that a stage leaves as they are *)

(** No character of the class of [remove_special_chars]. *)
Definition plain (s : str) : bool := forallb (fun c => negb (special c)) s.

(** The documents that the blank-line stage leaves as they are. *)
Definition settled (y : str) : Prop := collapse (strip y) ++ [NL] = y.

(** The documents that the final-newline stage leaves as they are. *)
Definition closed_off (y : str) : Prop := rstrip y ++ [NL] = y.

(** The four stages that work on white space and control characters, in
    the order of the pipeline. *)
Definition tidy (cfg : config) (x : str) : str :=
  add_final_newline cfg
    (remove_empty_lines cfg
       (remove_trailing_whitespace cfg (remove_special_chars cfg x))).

(** *** Files *)

(** Reading a file of content [d] yields [content]: UTF-8 decodes it, or
    UTF-8 fails and GBK decodes it. *)
Definition reads (decode : encoding -> bytes -> option str) (d : bytes)
  (content : str) : Prop :=
  decode UTF8 d = Some content \/
  decode UTF8 d = None /\ decode GBK d = Some content.

(** The log line of the stages: [remove_image_links] is the only stage
    that writes one, when it is on. *)
Definition stage_log (cfg : config) : list event :=
  if get cfg "remove_image_links" true then [ImagesRemoved] else [].

(** *** Deletion *)

(** [a] is [b] with some characters left out. *)
Inductive subseq : str -> str -> Prop :=
| subseq_nil : subseq [] []
| subseq_keep (c : char) (a b : str) : subseq a b -> subseq (c :: a) (c :: b)
| subseq_drop (c : char) (a b : str) : subseq a b -> subseq a (c :: b).

(** *** Prose *)

(** The characters with which the syntax that the stages act on starts:
    images, HTML tags, headings, tables, code fences and links. *)
Definition syntax : str := lit "!<#|`[".

(** A document without any of them. *)
Definition prose (s : str) : bool :=
  forallb (fun c => negb (contains c syntax)) s.

(** *** Matching *)

(** [t] does not go on with a character of the class [p]. *)
Definition halts (p : char -> bool) (t : str) : bool :=
  match t with
  | [] => true
  | d :: _ => negb (p d)
  end.

(** A character that can stand between the parentheses of a link, before
    the closing one. *)
Definition inside (c : char) : bool := dot c && negb (c =? ch ")")%N.

(** *** Code fences *)

(** The backquote, of which a fence has three. *)
Definition tick : char := ch "`".

(** The text does not go on, after white space, with a character of the
    class [p]. *)
Definition wordless (p : char -> bool) (s : str) : bool := halts p (lstrip s).

(** The text does not go on with white space that holds a newline. *)
Definition lineless (s : str) : bool := negb (contains NL (lead s)).

(** [guarded ok k s]: in [s], read after [k] backquotes, wherever a
    white-space character follows three backquotes or more, the text after
    this character satisfies [ok]. *)
Fixpoint guarded (ok : str -> bool) (k : nat) (s : str) : bool :=
  match s with
  | [] => true
  | c :: s' =>
      (if (3 <=? k) && isspace c then ok s' else true) &&
      guarded ok (if (c =? tick)%N then S k else 0) s'
  end.

(** The documents that the code-fence stage leaves as they are: white space
    after a fence is one newline at most, followed by white space without a
    newline, and no word stands after it. *)
Definition fenced (p : char -> bool) (s : str) : bool :=
  guarded (wordless p) 0 s && guarded lineless 0 s.

(** The pattern [r] has no match at the text [s] after one, two or three of
    the [k] backquotes before it. *)
Definition unmatched (r : regex) (k : nat) (s : str) : Prop :=
  forall j, 1 <= j -> j <= 3 -> j <= k ->
            run r false (times tick j ++ s) no_caps = None.

(** [remove_trailing_whitespace], when it is on. *)
Definition rstrip_lines (s : str) : str := join [NL] (map rstrip (split NL s)).

(** The five stages that work on white space, control characters and code
    fences, in the order of the pipeline. *)
Definition neat (uni_alnum : char -> bool) (cfg : config) (x : str) : str :=
  add_final_newline cfg
    (remove_empty_lines cfg
       (remove_trailing_whitespace cfg
          (standardize_code_blocks uni_alnum cfg
             (remove_special_chars cfg x)))).

(** *** Proof steps *)

(** Concatenations, associated to the right. *)
Ltac reassoc := repeat (progress (rewrite <- ?app_assoc; cbn [app])).

(* ===================================================================== *)
(** ** Properties *)
(* ===================================================================== *)

(** *** Strings *)

Section Strings.

Lemma split_cons_sep (sep : char) (s : str) :
  split sep (sep :: s) = [] :: split sep s.
Proof. simpl. now rewrite N.eqb_refl. Qed.

Lemma split_not_nil (sep : char) (s : str) : split sep s <> [].
Proof.
  destruct s as [|c s]; simpl; [discriminate|].
  destruct (c =? sep)%N; [discriminate|].
  destruct (split sep s); discriminate.
Qed.

Lemma split_snoc_sep (sep : char) (s : str) :
  split sep (s ++ [sep]) = split sep s ++ [[]].
Proof.
  induction s as [|c s IH]; simpl.
  - now rewrite N.eqb_refl.
  - destruct (c =? sep)%N; rewrite IH; [reflexivity|].
    destruct (split sep s) eqn:E; [now apply split_not_nil in E|reflexivity].
Qed.

Lemma inner_bracket {A} (x y : A) (l : list A) : inner (x :: l ++ [y]) = l.
Proof. unfold inner. simpl. apply removelast_last. Qed.

(** The cells of a bracketed line are all the pieces of the line. *)
Lemma cells_of_bracket (line : str) :
  cells_of ([BAR] ++ line ++ [BAR]) = map strip (split BAR line).
Proof.
  unfold cells_of. simpl app.
  now rewrite split_cons_sep, split_snoc_sep, inner_bracket.
Qed.

End Strings.

(** *** The table formatter never indexes out of range *)

Section Tables.

Lemma maxes_nil_r (ws : list nat) : maxes ws [] = ws.
Proof. now destruct ws. Qed.

Lemma maxes_length (ws ns : list nat) :
  List.length (maxes ws ns) = Nat.max (List.length ws) (List.length ns).
Proof.
  revert ns; induction ws as [|w ws IH]; intros [|n ns]; simpl; auto.
Qed.

Lemma maxes_diag (ws : list nat) : maxes ws ws = ws.
Proof.
  induction ws as [|w ws IH]; simpl; [reflexivity|].
  now rewrite Nat.max_id, IH.
Qed.

Lemma maxes_absorb (ws ns : list nat) : maxes (maxes ws ns) ws = maxes ws ns.
Proof.
  revert ns; induction ws as [|w ws IH]; intros [|n ns]; simpl;
    try reflexivity.
  - now rewrite Nat.max_id, maxes_diag.
  - rewrite IH. f_equal. lia.
Qed.

Lemma maxes_dominated (ws ns : list nat) :
  List.length ns <= List.length ws ->
  (forall i, nth i ns 0 <= nth i ws 0) ->
  maxes ws ns = ws.
Proof.
  revert ns; induction ws as [|w ws IH]; intros [|n ns] Hl Hn; simpl in *;
    try reflexivity; [lia|].
  f_equal.
  - pose proof (Hn 0) as H0. simpl in H0. lia.
  - apply IH; [lia|]. intros i. exact (Hn (S i)).
Qed.

Lemma index_app_r {A} (pre l : list A) (i : nat) :
  index (pre ++ l) (List.length pre + i) = index l i.
Proof. induction pre; simpl; auto. Qed.

Lemma store_app_r {A} (pre l : list A) (i : nat) (v : A) :
  store (pre ++ l) (List.length pre + i) v =
  l' <- store l i v ;; Ok (pre ++ l').
Proof.
  induction pre as [|a pre IH]; simpl.
  - now destruct (store l i v).
  - rewrite IH. now destruct (store l i v).
Qed.

Lemma index_app_len {A} (pre l : list A) :
  index (pre ++ l) (List.length pre) = index l 0.
Proof. rewrite <- (Nat.add_0_r (List.length pre)). apply index_app_r. Qed.

Lemma store_app_len {A} (pre l : list A) (v : A) :
  store (pre ++ l) (List.length pre) v = l' <- store l 0 v ;; Ok (pre ++ l').
Proof. rewrite <- (Nat.add_0_r (List.length pre)). apply store_app_r. Qed.

(** One step of the inner loop, at the column that follows [pre]. *)
Lemma widen_at (pre ws : list nat) (cell : str) :
  widen (pre ++ ws) (List.length pre, cell) =
  Ok (pre ++ maxes (firstn 1 ws) [List.length cell] ++ skipn 1 ws).
Proof.
  unfold widen.
  destruct ws as [|w ws].
  - rewrite app_nil_r, Nat.leb_refl, index_app_len. cbn [index bind].
    rewrite store_app_len. reflexivity.
  - assert (E : (List.length (pre ++ w :: ws) <=? List.length pre) = false).
    { apply Nat.leb_gt. rewrite length_app. simpl. lia. }
    rewrite E, index_app_len. cbn [index bind].
    rewrite store_app_len. reflexivity.
Qed.

Lemma widen_row_from (cells : list str) (pre ws : list nat) :
  foldM widen (combine (seq (List.length pre) (List.length cells)) cells)
        (pre ++ ws) =
  Ok (pre ++ maxes ws (map (@List.length char) cells)).
Proof.
  revert pre ws; induction cells as [|cell cells IH]; intros pre ws.
  - simpl. now rewrite maxes_nil_r.
  - cbn [List.length seq combine foldM map].
    rewrite widen_at. cbn [bind].
    replace (pre ++ maxes (firstn 1 ws) [List.length cell] ++ skipn 1 ws)
      with ((pre ++ [Nat.max (hd 0 ws) (List.length cell)]) ++ skipn 1 ws).
    2:{ rewrite <- app_assoc. f_equal. destruct ws; simpl; auto. }
    replace (S (List.length pre))
      with (List.length (pre ++ [Nat.max (hd 0 ws) (List.length cell)])).
    2:{ rewrite length_app. simpl. lia. }
    rewrite IH, <- app_assoc. f_equal. f_equal.
    destruct ws as [|w ws]; simpl; [|reflexivity].
    now destruct (map (@List.length char) cells).
Qed.

(** The inner loop over one row computes the maximum with the lengths of
    the cells of the row. *)
Lemma widen_row (line : str) (ws : list nat) :
  foldM widen (enumerate (cells_of line)) ws =
  Ok (maxes ws (map (@List.length char) (cells_of line))).
Proof. exact (widen_row_from (cells_of line) [] ws). Qed.

Lemma widths_loop (rows : list str) (ws : list nat) :
  foldM (fun col_widths line =>
           foldM widen (enumerate (cells_of line)) col_widths) rows ws =
  Ok (widths_from ws rows).
Proof.
  revert ws; induction rows as [|line rows IH]; intros ws; simpl.
  - reflexivity.
  - rewrite widen_row. simpl. apply IH.
Qed.

Lemma widths_of_total (rows : list str) :
  widths_of rows = Ok (widths_from [] rows).
Proof. apply widths_loop. Qed.

Lemma widths_from_grows (rows : list str) (ws : list nat) :
  List.length ws <= List.length (widths_from ws rows).
Proof.
  revert ws; induction rows as [|line rows IH]; intros ws; simpl; [lia|].
  etransitivity; [|apply IH]. rewrite maxes_length. lia.
Qed.

(** Every row has at most as many cells as there are widths. *)
Lemma widths_from_cover (rows : list str) (ws : list nat) (line : str) :
  In line rows ->
  List.length (cells_of line) <= List.length (widths_from ws rows).
Proof.
  revert ws; induction rows as [|r rows IH]; intros ws H;
    [destruct H|destruct H as [->|H]]; simpl.
  - etransitivity; [|apply widths_from_grows].
    rewrite maxes_length, length_map. apply Nat.le_max_r.
  - now apply IH.
Qed.

Lemma index_nth {A} (l : list A) (i : nat) (d : A) :
  i < List.length l -> index l i = Ok (nth i l d).
Proof.
  revert i; induction l as [|a l IH]; intros [|i] H; simpl in *;
    try lia; auto. apply IH. lia.
Qed.

Lemma format_cells_from (ws : list nat) (j k : nat) (cells : list str) :
  k + List.length cells <= List.length ws ->
  mapM (format_cell ws j) (combine (seq k (List.length cells)) cells) =
  Ok (map (cell_text ws j) (combine (seq k (List.length cells)) cells)).
Proof.
  revert k; induction cells as [|cell cells IH]; intros k H; simpl in *.
  - reflexivity.
  - rewrite (index_nth ws k 0) by lia. cbn [bind].
    unfold cell_text at 1. simpl fst. simpl snd.
    destruct (j =? 1); cbn [bind]; (rewrite IH by lia); reflexivity.
Qed.

Lemma format_row_ok (ws : list nat) (j : nat) (line : str) :
  List.length (cells_of line) <= List.length ws ->
  format_row ws (j, line) = Ok (row_text ws (j, line)).
Proof.
  intros H. unfold format_row, enumerate.
  rewrite format_cells_from by (simpl; lia). reflexivity.
Qed.

Lemma format_rows_ok (ws : list nat) (jls : list (nat * str)) :
  (forall jl, In jl jls -> List.length (cells_of (snd jl)) <= List.length ws) ->
  mapM (format_row ws) jls = Ok (map (row_text ws) jls).
Proof.
  induction jls as [|[j line] jls IH]; intros H; cbn [mapM map].
  - reflexivity.
  - rewrite format_row_ok by (apply (H (j, line)); now left). cbn [bind].
    rewrite IH by (intros jl Hjl; apply H; now right). reflexivity.
Qed.

Lemma in_enumerate {A} (l : list A) (ia : nat * A) :
  In ia (enumerate l) -> In (snd ia) l.
Proof. destruct ia as [i a]. apply in_combine_r. Qed.

Lemma format_table_lines_ok (rows : list str) :
  _format_table_lines rows = Ok (table_text rows).
Proof.
  unfold _format_table_lines, table_text.
  destruct (List.length rows <? 2); [reflexivity|].
  rewrite widths_of_total. cbn [bind].
  apply format_rows_ok. intros jl H.
  apply widths_from_cover. now apply in_enumerate.
Qed.

End Tables.

(** *** The block detector never fails *)

Section Blocks.

Lemma scan_line_ok (st : scan) (line : str) :
  scan_line st line = Ok (scan_step st line).
Proof.
  unfold scan_line, scan_step.
  destruct (contains BAR _); [reflexivity|].
  destruct (in_table st && _); [|reflexivity].
  now rewrite format_table_lines_ok.
Qed.

Lemma scan_lines_ok (lines : list str) (st : scan) :
  foldM scan_line lines st = Ok (fold_left scan_step lines st).
Proof.
  revert st; induction lines as [|line lines IH]; intros st; cbn [foldM fold_left].
  - reflexivity.
  - rewrite scan_line_ok. cbn [bind]. apply IH.
Qed.

Lemma flush_ok (st : scan) : flush st = Ok (flush_text st).
Proof.
  unfold flush, flush_text.
  destruct (in_table st && _); [|reflexivity].
  now rewrite format_table_lines_ok.
Qed.

Lemma format_tables_ok (cfg : config) (content : str) :
  format_tables cfg content = Ok (tables_text cfg content).
Proof.
  unfold format_tables, tables_text.
  destruct (negb _); [reflexivity|].
  fold start. rewrite scan_lines_ok. cbn [bind].
  rewrite flush_ok. reflexivity.
Qed.

End Blocks.

(** *** The pipeline never fails *)

Section Pipeline.

Variable uni_alnum : char -> bool.

Lemma clean_content_ok (cfg : config) (content : str) :
  clean_content uni_alnum cfg content =
  Ok (pipeline_text uni_alnum cfg content).
Proof.
  unfold clean_content, cleaning_functions. cbn [foldM bind].
  rewrite format_tables_ok. reflexivity.
Qed.

End Pipeline.

(** *** Claims on the table formatter *)

Section TableClaims.

(** C7.  Every transformation stage is total on in-memory text.  The
    stages built from [re.sub], [split], [strip] and [join] are total
    functions; the table formatter, which indexes a list, returns a result
    for every block, ragged or not, and so do the block detector and the
    whole pipeline: no input makes them raise. *)
Theorem stages_total :
  (forall table_lines, exists lines, _format_table_lines table_lines = Ok lines) /\
  (forall cfg content, exists text, format_tables cfg content = Ok text) /\
  (forall uni_alnum cfg content,
      exists text, clean_content uni_alnum cfg content = Ok text).
Proof.
  split; [|split].
  - intros rows. eexists. apply format_table_lines_ok.
  - intros cfg content. eexists. apply format_tables_ok.
  - intros u cfg content. eexists. apply clean_content_ok.
Qed.

(** C3, as stated, fails: with the usual separator row of three dashes per
    column the widths are [3,3,3], not [1,2,1]. *)
Lemma table_widths_counterexample :
  cells_of (doc "|A|BB|C|") = [lit "A"; lit "BB"; lit "C"] /\
  cells_of (doc "|1|22|3|") = [lit "1"; lit "22"; lit "3"] /\
  widths_of [doc "|A|BB|C|"; doc "|---|---|---|"; doc "|1|22|3|"] = Ok [3; 3; 3] /\
  widths_of [doc "|A|BB|C|"; doc "|---|---|---|"; doc "|1|22|3|"] <> Ok [1; 2; 1] /\
  _format_table_lines [doc "|A|BB|C|"; doc "|---|---|---|"; doc "|1|22|3|"] =
  Ok [doc "| A   | BB  | C   |"; doc "|-----|-----|-----|"; doc "| 1   | 22  | 3   |"].
Proof.
  repeat split; try (vm_compute; reflexivity).
  intros H. vm_compute in H. discriminate H.
Qed.

(** C3, amended.  For a block of three rows whose first row has the cells
    A, BB, C and whose third row has the cells 1, 22, 3, the widths are the
    column by column maximum of [1,2,1] and the lengths of the cells of the
    second row; the second row is rewritten with width+2 dashes for each of
    its own cells, whatever the cells contained; and the widths are
    [1,2,1] when the second row has at most three cells, none longer than
    1, 2 and 1 in its column. *)
Theorem table_separator_row (r1 r2 r3 : str) :
  cells_of r1 = [lit "A"; lit "BB"; lit "C"] ->
  cells_of r3 = [lit "1"; lit "22"; lit "3"] ->
  let lens := map (@List.length char) (cells_of r2) in
  let ws := maxes [1; 2; 1] lens in
  widths_of [r1; r2; r3] = Ok ws /\
  (exists row1 row3,
      _format_table_lines [r1; r2; r3] =
      Ok [row1;
          [BAR] ++
          join [BAR] (map (fun ic : nat * str => times DASH (nth (fst ic) ws 0 + 2))
                          (enumerate (cells_of r2))) ++
          [BAR];
          row3]) /\
  (List.length lens <= 3 ->
   (forall i, nth i lens 0 <= nth i [1; 2; 1] 0) ->
   ws = [1; 2; 1]).
Proof.
  intros H1 H3 lens ws.
  assert (W : widths_from [] [r1; r2; r3] = ws).
  { unfold widths_from. cbn [fold_left]. rewrite H1, H3. cbn [map maxes].
    change (map (@List.length char) (cells_of r2)) with lens.
    change (maxes (maxes [1; 2; 1] lens) [1; 2; 1] = maxes [1; 2; 1] lens).
    apply maxes_absorb. }
  split; [|split].
  - now rewrite widths_of_total, W.
  - rewrite format_table_lines_ok. unfold table_text.
    cbn [List.length Nat.ltb Nat.leb]. rewrite W.
    unfold enumerate at 1. cbn [List.length seq combine map].
    do 2 eexists. reflexivity.
  - intros Hl Hn. subst ws. now apply maxes_dominated.
Qed.

Lemma table_separator_row_witness :
  widths_of [doc "| A | BB | C |"; doc "|x|yy|"; doc "|1|22|3|"] = Ok [1; 2; 1] /\
  exists row1 row3,
    _format_table_lines [doc "| A | BB | C |"; doc "|x|yy|"; doc "|1|22|3|"] =
    Ok [row1; doc "|---|----|"; row3].
Proof.
  assert (H1 : cells_of (doc "| A | BB | C |") = [lit "A"; lit "BB"; lit "C"])
    by (vm_compute; reflexivity).
  assert (H3 : cells_of (doc "|1|22|3|") = [lit "1"; lit "22"; lit "3"])
    by (vm_compute; reflexivity).
  pose proof (table_separator_row _ (doc "|x|yy|") _ H1 H3) as H.
  cbv zeta in H.
  replace (cells_of (doc "|x|yy|")) with [lit "x"; lit "yy"] in H
    by (vm_compute; reflexivity).
  destruct H as [W [[row1 [row3 F]] D]].
  assert (E : maxes [1; 2; 1] (map (@List.length char) [lit "x"; lit "yy"]) =
              [1; 2; 1]).
  { apply D; [cbn; lia|]. intros [|[|[|i]]]; cbn; lia. }
  rewrite E in W, F. split; [exact W|].
  exists row1, row3. exact F.
Defined.

(** C4.  What the block detector does with a run of one line: the line is
    not emitted where it stood; it stays in the accumulator, is lost when
    no other separator line follows, and is joined to the next run when
    one does. *)
Theorem single_row_run_lost :
  format_tables defaults (doc "a|b$x") = Ok (doc "x") /\
  format_tables defaults (doc "|a|b|") = Ok [] /\
  format_tables defaults (doc "a|b$x$c|d") = Ok (doc "x$| a | b |$|---|---|").
Proof. repeat split; vm_compute; reflexivity. Qed.


End TableClaims.

(** *** Trimming *)

Section Trimming.

Lemma rstrip_snoc_space (s : str) (c : char) :
  isspace c = true -> rstrip (s ++ [c]) = rstrip s.
Proof.
  intros H. induction s as [|a s IH]; simpl.
  - now rewrite H.
  - now rewrite IH.
Qed.

Lemma rstrip_cons (a : char) (s : str) :
  rstrip (a :: s) =
  match rstrip s with
  | [] => if isspace a then [] else [a]
  | _ :: _ => a :: rstrip s
  end.
Proof. simpl. now destruct (rstrip s). Qed.

Lemma rstrip_idem (s : str) : rstrip (rstrip s) = rstrip s.
Proof.
  induction s as [|a s IH]; [reflexivity|].
  rewrite rstrip_cons.
  destruct (rstrip s) as [|b r] eqn:E.
  - destruct (isspace a) eqn:Ha; simpl; [reflexivity|now rewrite Ha].
  - rewrite rstrip_cons, IH. reflexivity.
Qed.

(** The text left by [rstrip] does not end with white space. *)
Lemma rstrip_last (s body : str) (c : char) :
  rstrip s = body ++ [c] -> isspace c = false.
Proof.
  revert body; induction s as [|a s IH]; intros body; simpl.
  - now destruct body.
  - destruct (rstrip s) as [|b r] eqn:E.
    + destruct (isspace a) eqn:Ha; [now destruct body|].
      destruct body as [|x [|y body]]; try discriminate.
      now intros [= <-].
    + destruct body as [|x body]; [discriminate|].
      intros [= _ H]. now apply (IH body).
Qed.

Lemma contains_filter_out (c : char) (s : str) :
  contains c (remove c s) = false.
Proof.
  induction s as [|a s IH]; simpl; [reflexivity|].
  destruct (N.eqb_spec a c) as [->|H]; simpl; [exact IH|].
  rewrite IH. destruct (N.eqb_spec c a); [congruence|reflexivity].
Qed.

Lemma contains_cons (a c : char) (s : str) :
  contains a (c :: s) = (a =? c)%N || contains a s.
Proof. reflexivity. Qed.

Lemma contains_lstrip (c : char) (s : str) :
  contains c s = false -> contains c (lstrip s) = false.
Proof.
  induction s as [|a s IH]; simpl; [auto|].
  destruct (isspace a); [|auto].
  intros H. apply orb_false_iff in H. now apply IH.
Qed.

Lemma contains_rstrip (c : char) (s : str) :
  contains c s = false -> contains c (rstrip s) = false.
Proof.
  induction s as [|a s IH]; simpl; [auto|].
  intros H. apply orb_false_iff in H. destruct H as [Ha Hs].
  specialize (IH Hs).
  destruct (rstrip s) as [|b r].
  - destruct (isspace a); simpl; [reflexivity|now rewrite Ha].
  - change (contains c (a :: b :: r)) with ((c =? a)%N || contains c (b :: r)).
    now rewrite Ha, IH.
Qed.

Lemma contains_strip (c : char) (s : str) :
  contains c s = false -> contains c (strip s) = false.
Proof. intros H. now apply contains_lstrip, contains_rstrip. Qed.

Lemma count_contains (c : char) (s : str) :
  0 < count c s -> contains c s = true.
Proof.
  unfold count. induction s as [|a s IH]; simpl; [lia|].
  destruct (c =? a)%N; simpl; auto.
Qed.

End Trimming.

(** *** Claims on the line and character stages *)

Section LineClaims.

(** C2, as stated, fails: the marker runs are removed before the level is
    counted, so "## Title ##" comes out at level 1. *)
Lemma heading_level_counterexample :
  normalize_headings defaults (lit "## Title ##") <> lit "## Title".
Proof. intros H. vm_compute in H. discriminate H. Qed.

(** C2, amended.  The heading normalizer maps "## Title ##" to "# Title"
    and "#Title" to "# Title"; and every heading line whose recomputed
    level, the number of markers left inside the text plus one, exceeds 6
    comes out with exactly six markers, a space and a text free of
    markers. *)
Theorem heading_levels (cfg : config) :
  get cfg "normalize_headings" true = true ->
  normalize_headings cfg (lit "## Title ##") = lit "# Title" /\
  normalize_headings cfg (lit "#Title") = lit "# Title" /\
  forall line,
    startswith HASH (strip line) = true ->
    let rest := sub trailing_marks [] (sub leading_marks [] line) in
    6 < count HASH rest + 1 ->
    normalize_line line = lit "###### " ++ strip (remove HASH rest) /\
    contains HASH (strip (remove HASH rest)) = false.
Proof.
  intros E. unfold normalize_headings. rewrite E. cbn [negb].
  split; [vm_compute; reflexivity|]. split; [vm_compute; reflexivity|].
  intros line Hs Hc. split.
  - unfold normalize_line. rewrite Hs.
    rewrite count_contains by lia.
    rewrite Nat.min_r by lia. reflexivity.
  - apply contains_strip, contains_filter_out.
Qed.

Lemma heading_levels_witness :
  normalize_line (lit "#a#b#c#d#e#f#g") = lit "###### abcdefg".
Proof.
  assert (E : get defaults "normalize_headings" true = true) by reflexivity.
  destruct (heading_levels defaults E) as [_ [_ H]].
  apply (H (lit "#a#b#c#d#e#f#g")); vm_compute; [reflexivity|lia].
Defined.

(** Substituting nothing for one character of a class is a filter. *)
Lemma sub_class_filter (p : char -> bool) (b : bool) (s : str) :
  sub_from [One p] [] b 0 s = filter (fun c => negb (p c)) s.
Proof.
  revert b; induction s as [|c s IH]; intros b; [reflexivity|].
  cbn [sub_from run filter]. destruct (p c); cbn [negb].
  - replace (List.length (c :: s) - List.length s) with 1
      by (cbn [List.length]; lia).
    cbn [expand flat_map app]. apply IH.
  - f_equal. apply IH.
Qed.

(** C8, as stated, fails: the carriage return is a control character, it
    is neither the newline nor the tab, and the stripper spares it. *)
Lemma special_chars_counterexample :
  (13 < 32)%N /\ 13%N <> NL /\ 13%N <> 9%N /\
  remove_special_chars (enable "remove_special_chars" defaults) [13%N] = [13%N].
Proof. repeat split; try discriminate; vm_compute; reflexivity. Qed.

(** C8, amended.  When enabled, the special-character stripper removes the
    characters of its class and no other; among the control characters (the
    code points below 32, and 127) the class spares exactly three: tab,
    newline and carriage return. *)
Theorem special_chars_removed (cfg : config) (content : str) :
  get cfg "remove_special_chars" false = true ->
  remove_special_chars cfg content =
  filter (fun c => negb (special c)) content /\
  (forall c, In c (remove_special_chars cfg content) <->
             In c content /\ special c = false) /\
  (forall c, special c = false <->
             (32 <= c /\ c <> 127) \/ c = 9 \/ c = 10 \/ c = 13)%N.
Proof.
  intros E.
  assert (F : remove_special_chars cfg content =
              filter (fun c => negb (special c)) content).
  { unfold remove_special_chars. rewrite E. apply sub_class_filter. }
  split; [exact F|split].
  - intros c. rewrite F, filter_In, negb_true_iff. tauto.
  - intros c. unfold special.
    repeat match goal with
           | |- context [(?a <=? ?b)%N] => destruct (N.leb_spec a b)
           | |- context [(?a =? ?b)%N] => destruct (N.eqb_spec a b)
           end; cbn [andb orb]; split; intros; try lia; try discriminate;
      reflexivity.
Qed.

Lemma special_chars_removed_witness :
  remove_special_chars (enable "remove_special_chars" defaults) (doc "a$b") =
  filter (fun c => negb (special c)) (doc "a$b").
Proof.
  apply (special_chars_removed (enable "remove_special_chars" defaults) (doc "a$b")).
  reflexivity.
Defined.

(** C9, as stated, fails: a document that ends with exactly one newline
    after a space is changed, since all trailing white space goes. *)
Lemma final_newline_stage_counterexample :
  ends_with_one_newline (doc "a $") /\
  add_final_newline defaults (doc "a $") = doc "a$" /\
  add_final_newline defaults (doc "a $") <> doc "a $".
Proof.
  split; [|split];
    [|vm_compute; reflexivity|intros H; vm_compute in H; discriminate H].
  exists (doc "a "). split; [reflexivity|].
  intros [|x [|y [|z b]]] H; vm_compute in H; discriminate H.
Qed.

(** C9, amended.  The final-newline stage maps every document to one that
    ends with exactly one newline, and it leaves unchanged exactly the
    documents that end with one newline which no white space precedes. *)
Theorem final_newline_stage (cfg : config) (content : str) :
  get cfg "add_final_newline" true = true ->
  ends_with_one_newline (add_final_newline cfg content) /\
  (add_final_newline cfg content = content <->
   exists body, content = body ++ [NL] /\ rstrip body = body).
Proof.
  intros E. unfold add_final_newline. rewrite E. cbn [negb]. split.
  - exists (rstrip content). split; [reflexivity|].
    intros b H. now apply rstrip_last in H.
  - split.
    + intros H. exists (rstrip content). split; [now symmetry|].
      apply rstrip_idem.
    + intros [body [-> H]]. rewrite rstrip_snoc_space by reflexivity.
      now rewrite H.
Qed.

Lemma final_newline_stage_witness :
  ends_with_one_newline (add_final_newline defaults (doc "a$$ $")).
Proof.
  apply (final_newline_stage defaults (doc "a$$ $")). reflexivity.
Defined.

End LineClaims.

(** *** Claims on the processing of one file *)

Section FileClaims.

Variable uni_alnum : char -> bool.
Variable decode : encoding -> bytes -> option str.
Variable encode : str -> bytes.

(** C10.  When the content read from a file is the empty string, be it
    the content of the file or the stand-in for a file that neither
    encoding decodes, [clean_file] returns at once: the files are as they
    were, and the log has the start line, and the read error if there was
    one, but no line of a stage and no line of a write.  So the file is
    not rewritten as a single newline, which is what the final-newline
    stage makes of the empty text. *)
Theorem empty_document_skipped (cfg : config) (w : world) (p : path) (d : bytes) :
  files w p = Some d ->
  decode UTF8 d = Some [] \/
  decode UTF8 d = None /\ (decode GBK d = Some [] \/ decode GBK d = None) ->
  exists w',
    clean_file uni_alnum decode encode cfg w p = Ok w' /\
    files w' = files w /\
    (log w' = log w ++ [Started p] \/
     log w' = log w ++ [Started p; ReadFailed p]) /\
    (get cfg "add_final_newline" true = true ->
     add_final_newline cfg [] = [NL]).
Proof.
  intros Hf Hd. unfold clean_file, read_file. cbn [say files]. rewrite Hf.
  assert (N : get cfg "add_final_newline" true = true ->
              add_final_newline cfg [] = [NL]).
  { intros E. unfold add_final_newline. now rewrite E. }
  destruct Hd as [H|[H [G|G]]]; rewrite H; try rewrite G; cbn [bind];
    eexists; (split; [reflexivity|]); cbn [files log say];
    (split; [reflexivity|]); (split; [|exact N]).
  - now left.
  - now left.
  - right. now rewrite <- app_assoc.
Qed.

End FileClaims.

Lemma empty_document_skipped_witness :
  exists w',
    clean_file (fun _ => false) (fun _ _ => None) (fun _ => [])
               defaults {| files := fun _ => Some []; log := [] |} "a.md"%string = Ok w' /\
    files w' = (fun _ => Some []) /\
    (log w' = [] ++ [Started "a.md"%string] \/
     log w' = [] ++ [Started "a.md"%string; ReadFailed "a.md"%string]) /\
    (get defaults "add_final_newline" true = true ->
     add_final_newline defaults [] = [NL]).
Proof.
  apply (empty_document_skipped (fun _ => false) (fun _ _ => None) (fun _ => [])
           defaults {| files := fun _ => Some []; log := [] |} "a.md"%string []).
  - reflexivity.
  - right. split; [reflexivity|]. right. reflexivity.
Defined.

(** *** The blank-line pattern *)

Section BlankRuns.

Lemma star_one_newline (w t : str) (b : bool) (e : caps) :
  blank w = true -> stops t = true ->
  star space (run [One (only NL)]) b (w ++ t) e = after t e (cut w).
Proof.
  intros Hw Ht. revert b; induction w as [|c w IH]; intros b.
  - destruct t as [|d t]; [reflexivity|].
    cbn in Ht |- *. unfold space. apply negb_true_iff in Ht. rewrite Ht.
    unfold only. destruct (N.eqb_spec d NL) as [->|_]; [discriminate|reflexivity].
  - cbn [blank forallb] in Hw. apply andb_true_iff in Hw. destruct Hw as [Hc Hw].
    cbn [app star cut]. unfold space at 1. rewrite Hc, (IH Hw).
    destruct (cut w); [reflexivity|].
    cbn [run after]. unfold only. now destruct (c =? NL)%N.
Qed.

Lemma star_two_newlines (w t : str) (b : bool) (e : caps) :
  blank w = true -> stops t = true ->
  star space (run [One (only NL); Star space; One (only NL)]) b (w ++ t) e =
  after t e (cut2 w).
Proof.
  intros Hw Ht. revert b; induction w as [|c w IH]; intros b.
  - destruct t as [|d t]; [reflexivity|].
    cbn in Ht |- *. unfold space. apply negb_true_iff in Ht. rewrite Ht.
    unfold only. destruct (N.eqb_spec d NL) as [->|_]; [discriminate|reflexivity].
  - pose proof Hw as Hcw.
    cbn [blank forallb] in Hw. apply andb_true_iff in Hw. destruct Hw as [Hc Hw].
    cbn [app star cut2]. unfold space at 1. rewrite Hc, (IH Hw).
    destruct (cut2 w); [reflexivity|].
    cbn [run after]. unfold only at 1. destruct (c =? NL)%N; [|reflexivity].
    now apply star_one_newline.
Qed.

(** What the pattern matches at a newline that a run [w] of white space
    follows. *)
Lemma run_blank_run (c : char) (w t : str) (b : bool) (e : caps) :
  blank w = true -> stops t = true ->
  run blank_run b (c :: w ++ t) e =
  if (c =? NL)%N then after t e (cut2 w) else None.
Proof.
  intros Hw Ht. unfold blank_run. cbn [run]. unfold only at 1.
  destruct (c =? NL)%N; [|reflexivity].
  now apply star_two_newlines.
Qed.

Lemma sub_from_skip (r : regex) (t : template) (u v : str) (b : bool) :
  sub_from r t b (List.length u) (u ++ v) =
  sub_from r t (b && Nat.eqb (List.length u) 0) 0 v.
Proof.
  revert b; induction u as [|c u IH]; intros b.
  - cbn [List.length app Nat.eqb]. now rewrite andb_true_r.
  - cbn [List.length app sub_from Nat.eqb]. rewrite IH, andb_false_r.
    reflexivity.
Qed.

(** Where the pattern matches a text that is not empty, the template
    stands for the match and the scan goes on after it. *)
Lemma sub_from_match (r : regex) (t : template) (b : bool) (c : char)
  (u rest : str) (e : caps) :
  run r b (c :: u ++ rest) no_caps = Some (rest, e) ->
  sub_from r t b 0 (c :: u ++ rest) = expand t e ++ sub_from r t false 0 rest.
Proof.
  intros H. cbn [sub_from]. rewrite H.
  replace (List.length (c :: u ++ rest) - List.length rest)
    with (S (List.length u))
    by (cbn [List.length]; rewrite length_app; lia).
  now rewrite sub_from_skip.
Qed.

Lemma collapse_flag (b : bool) (s : str) :
  sub_from blank_run [Txt [NL; NL]] b 0 s = collapse s.
Proof. destruct s; reflexivity. Qed.

Lemma collapse_other (c : char) (s : str) :
  (c =? NL)%N = false -> collapse (c :: s) = c :: collapse s.
Proof.
  intros H. unfold collapse, sub. cbn [sub_from].
  replace (run blank_run true (c :: s) no_caps) with (@None (str * caps)).
  - now rewrite collapse_flag.
  - unfold blank_run. cbn [run]. unfold only at 1. now rewrite H.
Qed.

Lemma collapse_no_newline (u t : str) :
  contains NL u = false -> collapse (u ++ t) = u ++ collapse t.
Proof.
  induction u as [|c u IH]; [reflexivity|].
  cbn [contains existsb]. intros H. apply orb_false_iff in H.
  destruct H as [Hc Hu]. cbn [app].
  rewrite collapse_other by (now rewrite N.eqb_sym).
  f_equal. now apply IH.
Qed.

(** The text that [cut] and [cut2] return is the end of [w], after its
    last newline. *)
Lemma cut_suffix (w tail : str) :
  cut w = Some tail ->
  exists pre, w = pre ++ NL :: tail /\ contains NL tail = false.
Proof.
  revert tail; induction w as [|c w IH]; intros tail; cbn [cut]; [discriminate|].
  destruct (cut w) as [x|] eqn:E.
  - intros [= <-]. destruct (IH x eq_refl) as [pre [-> H]].
    now exists (c :: pre).
  - destruct (N.eqb_spec c NL) as [->|_]; [|discriminate].
    intros [= <-]. exists []. split; [reflexivity|].
    clear IH. induction w as [|d w IH]; [reflexivity|].
    cbn [cut] in E. destruct (cut w); [discriminate|].
    cbn [contains existsb]. rewrite N.eqb_sym.
    destruct (d =? NL)%N; [discriminate|]. now apply IH.
Qed.

Lemma cut2_cut (w tail : str) : cut2 w = Some tail -> cut w = Some tail.
Proof.
  revert tail; induction w as [|c w IH]; intros tail; cbn [cut cut2];
    [discriminate|].
  destruct (cut2 w) as [x|] eqn:E.
  - intros [= <-]. now rewrite (IH x eq_refl).
  - destruct (c =? NL)%N; [|discriminate].
    intros H. now rewrite H.
Qed.

Lemma cut2_suffix (w tail : str) :
  cut2 w = Some tail ->
  exists pre, w = pre ++ NL :: tail /\ contains NL tail = false.
Proof. intros H. now apply cut_suffix, cut2_cut. Qed.

Lemma cut2_none_tail (c : char) (w : str) :
  cut2 (c :: w) = None -> cut2 w = None.
Proof. cbn [cut2]. now destruct (cut2 w). Qed.

Lemma blank_cons (c : char) (w : str) :
  blank (c :: w) = true -> isspace c = true /\ blank w = true.
Proof. intros H. now apply andb_true_iff in H. Qed.

Lemma collapse_few (w t : str) :
  blank w = true -> stops t = true -> cut2 w = None ->
  collapse (w ++ t) = w ++ collapse t.
Proof.
  intros Hw Ht. induction w as [|c w IH]; intros Hn; [reflexivity|].
  destruct (blank_cons _ _ Hw) as [Hc Hw'].
  specialize (IH Hw' (cut2_none_tail _ _ Hn)).
  destruct (N.eqb_spec c NL) as [->|Hne].
  - cbn [app]. unfold collapse, sub. cbn [sub_from].
    rewrite run_blank_run by assumption. cbn [N.eqb Pos.eqb NL].
    rewrite (cut2_none_tail _ _ Hn). cbn [after].
    rewrite collapse_flag. now rewrite IH.
  - cbn [app]. rewrite collapse_other by (now apply N.eqb_neq).
    now rewrite IH.
Qed.

Lemma collapse_newline (w t : str) :
  blank w = true -> stops t = true ->
  collapse (NL :: w ++ t) = squeeze (NL :: w) ++ collapse t.
Proof.
  intros Hw Ht. cbn [squeeze N.eqb Pos.eqb NL].
  destruct (cut2 w) as [tail|] eqn:E.
  - destruct (cut2_suffix _ _ E) as [pre [-> Hn]].
    replace ((pre ++ NL :: tail) ++ t) with (pre ++ NL :: tail ++ t) in *
      by (now rewrite <- app_assoc).
    unfold collapse, sub.
    replace (pre ++ NL :: tail ++ t) with ((pre ++ [NL]) ++ tail ++ t)
      by (now rewrite <- app_assoc).
    rewrite (sub_from_match _ _ _ _ _ _ no_caps).
    + cbn [expand flat_map app]. rewrite collapse_flag.
      now rewrite collapse_no_newline.
    + rewrite <- app_assoc. cbn [app].
      change (pre ++ NL :: tail ++ t) with (pre ++ (NL :: tail) ++ t).
      rewrite (app_assoc pre (NL :: tail) t).
      rewrite run_blank_run by assumption. cbn [N.eqb Pos.eqb NL].
      now rewrite E.
  - change (collapse ((NL :: w) ++ t) = (NL :: w) ++ collapse t).
    unfold collapse, sub. cbn [app sub_from].
    rewrite run_blank_run by assumption. cbn [N.eqb Pos.eqb NL].
    rewrite E. cbn [after]. rewrite collapse_flag.
    now rewrite collapse_few.
Qed.

Lemma collapse_run (w t : str) :
  blank w = true -> stops t = true ->
  collapse (w ++ t) = squeeze w ++ collapse t.
Proof.
  intros Hw Ht. induction w as [|c w IH]; [reflexivity|].
  destruct (blank_cons _ _ Hw) as [Hc Hw'].
  destruct (N.eqb_spec c NL) as [->|Hne].
  - now apply collapse_newline.
  - cbn [app squeeze]. apply N.eqb_neq in Hne. rewrite Hne.
    rewrite collapse_other by assumption. now rewrite IH.
Qed.

Lemma collapse_char (d : char) (t : str) :
  isspace d = false -> collapse (d :: t) = d :: collapse t.
Proof.
  intros H. apply collapse_other.
  destruct (N.eqb_spec d NL) as [->|_]; [discriminate|reflexivity].
Qed.

End BlankRuns.

(** *** Runs of white space *)

Section Runs.

Lemma lead_lstrip (s : str) : s = lead s ++ lstrip s.
Proof.
  induction s as [|c s IH]; [reflexivity|]. simpl.
  destruct (isspace c); [|reflexivity]. simpl. now f_equal.
Qed.

Lemma lead_blank (s : str) : blank (lead s) = true.
Proof.
  induction s as [|c s IH]; [reflexivity|]. simpl.
  destruct (isspace c) eqn:E; [|reflexivity]. simpl. now rewrite E.
Qed.

Lemma lstrip_stops (s : str) : stops (lstrip s) = true.
Proof.
  induction s as [|c s IH]; [reflexivity|]. simpl.
  destruct (isspace c) eqn:E; [exact IH|]. simpl. now rewrite E.
Qed.

Lemma lstrip_length (s : str) : List.length (lstrip s) <= List.length s.
Proof.
  induction s as [|c s IH]; simpl; [lia|].
  destruct (isspace c); simpl; lia.
Qed.

(** Every text is a run of white space, followed by nothing or by a
    character that is no white space and a shorter text. *)
Lemma runs_ind (P : str -> Prop) :
  (forall w, blank w = true -> P w) ->
  (forall w d t, blank w = true -> isspace d = false -> P t -> P (w ++ d :: t)) ->
  forall s, P s.
Proof.
  intros Hw Hd s.
  remember (List.length s) as n eqn:En. revert s En.
  induction n as [n IH] using lt_wf_ind. intros s ->.
  rewrite (lead_lstrip s).
  pose proof (lead_blank s) as Hb.
  pose proof (lstrip_stops s) as Hs.
  pose proof (lstrip_length s) as Hl.
  destruct (lstrip s) as [|d t].
  - rewrite app_nil_r. now apply Hw.
  - apply Hd; [assumption|now apply negb_true_iff in Hs|].
    apply (IH (List.length t)); [simpl in Hl; lia|reflexivity].
Qed.

Lemma blank_app (u v : str) :
  blank (u ++ v) = blank u && blank v.
Proof. apply forallb_app. Qed.

Lemma stops_char (d : char) (t : str) :
  isspace d = false -> stops (d :: t) = true.
Proof. intros H. simpl. now rewrite H. Qed.

Lemma collapse_blank (w : str) : blank w = true -> collapse w = squeeze w.
Proof.
  intros H. rewrite <- (app_nil_r w) at 1.
  rewrite collapse_run by easy. apply app_nil_r.
Qed.

Lemma collapse_run_char (w : str) (d : char) (t : str) :
  blank w = true -> isspace d = false ->
  collapse (w ++ d :: t) = squeeze w ++ d :: collapse t.
Proof.
  intros Hw Hd. rewrite collapse_run by (auto using stops_char).
  now rewrite collapse_char.
Qed.

Lemma cut_none (w : str) : contains NL w = false -> cut w = None.
Proof.
  induction w as [|c w IH]; [reflexivity|].
  cbn [contains existsb cut]. intros H. apply orb_false_iff in H.
  destruct H as [Hc Hw]. rewrite (IH Hw). rewrite N.eqb_sym. now rewrite Hc.
Qed.

Lemma cut2_none (w : str) : contains NL w = false -> cut2 w = None.
Proof.
  induction w as [|c w IH]; [reflexivity|].
  cbn [contains existsb cut2]. intros H. apply orb_false_iff in H.
  destruct H as [Hc Hw]. rewrite (IH Hw). rewrite N.eqb_sym. now rewrite Hc.
Qed.

Lemma squeeze_blank (w : str) : blank w = true -> blank (squeeze w) = true.
Proof.
  induction w as [|c w IH]; [reflexivity|]. intros H.
  destruct (blank_cons _ _ H) as [Hc Hw]. cbn [squeeze].
  destruct (c =? NL)%N.
  - destruct (cut2 w) as [tail|] eqn:E; [|exact H].
    destruct (cut2_suffix _ _ E) as [pre [-> _]].
    rewrite blank_app in Hw. apply andb_true_iff in Hw.
    destruct Hw as [_ Hw]. exact Hw.
  - cbn [blank forallb]. fold (blank (squeeze w)). now rewrite Hc, IH.
Qed.

Lemma squeeze_idem (w : str) : squeeze (squeeze w) = squeeze w.
Proof.
  induction w as [|c w IH]; [reflexivity|]. cbn [squeeze].
  destruct (c =? NL)%N eqn:Ec.
  - destruct (cut2 w) as [tail|] eqn:E.
    + destruct (cut2_suffix _ _ E) as [_ [_ Hn]].
      cbn [squeeze N.eqb Pos.eqb NL cut2].
      now rewrite (cut2_none _ Hn), (cut_none _ Hn).
    + cbn [squeeze]. now rewrite Ec, E.
  - cbn [squeeze]. now rewrite Ec, IH.
Qed.

(** The second [re.sub] of [remove_empty_lines] changes nothing. *)
Lemma collapse_idem (s : str) : collapse (collapse s) = collapse s.
Proof.
  induction s as [w Hw|w d t Hw Hd IH] using runs_ind.
  - rewrite (collapse_blank w Hw).
    rewrite collapse_blank by (now apply squeeze_blank).
    apply squeeze_idem.
  - rewrite collapse_run_char by assumption.
    rewrite collapse_run_char by (auto using squeeze_blank).
    now rewrite squeeze_idem, IH.
Qed.

Lemma lstrip_blank_app (w t : str) :
  blank w = true -> lstrip (w ++ t) = lstrip t.
Proof.
  induction w as [|c w IH]; [reflexivity|]. intros H.
  destruct (blank_cons _ _ H) as [Hc Hw]. simpl. rewrite Hc. now apply IH.
Qed.

Lemma lstrip_char (d : char) (t : str) :
  isspace d = false -> lstrip (d :: t) = d :: t.
Proof. intros H. simpl. now rewrite H. Qed.

Lemma lstrip_blank (w : str) : blank w = true -> lstrip w = [].
Proof.
  intros H. rewrite <- (app_nil_r w). now rewrite lstrip_blank_app.
Qed.

Lemma lstrip_collapse (s : str) : lstrip (collapse s) = collapse (lstrip s).
Proof.
  induction s as [w Hw|w d t Hw Hd _] using runs_ind.
  - rewrite (collapse_blank w Hw), (lstrip_blank w Hw).
    now rewrite lstrip_blank by (now apply squeeze_blank).
  - rewrite collapse_run_char by assumption.
    rewrite !lstrip_blank_app by (auto using squeeze_blank).
    rewrite !lstrip_char by assumption.
    now rewrite collapse_char.
Qed.

(** The substitution works on each side of a character that is no white
    space as it does on the whole. *)
Lemma collapse_before_char (y : str) (c : char) :
  isspace c = false ->
  exists Y, forall z, collapse (y ++ c :: z) = Y ++ c :: collapse z.
Proof.
  intros Hc. induction y as [w Hw|w d t Hw Hd [Y IH]] using runs_ind.
  - exists (squeeze w). intros z. now apply collapse_run_char.
  - exists (squeeze w ++ d :: Y). intros z.
    rewrite <- app_assoc. cbn [app].
    rewrite collapse_run_char by assumption.
    rewrite IH, <- app_assoc. reflexivity.
Qed.

End Runs.

(** *** Trimming and the blank-line pattern *)

Section TrimRuns.

Lemma rstrip_blank (w : str) : blank w = true -> rstrip w = [].
Proof.
  induction w as [|c w IH]; [reflexivity|]. intros H.
  destruct (blank_cons _ _ H) as [Hc Hw].
  now rewrite rstrip_cons, (IH Hw), Hc.
Qed.

Lemma rstrip_app_blank (x w : str) :
  blank w = true -> rstrip (x ++ w) = rstrip x.
Proof.
  intros H. induction x as [|a x IH]; cbn [app].
  - now apply rstrip_blank.
  - now rewrite !rstrip_cons, IH.
Qed.

Lemma rstrip_keep (x : str) (c : char) :
  isspace c = false -> rstrip (x ++ [c]) = x ++ [c].
Proof.
  intros H. induction x as [|a x IH]; cbn [app].
  - simpl. now rewrite H.
  - rewrite rstrip_cons, IH. now destruct x.
Qed.

(** [rstrip] removes a run of white space from the end. *)
Lemma rstrip_tail (s : str) : exists w, s = rstrip s ++ w /\ blank w = true.
Proof.
  induction s as [|a s [w [E Hw]]].
  - now exists [].
  - rewrite rstrip_cons. destruct (rstrip s) as [|b r] eqn:Er.
    + destruct (isspace a) eqn:Ha.
      * exists (a :: s). split; [reflexivity|].
        cbn [blank forallb]. rewrite Ha. simpl in E. now rewrite E.
      * exists s. split; [reflexivity|]. simpl in E. now rewrite E.
    + exists w. split; [|exact Hw]. cbn [app] in E |- *. now f_equal.
Qed.

Lemma rstrip_cases (s : str) :
  rstrip s = [] \/
  exists y c, rstrip s = y ++ [c] /\ isspace c = false.
Proof.
  destruct (rstrip s) as [|b r] eqn:E; [now left|right].
  destruct (@exists_last _ (b :: r)) as [y [c Ey]]; [discriminate|].
  exists y, c. split; [exact Ey|].
  apply (rstrip_last s y c). now rewrite E.
Qed.

Lemma rstrip_collapse (s : str) : rstrip (collapse s) = collapse (rstrip s).
Proof.
  destruct (rstrip_tail s) as [w [E Hw]].
  destruct (rstrip_cases s) as [H|[y [c [H Hc]]]]; rewrite H in E |- *.
  - cbn [app] in E. subst s. rewrite (collapse_blank w Hw).
    now rewrite rstrip_blank by (now apply squeeze_blank).
  - destruct (collapse_before_char y c Hc) as [Y HY].
    rewrite E at 1. rewrite <- app_assoc. cbn [app].
    rewrite !HY, (collapse_blank w Hw).
    change (Y ++ c :: squeeze w) with (Y ++ [c] ++ squeeze w).
    rewrite app_assoc, rstrip_app_blank by (now apply squeeze_blank).
    now apply rstrip_keep.
Qed.

Lemma lstrip_idem (s : str) : lstrip (lstrip s) = lstrip s.
Proof.
  induction s as [|c s IH]; [reflexivity|]. simpl.
  destruct (isspace c) eqn:E; [exact IH|]. simpl. now rewrite E.
Qed.

Lemma lstrip_rstrip (s : str) : lstrip (rstrip s) = rstrip (lstrip s).
Proof.
  induction s as [|c s IH]; [reflexivity|].
  rewrite rstrip_cons. cbn [lstrip].
  destruct (isspace c) eqn:E.
  - rewrite <- IH. destruct (rstrip s); [reflexivity|].
    cbn [lstrip]. now rewrite E.
  - rewrite rstrip_cons. destruct (rstrip s); cbn [lstrip]; now rewrite E.
Qed.

Lemma strip_idem (s : str) : strip (strip s) = strip s.
Proof.
  unfold strip.
  now rewrite <- (lstrip_rstrip (rstrip s)), lstrip_idem, rstrip_idem.
Qed.

Lemma rstrip_strip (s : str) : rstrip (strip s) = strip s.
Proof. unfold strip. now rewrite <- (lstrip_rstrip (rstrip s)), rstrip_idem. Qed.

Lemma strip_app_blank (s w : str) :
  blank w = true -> strip (s ++ w) = strip s.
Proof. intros H. unfold strip. now rewrite rstrip_app_blank. Qed.

Lemma strip_collapse (s : str) : strip (collapse s) = collapse (strip s).
Proof. unfold strip. now rewrite rstrip_collapse, lstrip_collapse. Qed.

(** What the blank-line stage makes of a document. *)
Lemma remove_empty_lines_on (cfg : config) (content : str) :
  get cfg "remove_empty_lines" true = true ->
  remove_empty_lines cfg content = collapse (strip content) ++ [NL].
Proof.
  intros E. unfold remove_empty_lines. rewrite E. cbn [negb].
  fold (collapse content). fold (collapse (collapse content)).
  now rewrite collapse_idem, strip_collapse.
Qed.

End TrimRuns.

(** *** Claim on the blank-line stage *)

Section BlankClaims.

Lemma rstrip_char (d : char) (v : str) :
  isspace d = false -> exists Y, rstrip (d :: v) = d :: Y.
Proof.
  intros H. rewrite rstrip_cons. rewrite H.
  destruct (rstrip v) as [|b r]; [now exists []|now exists (b :: r)].
Qed.

Lemma rstrip_app_char (x : str) (d : char) (v : str) :
  isspace d = false -> rstrip (x ++ d :: v) = x ++ rstrip (d :: v).
Proof.
  intros H. destruct (rstrip_char d v H) as [Y E].
  induction x as [|a x IH]; [reflexivity|].
  cbn [app]. rewrite rstrip_cons, IH, E. now destruct x.
Qed.

Lemma lstrip_app_char (u : str) (c : char) (rest : str) :
  isspace c = false -> lstrip (u ++ c :: rest) = lstrip (u ++ [c]) ++ rest.
Proof.
  intros H. induction u as [|a u IH]; cbn [app lstrip].
  - now rewrite H.
  - destruct (isspace a); [exact IH|].
    cbn [app]. now rewrite <- app_assoc.
Qed.

Lemma lstrip_snoc_char (u : str) (c : char) :
  isspace c = false -> exists y, lstrip (u ++ [c]) = y ++ [c].
Proof.
  intros H. induction u as [|a u IH]; cbn [app lstrip].
  - rewrite H. now exists [].
  - destruct (isspace a); [exact IH|]. now exists (a :: u).
Qed.

Lemma cut_newlines (n : nat) : cut (times NL (S n)) = Some [].
Proof.
  induction n as [|n IH]; [reflexivity|].
  change (times NL (S (S n))) with (NL :: times NL (S n)).
  cbn [cut]. now rewrite IH.
Qed.

Lemma cut2_newlines (n : nat) : cut2 (times NL (S (S n))) = Some [].
Proof.
  induction n as [|n IH]; [reflexivity|].
  change (times NL (S (S (S n)))) with (NL :: times NL (S (S n))).
  cbn [cut2]. now rewrite IH.
Qed.

Lemma blank_newlines (n : nat) : blank (times NL n) = true.
Proof. induction n as [|n IH]; [reflexivity|]. simpl. exact IH. Qed.

(** Three newlines or more in a row, that is two empty lines or more,
    become two newlines. *)
Lemma squeeze_newlines (k : nat) :
  2 <= k -> squeeze (times NL (S k)) = [NL; NL].
Proof.
  intros H. destruct k as [|[|k]]; try lia.
  change (times NL (S (S (S k)))) with (NL :: times NL (S (S k))).
  cbn [squeeze N.eqb Pos.eqb NL]. now rewrite cut2_newlines.
Qed.

Lemma count_cons (c a : char) (s : str) :
  count c (a :: s) = (if (c =? a)%N then 1 else 0) + count c s.
Proof. unfold count. simpl. now destruct (c =? a)%N. Qed.

Lemma cut_count (w tail : str) : cut w = Some tail -> 1 <= count NL w.
Proof.
  revert tail; induction w as [|c w IH]; intros tail; cbn [cut];
    [discriminate|].
  rewrite count_cons. destruct (cut w) as [x|].
  - intros _. specialize (IH x eq_refl). lia.
  - rewrite (N.eqb_sym NL c). destruct (c =? NL)%N; [lia|discriminate].
Qed.

Lemma cut2_count (w tail : str) : cut2 w = Some tail -> 2 <= count NL w.
Proof.
  revert tail; induction w as [|c w IH]; intros tail; cbn [cut2];
    [discriminate|].
  rewrite count_cons. destruct (cut2 w) as [x|].
  - intros _. specialize (IH x eq_refl). lia.
  - rewrite (N.eqb_sym NL c). destruct (c =? NL)%N; [|discriminate].
    intros H. apply cut_count in H. lia.
Qed.

Lemma squeeze_few (w : str) : count NL w <= 2 -> squeeze w = w.
Proof.
  induction w as [|c w IH]; [reflexivity|].
  rewrite count_cons, (N.eqb_sym NL c). cbn [squeeze].
  destruct (c =? NL)%N.
  - destruct (cut2 w) as [tail|] eqn:E; [|reflexivity].
    apply cut2_count in E. lia.
  - intros H. now rewrite IH by lia.
Qed.

Lemma collapse_calm (s : str) : no_blank_run s -> collapse s = s.
Proof.
  induction s as [w Hw|w d t Hw Hd IH] using runs_ind; intros H.
  - rewrite (collapse_blank w Hw). apply squeeze_few.
    apply (H [] w []); [now rewrite app_nil_r|exact Hw].
  - rewrite collapse_run_char by assumption.
    rewrite squeeze_few by (now apply (H [] w (d :: t))).
    rewrite IH; [reflexivity|].
    intros x u y E. apply (H (w ++ d :: x) u y).
    rewrite E, <- app_assoc. reflexivity.
Qed.

Lemma calm_single (c : char) : isspace c = false -> no_blank_run [c].
Proof.
  intros Hc x w y Hx Hw. destruct w as [|a w]; [cbn; lia|]. exfalso.
  destruct x as [|x0 x]; cbn in Hx.
  - injection Hx as Ha _. subst a. cbn in Hw. now rewrite Hc in Hw.
  - injection Hx as _ Hx. destruct x; discriminate Hx.
Qed.

(** C6, as stated, fails: a document without any blank line is changed
    when it lacks the final newline or starts with white space, and blank
    lines at the two ends of the document are removed, not reduced to
    one. *)
Lemma blank_lines_counterexample :
  no_blank_run (doc "a") /\
  remove_empty_lines defaults (doc "a") = doc "a$" /\
  remove_empty_lines defaults (doc "a") <> doc "a" /\
  remove_empty_lines defaults (doc " a$") = doc "a$" /\
  remove_empty_lines defaults (doc "$$$$a$$$$") = doc "a$".
Proof.
  split; [|repeat split; try (vm_compute; reflexivity)].
  - intros x w y Hx Hw. destruct w as [|a w]; [cbn; lia|]. exfalso.
    destruct x as [|x0 x]; cbn in Hx.
    + injection Hx as Ha _. subst a. discriminate Hw.
    + injection Hx as _ Hx. destruct x; discriminate Hx.
  - intros H. vm_compute in H. discriminate H.
Qed.

Lemma count_app (c : char) (u v : str) :
  count c (u ++ v) = count c u + count c v.
Proof. unfold count. now rewrite filter_app, length_app. Qed.

Lemma count_absent (c : char) (s : str) :
  contains c s = false -> count c s = 0.
Proof.
  induction s as [|a s IH]; [reflexivity|].
  rewrite contains_cons, count_cons. intros H. apply orb_false_iff in H.
  destruct H as [Ha Hs]. now rewrite Ha, IH.
Qed.

Lemma cut_last (mid post : str) :
  contains NL post = false -> cut (mid ++ NL :: post) = Some post.
Proof.
  intros H. induction mid as [|c mid IH]; cbn [app cut].
  - now rewrite (cut_none _ H).
  - now rewrite IH.
Qed.

Lemma cut2_last (mid post : str) :
  1 <= count NL mid -> contains NL post = false ->
  cut2 (mid ++ NL :: post) = Some post.
Proof.
  intros Hm H. induction mid as [|c mid IH]; [cbn in Hm; lia|].
  cbn [app cut2]. rewrite count_cons, (N.eqb_sym NL c) in Hm.
  destruct (cut2 (mid ++ NL :: post)) as [x|] eqn:E.
  - destruct (cut2_suffix _ _ E) as [pre [Ep Hx]].
    assert (L : cut (mid ++ NL :: post) = Some post) by now apply cut_last.
    rewrite Ep in L. rewrite (cut_last pre x Hx) in L. exact L.
  - destruct (c =? NL)%N eqn:Ec; [now apply cut_last|].
    apply IH. exact Hm.
Qed.

(** A run with three newlines or more keeps what it has before its first
    newline and after its last one, with two newlines in between. *)
Lemma squeeze_many (pre mid post : str) :
  contains NL pre = false -> 1 <= count NL mid -> contains NL post = false ->
  squeeze (pre ++ [NL] ++ mid ++ [NL] ++ post) = pre ++ [NL; NL] ++ post.
Proof.
  intros Hp Hm Hq. induction pre as [|c pre IH].
  - cbn [app squeeze N.eqb Pos.eqb NL]. now rewrite cut2_last.
  - rewrite contains_cons in Hp. apply orb_false_iff in Hp.
    destruct Hp as [Hc Hp]. cbn [app squeeze].
    rewrite N.eqb_sym, Hc. f_equal. now apply IH.
Qed.

(** C6, amended.  The stage removes the white space at the two ends of the
    document and appends one newline, whatever the document.  Between two
    characters that are no white space, a run of white space with three
    newlines or more, that is two or more lines that are empty or hold
    white space only, keeps what it has before its first newline and after
    its last one, with exactly one empty line in between; a run with two
    newlines at most stays as it is; the text on either side is treated
    on its own.  A document in which no two blank lines follow each other,
    which neither starts nor ends with white space but for one final
    newline, is left unchanged. *)
Theorem blank_lines_collapse (cfg : config) :
  get cfg "remove_empty_lines" true = true ->
  (forall content,
      (exists body,
          remove_empty_lines cfg content = body ++ [NL] /\
          strip body = body) /\
      forall w1 w2,
        blank w1 = true -> blank w2 = true ->
        remove_empty_lines cfg (w1 ++ content ++ w2) =
        remove_empty_lines cfg content) /\
  (forall u c w d v,
      isspace c = false -> isspace d = false -> blank w = true ->
      exists X Y,
        remove_empty_lines cfg (u ++ [c]) = X ++ [c; NL] /\
        remove_empty_lines cfg (d :: v) = d :: Y ++ [NL] /\
        (count NL w <= 2 ->
         remove_empty_lines cfg (u ++ [c] ++ w ++ [d] ++ v) =
         X ++ [c] ++ w ++ [d] ++ Y ++ [NL]) /\
        (forall pre mid post,
            w = pre ++ [NL] ++ mid ++ [NL] ++ post ->
            contains NL pre = false -> 1 <= count NL mid ->
            contains NL post = false ->
            remove_empty_lines cfg (u ++ [c] ++ w ++ [d] ++ v) =
            X ++ [c] ++ pre ++ [NL; NL] ++ post ++ [d] ++ Y ++ [NL])) /\
  (forall body,
      no_blank_run body -> strip body = body ->
      remove_empty_lines cfg (body ++ [NL]) = body ++ [NL]).
Proof.
  intros E. split; [|split].
  - intros content. split.
    + exists (collapse (strip content)).
      split; [now apply remove_empty_lines_on|].
      now rewrite strip_collapse, strip_idem.
    + intros w1 w2 H1 H2. rewrite !remove_empty_lines_on by exact E.
      do 2 f_equal. rewrite app_assoc, strip_app_blank by exact H2.
      unfold strip. rewrite lstrip_rstrip, lstrip_blank_app by exact H1.
      now rewrite <- lstrip_rstrip.
  - intros u c w d v Hc Hd Hw.
    destruct (lstrip_snoc_char u c Hc) as [y Ey].
    destruct (rstrip_char d v Hd) as [Y0 EY].
    destruct (collapse_before_char y c Hc) as [X HX].
    assert (G : forall w', blank w' = true ->
                remove_empty_lines cfg (u ++ [c] ++ w' ++ [d] ++ v) =
                X ++ [c] ++ squeeze w' ++ [d] ++ collapse Y0 ++ [NL]).
    { intros w' Hw'. rewrite remove_empty_lines_on by exact E. unfold strip.
      replace (u ++ [c] ++ w' ++ [d] ++ v)
        with ((u ++ [c] ++ w') ++ d :: v)
        by (now rewrite <- !app_assoc).
      rewrite rstrip_app_char by exact Hd. rewrite EY.
      rewrite <- !app_assoc. cbn [app].
      rewrite lstrip_app_char by exact Hc. rewrite Ey.
      rewrite <- app_assoc. cbn [app]. rewrite HX.
      rewrite collapse_run_char by assumption.
      now reassoc. }
    exists X, (collapse Y0). split; [|split; [|split]].
    + rewrite remove_empty_lines_on by exact E. unfold strip.
      rewrite rstrip_keep by exact Hc. rewrite Ey.
      change (y ++ [c]) with (y ++ c :: []). rewrite HX.
      now rewrite <- app_assoc.
    + rewrite remove_empty_lines_on by exact E. unfold strip.
      rewrite EY, lstrip_char by exact Hd.
      now rewrite collapse_char by exact Hd.
    + intros Hk. rewrite G by exact Hw. now rewrite squeeze_few by exact Hk.
    + intros pre mid post -> Hp Hm Hq. rewrite G by exact Hw.
      rewrite squeeze_many by assumption. now rewrite <- !app_assoc.
  - intros body Hn Hs.
    rewrite remove_empty_lines_on by exact E.
    rewrite strip_app_blank by reflexivity.
    now rewrite Hs, collapse_calm.
Qed.

Lemma blank_lines_collapse_witness :
  remove_empty_lines defaults (doc " a$") = doc "a$" /\
  remove_empty_lines defaults (doc "a $ $  $$  b") = doc "a $$  b$" /\
  remove_empty_lines defaults (doc "a$ $b") = doc "a$ $b$".
Proof.
  assert (E : get defaults "remove_empty_lines" true = true) by reflexivity.
  destruct (blank_lines_collapse defaults E) as [H1 [H2 H3]].
  assert (K : forall w,
             blank w = true ->
             exists X Y : str,
               X = [] /\ Y = [] /\
               (count NL w <= 2 ->
                remove_empty_lines defaults ([] ++ [ch "a"] ++ w ++ [ch "b"] ++ []) =
                X ++ [ch "a"] ++ w ++ [ch "b"] ++ Y ++ [NL]) /\
               (forall pre mid post,
                   w = pre ++ [NL] ++ mid ++ [NL] ++ post ->
                   contains NL pre = false -> 1 <= count NL mid ->
                   contains NL post = false ->
                   remove_empty_lines defaults
                     ([] ++ [ch "a"] ++ w ++ [ch "b"] ++ []) =
                   X ++ [ch "a"] ++ pre ++ [NL; NL] ++ post ++ [ch "b"] ++ Y ++ [NL])).
  { intros w Hw.
    destruct (H2 [] (ch "a") w (ch "b") [] eq_refl eq_refl Hw)
      as [X [Y [EX [EY H]]]].
    exists X, Y. split; [|split; [|exact H]].
    - apply (app_inv_tail [ch "a"; NL]). symmetry. exact EX.
    - assert (EY' : [ch "b"; NL] = ch "b" :: Y ++ [NL]) by exact EY.
      injection EY' as EY'. apply (app_inv_tail [NL]). symmetry. exact EY'. }
  split; [|split].
  - destruct (H1 (doc "a")) as [_ H].
    rewrite (H (doc " ") (doc "$") eq_refl eq_refl
             : remove_empty_lines defaults (doc " a$") = _).
    rewrite <- (H [] [NL] eq_refl eq_refl).
    apply (H3 (doc "a")); [apply calm_single|]; reflexivity.
  - destruct (K (doc " $ $  $$  ") eq_refl) as [X [Y [-> [-> [_ H]]]]].
    apply (H (doc " ") (doc " $  $") (doc "  ")); try reflexivity.
    vm_compute. lia.
  - destruct (K (doc "$ $") eq_refl) as [X [Y [-> [-> [H _]]]]].
    apply H. vm_compute. lia.
Defined.

End BlankClaims.

(** *** Characters that the stages keep *)

Section Kept.

Variable P : char -> bool.
Hypothesis P_newline : P NL = true.

Lemma all_lstrip (s : str) : forallb P s = true -> forallb P (lstrip s) = true.
Proof.
  induction s as [|c s IH]; [auto|]. intros H. cbn [lstrip].
  destruct (isspace c); [|exact H].
  apply IH. cbn in H. now apply andb_true_iff in H.
Qed.

Lemma all_rstrip (s : str) : forallb P s = true -> forallb P (rstrip s) = true.
Proof.
  induction s as [|c s IH]; [auto|]. intros H.
  cbn in H. apply andb_true_iff in H. destruct H as [Hc Hs].
  specialize (IH Hs). rewrite rstrip_cons.
  destruct (rstrip s) as [|b r].
  - destruct (isspace c); cbn; [reflexivity|now rewrite Hc].
  - change (forallb P (c :: b :: r)) with (P c && forallb P (b :: r)).
    now rewrite Hc, IH.
Qed.

Lemma all_split (s : str) :
  forallb P s = true -> forallb (forallb P) (split NL s) = true.
Proof.
  induction s as [|c s IH]; [reflexivity|]. intros H.
  cbn in H. apply andb_true_iff in H. destruct H as [Hc Hs].
  specialize (IH Hs). cbn [split].
  destruct (c =? NL)%N; [exact IH|].
  destruct (split NL s) as [|x xs]; cbn in IH |- *.
  - now rewrite Hc.
  - now rewrite Hc.
Qed.

Lemma all_join (l : list str) :
  forallb (forallb P) l = true -> forallb P (join [NL] l) = true.
Proof.
  induction l as [|x l IH]; [reflexivity|]. intros H.
  cbn in H. apply andb_true_iff in H. destruct H as [Hx Hl].
  specialize (IH Hl). cbn [join]. destruct l as [|y l]; [exact Hx|].
  rewrite !forallb_app. cbn [forallb]. now rewrite Hx, P_newline, IH.
Qed.

Lemma all_map_rstrip (l : list str) :
  forallb (forallb P) l = true -> forallb (forallb P) (map rstrip l) = true.
Proof.
  induction l as [|x l IH]; [reflexivity|]. intros H.
  cbn in H. apply andb_true_iff in H. destruct H as [Hx Hl].
  cbn. now rewrite all_rstrip, IH.
Qed.

(** A substitution of a constant text yields characters of the subject
    and of that text. *)
Lemma all_sub_from (r : regex) (t : str) (b : bool) (k : nat) (s : str) :
  forallb P t = true -> forallb P s = true ->
  forallb P (sub_from r [Txt t] b k s) = true.
Proof.
  intros Ht. revert b k; induction s as [|c s IH]; intros b k H.
  - cbn [sub_from]. destruct k; [|reflexivity].
    destruct (run r b [] no_caps) as [[rest e]|]; [|reflexivity].
    cbn. now rewrite app_nil_r.
  - cbn in H. apply andb_true_iff in H. destruct H as [Hc Hs].
    cbn [sub_from]. destruct k as [|k]; [|now apply IH].
    destruct (run r b (c :: s) no_caps) as [[rest e]|].
    + cbn [expand flat_map]. rewrite app_nil_r.
      destruct (List.length (c :: s) - List.length rest);
        rewrite forallb_app, Ht; cbn [andb forallb];
        [rewrite Hc|]; now rewrite IH.
    + cbn. now rewrite Hc, IH.
Qed.

Lemma all_collapse (s : str) :
  forallb P s = true -> forallb P (collapse s) = true.
Proof.
  intros H. apply all_sub_from; [|exact H].
  cbn. now rewrite P_newline.
Qed.

Lemma all_snoc_newline (s : str) :
  forallb P s = true -> forallb P (s ++ [NL]) = true.
Proof. intros H. rewrite forallb_app, H. cbn. now rewrite P_newline. Qed.

End Kept.

(** *** Lines without trailing white space *)

Section Lines.

Lemma join_cons (x : str) (l : list str) :
  l <> [] -> join [NL] (x :: l) = x ++ NL :: join [NL] l.
Proof. destruct l; [congruence|reflexivity]. Qed.

Lemma join_split (s : str) : join [NL] (split NL s) = s.
Proof.
  induction s as [|c s IH]; [reflexivity|]. cbn [split].
  destruct (N.eqb_spec c NL) as [->|Hc].
  - rewrite join_cons by apply split_not_nil. now rewrite IH.
  - destruct (split NL s) as [|x xs] eqn:E; [now apply split_not_nil in E|].
    rewrite <- IH. destruct xs; reflexivity.
Qed.

Lemma trimmed_cons (c : char) (s : str) :
  trimmed (c :: s) = true ->
  (isspace c = false \/ c = NL \/ ok_next s = true) /\ trimmed s = true.
Proof.
  cbn [trimmed]. intros H. apply andb_true_iff in H. destruct H as [H Hs].
  split; [|exact Hs].
  apply orb_true_iff in H. destruct H as [H|H]; [|now right; right].
  apply orb_true_iff in H. destruct H as [H|H].
  - left. now apply negb_true_iff.
  - right. left. now apply N.eqb_eq.
Qed.

(** The first line of a text is empty when the text has no character on
    its first line. *)
Lemma split_head_nil (s : str) (xs : list str) :
  split NL s = [] :: xs -> ok_next s = false.
Proof.
  destruct s as [|d s]; [reflexivity|]. cbn [split ok_next].
  destruct (d =? NL)%N; [reflexivity|].
  destruct (split NL s); discriminate.
Qed.

Lemma trimmed_lines (s : str) :
  trimmed s = true -> map rstrip (split NL s) = split NL s.
Proof.
  induction s as [|c s IH]; [reflexivity|]. intros H.
  destruct (trimmed_cons _ _ H) as [Hc Hs]. specialize (IH Hs).
  cbn [split]. destruct (N.eqb_spec c NL) as [->|Hn].
  - cbn [map]. now rewrite IH.
  - destruct (split NL s) as [|x xs] eqn:E; [now apply split_not_nil in E|].
    cbn [map] in IH |- *. injection IH as Hx Hxs.
    rewrite Hxs, rstrip_cons, Hx. f_equal.
    destruct x as [|a x]; [|reflexivity].
    apply split_head_nil in E.
    destruct Hc as [Hc|[Hc|Hc]]; [now rewrite Hc|contradiction|congruence].
Qed.

(** A text whose lines have no trailing white space is left as it is. *)
Lemma trimmed_fixed (s : str) :
  trimmed s = true -> join [NL] (map rstrip (split NL s)) = s.
Proof. intros H. rewrite trimmed_lines by exact H. apply join_split. Qed.

Lemma split_lines (s : str) :
  forallb (fun l => negb (contains NL l)) (split NL s) = true.
Proof.
  induction s as [|c s IH]; [reflexivity|]. cbn [split].
  destruct (c =? NL)%N eqn:Ec; [exact IH|].
  destruct (split NL s) as [|x xs]; cbn [forallb] in IH |- *.
  - now rewrite contains_cons, N.eqb_sym, Ec.
  - now rewrite contains_cons, N.eqb_sym, Ec.
Qed.

(** A line without trailing white space, followed by the end of the text
    or by a newline. *)
Lemma trimmed_line_app (l r : str) :
  contains NL l = false -> rstrip l = l ->
  trimmed r = true -> ok_next r = false ->
  trimmed (l ++ r) = true.
Proof.
  intros Hn Hl Hr Ho. induction l as [|c l IH]; [exact Hr|].
  cbn [contains existsb] in Hn. apply orb_false_iff in Hn.
  destruct Hn as [Hc Hn].
  rewrite rstrip_cons in Hl. cbn [app trimmed].
  destruct l as [|d l].
  - cbn [rstrip] in Hl. destruct (isspace c); [discriminate|].
    cbn [negb orb andb app]. exact Hr.
  - assert (Hd : rstrip (d :: l) = d :: l).
    { destruct (rstrip (d :: l)); [destruct (isspace c); discriminate|].
      congruence. }
    rewrite (IH Hn Hd), andb_true_r.
    cbn [app ok_next]. cbn [contains existsb] in Hn.
    apply orb_false_iff in Hn. destruct Hn as [Hd' _].
    rewrite N.eqb_sym in Hd'. rewrite Hd'. cbn. apply orb_true_r.
Qed.

Lemma trimmed_join (l : list str) :
  forallb (fun x => negb (contains NL x)) l = true ->
  map rstrip l = l ->
  trimmed (join [NL] l) = true.
Proof.
  induction l as [|x l IH]; [reflexivity|]. intros Hn Hl.
  cbn in Hn. apply andb_true_iff in Hn. destruct Hn as [Hx Hn].
  apply negb_true_iff in Hx.
  cbn [map] in Hl. injection Hl as Hrx Hrl.
  destruct l as [|y l].
  - cbn [join]. rewrite <- (app_nil_r x). now apply trimmed_line_app.
  - rewrite join_cons by discriminate.
    apply trimmed_line_app; try assumption; [|reflexivity].
    cbn [trimmed]. rewrite N.eqb_refl, orb_true_r. cbn [andb].
    now apply IH.
Qed.

Lemma contains_map_rstrip (l : list str) :
  forallb (fun x => negb (contains NL x)) l = true ->
  forallb (fun x => negb (contains NL x)) (map rstrip l) = true.
Proof.
  induction l as [|x l IH]; [reflexivity|]. intros H.
  cbn in H. apply andb_true_iff in H. destruct H as [Hx Hl].
  cbn. rewrite (IH Hl), andb_true_r.
  apply negb_true_iff. apply contains_rstrip. now apply negb_true_iff.
Qed.

(** The text that [remove_trailing_whitespace] returns has no white space
    at the end of a line. *)
Lemma trimmed_made (s : str) :
  trimmed (join [NL] (map rstrip (split NL s))) = true.
Proof.
  apply trimmed_join.
  - apply contains_map_rstrip, split_lines.
  - rewrite map_map. apply map_ext. intros l. apply rstrip_idem.
Qed.

End Lines.

(** *** The stages keep lines trimmed *)

Section TrimmedKept.

Lemma trimmed_tail (u r : str) : trimmed (u ++ r) = true -> trimmed r = true.
Proof.
  induction u as [|c u IH]; [auto|]. cbn [app]. intros H.
  apply IH. now apply trimmed_cons in H.
Qed.

Lemma trimmed_lstrip (s : str) : trimmed s = true -> trimmed (lstrip s) = true.
Proof.
  intros H. rewrite (lead_lstrip s) in H. now apply trimmed_tail in H.
Qed.

Lemma ok_next_rstrip (s : str) :
  rstrip s <> [] -> ok_next s = true -> ok_next (rstrip s) = true.
Proof.
  destruct s as [|d s]; [auto|]. rewrite rstrip_cons. intros Hn H.
  destruct (rstrip s); [|exact H].
  destruct (isspace d); [congruence|exact H].
Qed.

Lemma trimmed_char (c : char) (s : str) :
  isspace c = false \/ c = NL \/ ok_next s = true ->
  trimmed s = true -> trimmed (c :: s) = true.
Proof.
  intros H Hs. cbn [trimmed]. rewrite Hs, andb_true_r.
  destruct H as [H|[H|H]].
  - now rewrite H.
  - subst c. apply orb_true_iff. left. apply orb_true_r.
  - rewrite H. apply orb_true_r.
Qed.

Lemma trimmed_rstrip (s : str) : trimmed s = true -> trimmed (rstrip s) = true.
Proof.
  induction s as [|c s IH]; [auto|]. intros H.
  destruct (trimmed_cons _ _ H) as [Hc Hs]. specialize (IH Hs).
  rewrite rstrip_cons. destruct (rstrip s) as [|b r] eqn:E.
  - destruct (isspace c) eqn:Ec; [reflexivity|].
    apply trimmed_char; [now left|reflexivity].
  - rewrite <- E in IH |- *. apply trimmed_char; [|exact IH].
    destruct Hc as [Hc|[Hc|Hc]]; [now left|now right; left|].
    right; right. apply ok_next_rstrip; [congruence|exact Hc].
Qed.

Lemma ok_next_app (u r r' : str) :
  (ok_next r = true -> ok_next r' = true) ->
  ok_next (u ++ r) = true -> ok_next (u ++ r') = true.
Proof. destruct u; auto. Qed.

(** What follows a text may change, if a line goes on where it went on. *)
Lemma trimmed_swap (u r r' : str) :
  trimmed (u ++ r) = true -> trimmed r' = true ->
  (ok_next r = true -> ok_next r' = true) ->
  trimmed (u ++ r') = true.
Proof.
  intros H Hr' Ho. induction u as [|c u IH]; [exact Hr'|].
  cbn [app] in H |- *. destruct (trimmed_cons _ _ H) as [Hc Hs].
  apply trimmed_char; [|now apply IH].
  destruct Hc as [Hc|[Hc|Hc]]; [now left|now right; left|].
  right; right. now apply (ok_next_app u r r').
Qed.

Lemma trimmed_snoc_newline (s : str) :
  trimmed s = true -> trimmed (s ++ [NL]) = true.
Proof.
  intros H. apply (trimmed_swap s [] [NL]);
    [now rewrite app_nil_r|reflexivity|discriminate].
Qed.

Lemma ok_next_squeeze (w r r' : str) :
  (ok_next r = true -> ok_next r' = true) ->
  ok_next (w ++ r) = true -> ok_next (squeeze w ++ r') = true.
Proof.
  intros Ho. destruct w as [|e w]; [exact Ho|].
  cbn [app ok_next squeeze]. intros H. apply negb_true_iff in H.
  rewrite H. cbn [app ok_next]. now rewrite H.
Qed.

Lemma trimmed_squeeze (w r r' : str) :
  trimmed (w ++ r) = true -> trimmed r' = true ->
  (ok_next r = true -> ok_next r' = true) ->
  trimmed (squeeze w ++ r') = true.
Proof.
  intros H Hr' Ho. induction w as [|c w IH]; [exact Hr'|].
  cbn [squeeze]. destruct (N.eqb_spec c NL) as [->|Hn].
  - destruct (cut2 w) as [tail|] eqn:E;
      [|now apply (trimmed_swap (NL :: w) r r')].
    destruct (cut2_suffix _ _ E) as [pre [-> _]].
    cbn [app]. apply trimmed_char; [now right; left|].
    apply trimmed_char; [now right; left|].
    apply (trimmed_swap tail r r'); [|exact Hr'|exact Ho].
    apply (trimmed_tail (NL :: pre ++ [NL])).
    rewrite <- H. cbn [app]. now rewrite <- !app_assoc.
  - cbn [app] in H |- *. destruct (trimmed_cons _ _ H) as [Hc Hs].
    apply trimmed_char; [|now apply IH].
    destruct Hc as [Hc|[Hc|Hc]]; [now left|contradiction|].
    right; right. now apply (ok_next_squeeze w r r').
Qed.

Lemma trimmed_collapse (s : str) :
  trimmed s = true -> trimmed (collapse s) = true.
Proof.
  induction s as [w Hw|w d t Hw Hd IH] using runs_ind; intros H.
  - rewrite (collapse_blank w Hw), <- (app_nil_r (squeeze w)).
    apply (trimmed_squeeze w [] []); [now rewrite app_nil_r|reflexivity|auto].
  - rewrite collapse_run_char by assumption.
    pose proof (trimmed_tail _ _ H) as Hdt.
    destruct (trimmed_cons _ _ Hdt) as [_ Ht].
    apply (trimmed_squeeze w (d :: t) (d :: collapse t)); [exact H| |auto].
    apply trimmed_char; [now left|now apply IH].
Qed.

End TrimmedKept.

(** *** The stages on white space, run on their own result *)

Section Idempotence.

Variable cfg : config.

Lemma special_on (x : str) :
  get cfg "remove_special_chars" false = true ->
  remove_special_chars cfg x = filter (fun c => negb (special c)) x.
Proof.
  intros E. unfold remove_special_chars. rewrite E. apply sub_class_filter.
Qed.

Lemma special_out (x : str) :
  get cfg "remove_special_chars" false = true ->
  plain (remove_special_chars cfg x) = true.
Proof. intros E. rewrite special_on by exact E. apply forallb_filter. Qed.

Lemma special_id (y : str) :
  (get cfg "remove_special_chars" false = true -> plain y = true) ->
  remove_special_chars cfg y = y.
Proof.
  intros H. destruct (get cfg "remove_special_chars" false) eqn:E.
  - rewrite special_on by exact E. now apply forallb_filter_id, H.
  - unfold remove_special_chars. now rewrite E.
Qed.

Lemma trailing_out (x : str) :
  get cfg "remove_trailing_whitespace" true = true ->
  trimmed (remove_trailing_whitespace cfg x) = true.
Proof.
  intros E. unfold remove_trailing_whitespace. rewrite E. apply trimmed_made.
Qed.

Lemma trailing_id (y : str) :
  (get cfg "remove_trailing_whitespace" true = true -> trimmed y = true) ->
  remove_trailing_whitespace cfg y = y.
Proof.
  intros H. unfold remove_trailing_whitespace.
  destruct (get cfg "remove_trailing_whitespace" true); [|reflexivity].
  now apply trimmed_fixed, H.
Qed.

Lemma trailing_plain (x : str) :
  plain x = true -> plain (remove_trailing_whitespace cfg x) = true.
Proof.
  intros H. unfold remove_trailing_whitespace.
  destruct (negb _); [exact H|].
  apply all_join; [reflexivity|]. now apply all_map_rstrip, all_split.
Qed.

Lemma empty_out (x : str) :
  get cfg "remove_empty_lines" true = true ->
  settled (remove_empty_lines cfg x).
Proof.
  intros E. rewrite remove_empty_lines_on by exact E. unfold settled.
  rewrite strip_app_blank by reflexivity.
  now rewrite strip_collapse, strip_idem, collapse_idem.
Qed.

Lemma empty_id (y : str) :
  (get cfg "remove_empty_lines" true = true -> settled y) ->
  remove_empty_lines cfg y = y.
Proof.
  intros H. destruct (get cfg "remove_empty_lines" true) eqn:E.
  - rewrite remove_empty_lines_on by exact E. now apply H.
  - unfold remove_empty_lines. now rewrite E.
Qed.

Lemma empty_plain (x : str) :
  plain x = true -> plain (remove_empty_lines cfg x) = true.
Proof.
  intros H. destruct (get cfg "remove_empty_lines" true) eqn:E.
  - rewrite remove_empty_lines_on by exact E.
    apply all_snoc_newline; [reflexivity|].
    apply all_collapse; [reflexivity|].
    now apply all_lstrip, all_rstrip.
  - unfold remove_empty_lines. now rewrite E.
Qed.

Lemma empty_trimmed (x : str) :
  trimmed x = true -> trimmed (remove_empty_lines cfg x) = true.
Proof.
  intros H. destruct (get cfg "remove_empty_lines" true) eqn:E.
  - rewrite remove_empty_lines_on by exact E.
    now apply trimmed_snoc_newline, trimmed_collapse, trimmed_lstrip,
      trimmed_rstrip.
  - unfold remove_empty_lines. now rewrite E.
Qed.

Lemma settled_closed_off (y : str) : settled y -> closed_off y.
Proof.
  unfold settled, closed_off. intros H. rewrite <- H at 1.
  rewrite rstrip_app_blank by reflexivity.
  now rewrite <- strip_collapse, rstrip_strip, strip_collapse.
Qed.

Lemma final_out (x : str) :
  get cfg "add_final_newline" true = true ->
  closed_off (add_final_newline cfg x).
Proof.
  intros E. unfold add_final_newline, closed_off. rewrite E. cbn [negb].
  rewrite rstrip_app_blank by reflexivity. now rewrite rstrip_idem.
Qed.

Lemma final_id (y : str) :
  (get cfg "add_final_newline" true = true -> closed_off y) ->
  add_final_newline cfg y = y.
Proof.
  intros H. unfold add_final_newline.
  destruct (get cfg "add_final_newline" true); [|reflexivity].
  now apply H.
Qed.

Lemma final_plain (x : str) :
  plain x = true -> plain (add_final_newline cfg x) = true.
Proof.
  intros H. unfold add_final_newline. destruct (negb _); [exact H|].
  apply all_snoc_newline; [reflexivity|]. now apply all_rstrip.
Qed.

Lemma final_trimmed (x : str) :
  trimmed x = true -> trimmed (add_final_newline cfg x) = true.
Proof.
  intros H. unfold add_final_newline. destruct (negb _); [exact H|].
  now apply trimmed_snoc_newline, trimmed_rstrip.
Qed.

Lemma final_settled (x : str) :
  settled x -> settled (add_final_newline cfg x).
Proof.
  intros H. rewrite final_id; [exact H|].
  intros _. now apply settled_closed_off.
Qed.

Lemma tidy_idem (x : str) : tidy cfg (tidy cfg x) = tidy cfg x.
Proof.
  unfold tidy at 1.
  rewrite (special_id (tidy cfg x)).
  2:{ intros E. unfold tidy.
      now apply final_plain, empty_plain, trailing_plain, special_out. }
  rewrite (trailing_id (tidy cfg x)).
  2:{ intros E. unfold tidy.
      now apply final_trimmed, empty_trimmed, trailing_out. }
  rewrite (empty_id (tidy cfg x)).
  2:{ intros E. unfold tidy. now apply final_settled, empty_out. }
  apply final_id. intros E. unfold tidy. now apply final_out.
Qed.

End Idempotence.

(** *** Files: backups, writes and what stays as it was *)

Section FileProperties.

Variable uni_alnum : char -> bool.
Variable decode : encoding -> bytes -> option str.
Variable encode : str -> bytes.

Lemma string_length_append (a b : string) :
  String.length (a ++ b) = String.length a + String.length b.
Proof. induction a as [|c a IH]; simpl; [reflexivity|now rewrite IH]. Qed.

(** The path of the backup is another path than that of the file. *)
Lemma backup_path_fresh (p : path) : String.eqb (p ++ ".bak") p = false.
Proof.
  apply String.eqb_neq. intros H.
  apply (f_equal String.length) in H.
  rewrite string_length_append in H. simpl in H. lia.
Qed.

Lemma put_same (fs : path -> option bytes) (p : path) (d : option bytes) :
  put fs p d p = d.
Proof. unfold put. now rewrite String.eqb_refl. Qed.

Lemma put_other (fs : path -> option bytes) (p q : path) (d : option bytes) :
  q <> p -> put fs p d q = fs q.
Proof. intros H. unfold put. apply String.eqb_neq in H. now rewrite H. Qed.

(** What [write_file] does: when the copy fails nothing is written and
    the error is logged; otherwise the file gets the content; in both
    cases a backup that exists and every other path are left alone. *)
Lemma write_file_effect (cfg : config) (w : world) (p : path) (content : str) :
  let w' := write_file encode cfg w p content in
  let backup := (p ++ ".bak")%string in
  (get cfg "backup" true = true -> files w backup = None ->
   files w p = None ->
   files w' = files w /\ log w' = log w ++ [WriteFailed p]) /\
  (get cfg "backup" true = false \/ files w backup <> None \/
   files w p <> None ->
   files w' p = Some (encode content) /\
   log w' = log w ++ [Cleaned p] /\
   (get cfg "backup" true = true -> files w backup = None ->
    files w' backup = files w p) /\
   (get cfg "backup" true = false -> files w' backup = files w backup)) /\
  (forall b, files w backup = Some b -> files w' backup = Some b) /\
  (forall q, q <> p -> q <> backup -> files w' q = files w q).
Proof.
  cbv zeta. unfold write_file, copy2.
  assert (Hb : (p ++ ".bak")%string <> p)
    by (apply String.eqb_neq, backup_path_fresh).
  destruct (get cfg "backup" true) eqn:B;
    [destruct (files w (p ++ ".bak")%string) as [b0|] eqn:K;
     [|destruct (files w p) as [d|] eqn:F]|];
    cbn [bind files log say];
    repeat match goal with
           | |- _ /\ _ => split
           | |- _ -> _ => intro
           | H : _ \/ _ |- _ => destruct H
           end;
    try discriminate; try congruence; try reflexivity;
    rewrite ?put_same;
    repeat (rewrite put_other by (assumption || exact Hb));
    rewrite ?put_same; congruence.
Qed.


Lemma str_eqb_refl (a : str) : str_eqb a a = true.
Proof. unfold str_eqb. now destruct (list_eq_dec N.eq_dec a a). Qed.

Lemma str_eqb_neq (a b : str) : a <> b -> str_eqb a b = false.
Proof. intros H. unfold str_eqb. now destruct (list_eq_dec N.eq_dec a b). Qed.

(** What [read_file] returns for a file of content [d]. *)
Lemma read_file_reads (w : world) (p : path) (d : bytes) (content : str) :
  files w p = Some d ->
  reads decode d content ->
  read_file decode w p = Ok (content, w).
Proof.
  intros Hf [H|[H G]]; unfold read_file; rewrite Hf, H; [reflexivity|].
  now rewrite G.
Qed.

(** X2.  Change detection: when the stages leave the text that was read
    as it is, [clean_file] writes nothing and makes no backup; the files
    are as they were and the log says that the file needs no change. *)
Theorem clean_file_unchanged (cfg : config) (w : world) (p : path) (d : bytes)
  (content : str) :
  files w p = Some d ->
  reads decode d content ->
  content <> [] ->
  clean_content uni_alnum cfg content = Ok content ->
  exists w',
    clean_file uni_alnum decode encode cfg w p = Ok w' /\
    files w' = files w /\
    log w' = log w ++ [Started p] ++ stage_log cfg ++ [Unchanged p].
Proof.
  intros Hf Hr Hn Hc. unfold clean_file.
  rewrite (read_file_reads _ p d content) by (cbn [say files]; assumption).
  cbn [bind]. destruct content as [|c content]; [contradiction|].
  rewrite Hc. cbn [bind]. rewrite str_eqb_refl. cbn [negb].
  eexists. split; [reflexivity|]. unfold stage_log.
  destruct (get cfg "remove_image_links" true); cbn [say files log];
    (split; [reflexivity|]); now rewrite <- !app_assoc.
Qed.

(** X3.  A modifying run: when the stages change the text that was read,
    the file holds the encoded new text afterwards, the backup made by
    this run holds the bytes that the file held before, and the log ends
    with the line of a successful write. *)
Theorem clean_file_modified (cfg : config) (w : world) (p : path) (d : bytes)
  (content cleaned : str) :
  files w p = Some d ->
  reads decode d content ->
  content <> [] ->
  clean_content uni_alnum cfg content = Ok cleaned ->
  cleaned <> content ->
  exists w',
    clean_file uni_alnum decode encode cfg w p = Ok w' /\
    files w' p = Some (encode cleaned) /\
    (get cfg "backup" true = true -> files w (p ++ ".bak")%string = None ->
     files w' (p ++ ".bak")%string = Some d) /\
    log w' = log w ++ [Started p] ++ stage_log cfg ++ [Cleaned p].
Proof.
  intros Hf Hr Hn Hc Hd. unfold clean_file.
  rewrite (read_file_reads _ p d content) by (cbn [say files]; assumption).
  cbn [bind]. destruct content as [|c content]; [contradiction|].
  rewrite Hc. cbn [bind]. rewrite (str_eqb_neq _ _ Hd). cbn [negb].
  eexists. split; [reflexivity|].
  match goal with
  | |- context [write_file encode cfg ?v p cleaned] =>
      pose proof (write_file_effect cfg v p cleaned) as W; cbv zeta in W;
      assert (Fv : files v = files w)
        by (destruct (get cfg "remove_image_links" true); reflexivity);
      assert (Lv : log v = log w ++ [Started p] ++ stage_log cfg)
        by (unfold stage_log;
            destruct (get cfg "remove_image_links" true); cbn [say log];
            now rewrite <- ?app_assoc)
  end.
  destruct W as [_ [W [_ _]]]. rewrite Fv in W.
  destruct W as [W1 [W2 [W3 _]]]; [right; right; now rewrite Hf|].
  split; [exact W1|]. split.
  - intros E H. rewrite (W3 E H). exact Hf.
  - rewrite W2, Lv. now rewrite <- !app_assoc.
Qed.

(** X4.  Whatever [clean_file] does to a file, it touches no other path
    than the file and its backup, and it never changes a backup that
    exists: a second run keeps the backup of the first. *)
Theorem clean_file_frame (cfg : config) (w w' : world) (p : path) :
  clean_file uni_alnum decode encode cfg w p = Ok w' ->
  (forall q, q <> p -> q <> (p ++ ".bak")%string -> files w' q = files w q) /\
  (forall b, files w (p ++ ".bak")%string = Some b ->
             files w' (p ++ ".bak")%string = Some b).
Proof.
  unfold clean_file, read_file. cbn [say files].
  destruct (files w p) as [d|]; [|discriminate].
  assert (K : forall v content,
             files v = files w ->
             match content with
             | [] => Ok v
             | _ :: _ =>
                 let v0 :=
                   if get cfg "remove_image_links" true
                   then say v ImagesRemoved else v in
                 c' <- clean_content uni_alnum cfg content ;;
                 if negb (str_eqb c' content)
                 then Ok (write_file encode cfg v0 p c')
                 else Ok (say v0 (Unchanged p))
             end = Ok w' ->
             (forall q, q <> p -> q <> (p ++ ".bak")%string ->
                        files w' q = files w q) /\
             (forall b, files w (p ++ ".bak")%string = Some b ->
                        files w' (p ++ ".bak")%string = Some b)).
  { intros v content Fv. destruct content as [|c content].
    - intros [= <-]. rewrite Fv. now split.
    - cbv zeta. rewrite clean_content_ok. cbn [bind].
      set (v0 := if get cfg "remove_image_links" true
                 then say v ImagesRemoved else v).
      assert (F0 : files v0 = files w)
        by (subst v0; destruct (get cfg "remove_image_links" true);
            cbn [say files]; exact Fv).
      destruct (negb _); intros [= <-].
      + pose proof (write_file_effect cfg v0 p
                      (pipeline_text uni_alnum cfg (c :: content))) as W.
        cbv zeta in W. rewrite F0 in W.
        destruct W as [_ [_ [W2 W5]]]. now split.
      + cbn [say files]. rewrite F0. now split. }
  destruct (decode UTF8 d) as [content|].
  - cbn [bind]. now apply K.
  - destruct (decode GBK d) as [content|]; cbn [bind].
    + now apply K.
    + intros [= <-]. cbn [say files]. now split.
Qed.

End FileProperties.


Lemma clean_file_unchanged_witness :
  exists w',
    clean_file (fun _ => false) (fun _ _ => Some (doc "a$")) (fun _ => [])
      defaults {| files := fun _ => Some []; log := [] |} "a.md"%string = Ok w' /\
    files w' = (fun _ => Some []) /\
    log w' = [] ++ [Started "a.md"%string] ++ stage_log defaults ++
             [Unchanged "a.md"%string].
Proof.
  apply (clean_file_unchanged (fun _ => false) (fun _ _ => Some (doc "a$"))
           (fun _ => []) defaults {| files := fun _ => Some []; log := [] |}
           "a.md"%string [] (doc "a$")).
  - reflexivity.
  - left. reflexivity.
  - discriminate.
  - vm_compute. reflexivity.
Defined.

Lemma clean_file_modified_witness :
  exists w',
    clean_file (fun _ => false) (fun _ _ => Some (doc "a")) (fun _ => [])
      defaults
      {| files := fun q => if String.eqb q "a.md" then Some [] else None;
         log := [] |} "a.md"%string = Ok w' /\
    files w' "a.md"%string = Some [] /\
    (get defaults "backup" true = true ->
     (if String.eqb "a.md.bak" "a.md" then Some [] else None) = @None bytes ->
     files w' "a.md.bak"%string = Some []) /\
    log w' = [] ++ [Started "a.md"%string] ++ stage_log defaults ++
             [Cleaned "a.md"%string].
Proof.
  apply (clean_file_modified (fun _ => false) (fun _ _ => Some (doc "a"))
           (fun _ => []) defaults
           {| files := fun q => if String.eqb q "a.md" then Some [] else None;
              log := [] |} "a.md"%string [] (doc "a") (doc "a$")).
  - reflexivity.
  - left. reflexivity.
  - discriminate.
  - vm_compute. reflexivity.
  - discriminate.
Defined.

Lemma clean_file_frame_witness :
  exists w',
    clean_file (fun _ => false) (fun _ _ => Some (doc "a")) (fun _ => [])
      defaults {| files := fun _ => Some []; log := [] |} "a.md"%string = Ok w' /\
    files w' "b.md"%string = Some [] /\
    files w' "a.md.bak"%string = Some [].
Proof.
  eexists. split; [reflexivity|].
  match goal with
  | |- files ?v _ = _ /\ _ =>
      destruct (clean_file_frame (fun _ => false) (fun _ _ => Some (doc "a"))
                  (fun _ => []) defaults
                  {| files := fun _ => Some []; log := [] |} v "a.md"%string
                  eq_refl) as [H1 H2]
  end.
  split.
  - apply (H1 "b.md"%string); discriminate.
  - apply (H2 []). reflexivity.
Defined.

(** *** The stages on white space, one by one *)

Section WhitespaceStages.

Lemma split_single (l : str) : contains NL l = false -> split NL l = [l].
Proof.
  induction l as [|c l IH]; [reflexivity|].
  rewrite contains_cons. intros H. apply orb_false_iff in H.
  destruct H as [Hc Hl]. cbn [split]. rewrite N.eqb_sym, Hc.
  now rewrite (IH Hl).
Qed.

Lemma split_line (l r : str) :
  contains NL l = false -> split NL (l ++ NL :: r) = l :: split NL r.
Proof.
  induction l as [|c l IH]; [intros _; apply split_cons_sep|].
  rewrite contains_cons. intros H. apply orb_false_iff in H.
  destruct H as [Hc Hl]. cbn [app split]. rewrite N.eqb_sym, Hc.
  now rewrite (IH Hl).
Qed.

(** Joining lines and splitting again gives the lines back. *)
Lemma split_join (ls : list str) :
  ls <> [] ->
  forallb (fun l => negb (contains NL l)) ls = true ->
  split NL (join [NL] ls) = ls.
Proof.
  induction ls as [|l ls IH]; [congruence|]. intros _ H.
  cbn [forallb] in H. apply andb_true_iff in H. destruct H as [Hl Hls].
  apply negb_true_iff in Hl.
  destruct ls as [|l2 ls].
  - cbn [join]. now apply split_single.
  - rewrite join_cons by discriminate. rewrite split_line by exact Hl.
    f_equal. apply IH; [discriminate|exact Hls].
Qed.

(** X5.  [remove_trailing_whitespace] works line by line: the lines of its
    result are the lines of the document, in their order and number, each
    without its trailing white space; no line of the result ends with
    white space. *)
Theorem trailing_whitespace_linewise (cfg : config) (content : str) :
  get cfg "remove_trailing_whitespace" true = true ->
  split NL (remove_trailing_whitespace cfg content) =
  map rstrip (split NL content) /\
  Forall (fun l => rstrip l = l)
         (split NL (remove_trailing_whitespace cfg content)).
Proof.
  intros E.
  assert (S : split NL (remove_trailing_whitespace cfg content) =
              map rstrip (split NL content)).
  { unfold remove_trailing_whitespace. rewrite E. cbn [negb].
    apply split_join.
    - pose proof (split_not_nil NL content) as H.
      destruct (split NL content); [congruence|discriminate].
    - apply contains_map_rstrip, split_lines. }
  split; [exact S|]. rewrite S. apply Forall_forall. intros l H.
  apply in_map_iff in H. destruct H as [x [<- _]]. apply rstrip_idem.
Qed.

Lemma trailing_whitespace_linewise_witness :
  split NL (remove_trailing_whitespace defaults (doc "a  $ $b ")) =
  map rstrip (split NL (doc "a  $ $b ")).
Proof.
  apply (trailing_whitespace_linewise defaults (doc "a  $ $b ")). reflexivity.
Defined.

(** X6.  Each of the four stages on white space and control characters,
    taken alone and whether it is on or off, changes nothing when it is
    applied to its own result. *)
Theorem stages_idempotent (cfg : config) (content : str) :
  remove_special_chars cfg (remove_special_chars cfg content) =
  remove_special_chars cfg content /\
  remove_trailing_whitespace cfg (remove_trailing_whitespace cfg content) =
  remove_trailing_whitespace cfg content /\
  remove_empty_lines cfg (remove_empty_lines cfg content) =
  remove_empty_lines cfg content /\
  add_final_newline cfg (add_final_newline cfg content) =
  add_final_newline cfg content.
Proof.
  split; [|split; [|split]].
  - apply special_id. intros E. now apply special_out.
  - apply trailing_id. intros E. now apply trailing_out.
  - apply empty_id. intros E. now apply empty_out.
  - apply final_id. intros E. now apply final_out.
Qed.

(** X7.  After the blank-line stage the final-newline stage has nothing to
    do: the result of [remove_empty_lines] already ends as
    [add_final_newline] wants it. *)
Theorem final_newline_after_blank_lines (cfg : config) (content : str) :
  get cfg "remove_empty_lines" true = true ->
  add_final_newline cfg (remove_empty_lines cfg content) =
  remove_empty_lines cfg content.
Proof.
  intros E. apply final_id. intros _.
  now apply settled_closed_off, empty_out.
Qed.

Lemma final_newline_after_blank_lines_witness :
  add_final_newline defaults (remove_empty_lines defaults (doc " a $$$$b $$")) =
  remove_empty_lines defaults (doc " a $$$$b $$").
Proof.
  apply (final_newline_after_blank_lines defaults (doc " a $$$$b $$")).
  reflexivity.
Defined.

(** X8.  The result of the blank-line stage ends with exactly one newline
    and does not start with white space: it is a single newline, when the
    document is white space only, or it starts with the first character of
    the document that is no white space. *)
Theorem blank_lines_shape (cfg : config) (content : str) :
  get cfg "remove_empty_lines" true = true ->
  ends_with_one_newline (remove_empty_lines cfg content) /\
  (strip content = [] -> remove_empty_lines cfg content = [NL]) /\
  (forall c rest,
      strip content = c :: rest ->
      isspace c = false /\
      exists rest', remove_empty_lines cfg content = c :: rest').
Proof.
  intros E. rewrite remove_empty_lines_on by exact E. split; [|split].
  - exists (collapse (strip content)). split; [reflexivity|].
    intros b H. rewrite <- strip_collapse in H.
    rewrite <- rstrip_strip in H. now apply rstrip_last in H.
  - intros H. now rewrite H.
  - intros c rest H.
    assert (Hc : isspace c = false).
    { pose proof (lstrip_stops (rstrip content)) as S.
      fold (strip content) in S. rewrite H in S.
      now apply negb_true_iff in S. }
    split; [exact Hc|]. rewrite H, collapse_char by exact Hc.
    now exists (collapse rest ++ [NL]).
Qed.

Lemma blank_lines_shape_witness :
  ends_with_one_newline (remove_empty_lines defaults (doc "  a$$$")).
Proof.
  apply (blank_lines_shape defaults (doc "  a$$$")). reflexivity.
Defined.

End WhitespaceStages.

(** *** No run of blank lines is left *)

Section NoBlankRun.

Lemma squeeze_length (w : str) : List.length (squeeze w) <= List.length w.
Proof.
  induction w as [|c w IH]; [reflexivity|]. cbn [squeeze].
  destruct (c =? NL)%N; [|cbn [List.length]; lia].
  destruct (cut2 w) as [tail|] eqn:E; [|reflexivity].
  destruct (cut2_suffix _ _ E) as [pre [-> _]].
  cbn [List.length]. rewrite length_app. cbn [List.length]. lia.
Qed.

Lemma collapse_length (s : str) : List.length (collapse s) <= List.length s.
Proof.
  induction s as [w Hw|w d t Hw Hd IH] using runs_ind.
  - rewrite (collapse_blank w Hw). apply squeeze_length.
  - rewrite collapse_run_char by assumption.
    pose proof (squeeze_length w).
    rewrite !length_app. cbn [List.length]. lia.
Qed.

Lemma app_same_length {A} (a a' b b' : list A) :
  List.length a = List.length a' -> a ++ b = a' ++ b' -> a = a' /\ b = b'.
Proof.
  revert a'; induction a as [|x a IH]; intros [|y a'] L E; cbn in *;
    try discriminate; [now split|].
  injection E as -> E. destruct (IH a' ltac:(lia) E) as [-> ->]. now split.
Qed.

(** A text that the substitution leaves as it is has its runs and the
    text after them left as they are. *)
Lemma collapse_fixed_run (w : str) (d : char) (t : str) :
  blank w = true -> isspace d = false ->
  collapse (w ++ d :: t) = w ++ d :: t ->
  squeeze w = w /\ collapse t = t.
Proof.
  intros Hw Hd H. rewrite collapse_run_char in H by assumption.
  pose proof (squeeze_length w) as L1.
  pose proof (collapse_length t) as L2.
  assert (L : List.length (squeeze w) = List.length w).
  { apply (f_equal (@List.length char)) in H.
    rewrite !length_app in H. cbn [List.length] in H. lia. }
  destruct (app_same_length _ _ _ _ L H) as [Hs Ht].
  split; [exact Hs|]. now injection Ht.
Qed.

Lemma cut_none_count (w : str) : cut w = None -> count NL w = 0.
Proof.
  induction w as [|c w IH]; [reflexivity|]. cbn [cut].
  rewrite count_cons, (N.eqb_sym NL c).
  destruct (cut w); [discriminate|].
  destruct (c =? NL)%N; [discriminate|]. intros _. now rewrite IH.
Qed.

Lemma cut2_none_count (w : str) : cut2 w = None -> count NL w <= 1.
Proof.
  induction w as [|c w IH]; [cbn; lia|]. cbn [cut2].
  rewrite count_cons, (N.eqb_sym NL c).
  destruct (cut2 w); [discriminate|].
  destruct (c =? NL)%N.
  - intros H. apply cut_none_count in H. lia.
  - intros _. specialize (IH eq_refl). lia.
Qed.

Lemma squeeze_fixed_count (w : str) : squeeze w = w -> count NL w <= 2.
Proof.
  induction w as [|c w IH]; [cbn; lia|]. cbn [squeeze].
  rewrite count_cons, (N.eqb_sym NL c).
  destruct (N.eqb_spec c NL) as [->|Hn].
  - destruct (cut2 w) as [tail|] eqn:E.
    + intros H. injection H as H. exfalso.
      destruct (cut2_suffix _ _ E) as [_ [_ Hc]].
      rewrite <- H in E. cbn [cut2 N.eqb Pos.eqb NL] in E.
      now rewrite (cut2_none _ Hc), (cut_none _ Hc) in E.
    + intros _. apply cut2_none_count in E. lia.
  - intros H. injection H as H. specialize (IH H). lia.
Qed.

Lemma count_inside (x w y : str) : count NL w <= count NL (x ++ w ++ y).
Proof. rewrite !count_app. lia. Qed.

(** The converse of [collapse_calm]. *)
Lemma calm_collapse (s : str) : collapse s = s -> no_blank_run s.
Proof.
  induction s as [w0 Hw|w0 d t Hw Hd IH] using runs_ind; intros H.
  - rewrite (collapse_blank w0 Hw) in H. apply squeeze_fixed_count in H.
    intros x w y -> _. pose proof (count_inside x w y). lia.
  - destruct (collapse_fixed_run w0 d t Hw Hd H) as [Hs Ht].
    apply squeeze_fixed_count in Hs. specialize (IH Ht).
    intros x w y E Hb. symmetry in E.
    apply app_eq_app in E. destruct E as [l [[Ex El]|[Ex El]]].
    + destruct l as [|e l]; cbn [app] in El.
      * destruct w as [|a w]; [cbn; lia|].
        cbn [app] in El. injection El as -> _.
        destruct (blank_cons _ _ Hb) as [Hd' _]. congruence.
      * injection El as _ El. now apply (IH l w y).
    + symmetry in El. apply app_eq_app in El.
      destruct El as [m [[Ew Em]|[Ew Em]]].
      * subst l w0. pose proof (count_inside x w m). lia.
      * destruct m as [|e m]; cbn [app] in Em.
        -- rewrite app_nil_r in Ew. subst w w0.
           pose proof (count_inside x l []) as Hi.
           rewrite app_nil_r in Hi. lia.
        -- injection Em as -> _. subst w.
           rewrite blank_app in Hb. apply andb_true_iff in Hb.
           destruct Hb as [_ Hb]. destruct (blank_cons _ _ Hb). congruence.
Qed.

Lemma collapse_snoc_newline (z : str) :
  rstrip z = z -> collapse z = z -> collapse (z ++ [NL]) = z ++ [NL].
Proof.
  intros Hr Hc. destruct (rstrip_cases z) as [H|[y [c [H Hs]]]];
    rewrite Hr in H; subst z; [reflexivity|].
  destruct (collapse_before_char y c Hs) as [Y HY].
  rewrite <- app_assoc. cbn [app]. rewrite HY.
  change (y ++ [c]) with (y ++ c :: []) in Hc. rewrite HY in Hc.
  change (collapse [NL]) with [NL]. change (collapse []) with (@nil char) in Hc.
  apply (f_equal (fun s => s ++ [NL])) in Hc.
  rewrite <- !app_assoc in Hc. exact Hc.
Qed.

(** X9.  In the result of the blank-line stage no run of white space holds
    more than two newlines: no two blank lines follow each other, anywhere
    in the document. *)
Theorem blank_lines_no_run (cfg : config) (content : str) :
  get cfg "remove_empty_lines" true = true ->
  no_blank_run (remove_empty_lines cfg content).
Proof.
  intros E. rewrite remove_empty_lines_on by exact E.
  apply calm_collapse, collapse_snoc_newline.
  - now rewrite <- strip_collapse, rstrip_strip.
  - apply collapse_idem.
Qed.

Lemma blank_lines_no_run_witness :
  no_blank_run (remove_empty_lines defaults (doc "a$$$$$b")).
Proof. apply (blank_lines_no_run defaults (doc "a$$$$$b")). reflexivity. Defined.

End NoBlankRun.

(** *** What every cleaned document looks like *)

Section PipelineShape.

Variable uni_alnum : char -> bool.

Lemma map_fixed_Forall {A} (f : A -> A) (l : list A) :
  map f l = l -> Forall (fun x => f x = x) l.
Proof.
  induction l as [|x l IH]; [constructor|].
  cbn [map]. intros [= Hx Hl]. constructor; auto.
Qed.

Lemma final_newline_ends (cfg : config) (x : str) :
  get cfg "add_final_newline" true = true ->
  ends_with_one_newline (add_final_newline cfg x).
Proof.
  intros E. unfold add_final_newline. rewrite E. cbn [negb].
  exists (rstrip x). split; [reflexivity|].
  intros b H. now apply rstrip_last in H.
Qed.

Lemma empty_lines_ends (cfg : config) (x : str) :
  get cfg "remove_empty_lines" true = true ->
  ends_with_one_newline (remove_empty_lines cfg x).
Proof.
  intros E. rewrite remove_empty_lines_on by exact E.
  exists (collapse (strip x)). split; [reflexivity|].
  intros b H. rewrite <- strip_collapse in H.
  rewrite <- rstrip_strip in H. now apply rstrip_last in H.
Qed.

Lemma empty_lines_calm (cfg : config) (x : str) :
  get cfg "remove_empty_lines" true = true ->
  no_blank_run (remove_empty_lines cfg x).
Proof.
  intros E. rewrite remove_empty_lines_on by exact E.
  apply calm_collapse, collapse_snoc_newline; [|apply collapse_idem].
  now rewrite <- strip_collapse, rstrip_strip.
Qed.

Lemma empty_lines_start (cfg : config) (x : str) :
  get cfg "remove_empty_lines" true = true ->
  remove_empty_lines cfg x = [NL] \/
  exists c rest, remove_empty_lines cfg x = c :: rest /\ isspace c = false.
Proof.
  intros E. rewrite remove_empty_lines_on by exact E.
  pose proof (lstrip_stops (rstrip x)) as S. fold (strip x) in S.
  destruct (strip x) as [|c rest]; [now left|right].
  apply negb_true_iff in S. rewrite collapse_char by exact S.
  now exists c, (collapse rest ++ [NL]).
Qed.

(** The pipeline ends with the blank-line stage when that stage is on. *)
Lemma pipeline_ends_settled (cfg : config) (content : str) :
  get cfg "remove_empty_lines" true = true ->
  exists y, pipeline_text uni_alnum cfg content = remove_empty_lines cfg y.
Proof.
  intros E. unfold pipeline_text. eexists.
  apply final_id. intros _. now apply settled_closed_off, empty_out.
Qed.

(** X10.  Whatever the other switches, when the final-newline stage or
    the blank-line stage is on the cleaned document ends with exactly one
    newline. *)
Theorem pipeline_ends_with_newline (cfg : config) (content : str) :
  get cfg "add_final_newline" true = true \/
  get cfg "remove_empty_lines" true = true ->
  exists cleaned,
    clean_content uni_alnum cfg content = Ok cleaned /\
    ends_with_one_newline cleaned.
Proof.
  intros H. eexists. split; [apply clean_content_ok|].
  destruct (get cfg "add_final_newline" true) eqn:F.
  - unfold pipeline_text. now apply final_newline_ends.
  - destruct H as [H|H]; [discriminate|].
    unfold pipeline_text, add_final_newline at 1. rewrite F. cbn [negb].
    now apply empty_lines_ends.
Qed.

(** X11.  Whatever the other switches, when the trailing-whitespace stage
    is on no line of the cleaned document ends with white space: the
    stages that run after it keep the lines trimmed. *)
Theorem pipeline_lines_trimmed (cfg : config) (content : str) :
  get cfg "remove_trailing_whitespace" true = true ->
  exists cleaned,
    clean_content uni_alnum cfg content = Ok cleaned /\
    Forall (fun l => rstrip l = l) (split NL cleaned).
Proof.
  intros E. eexists. split; [apply clean_content_ok|].
  apply map_fixed_Forall, trimmed_lines. unfold pipeline_text.
  now apply final_trimmed, empty_trimmed, trailing_out.
Qed.

(** X12.  Whatever the other switches, when the blank-line stage is on the
    cleaned document has no two blank lines in a row and does not start
    with white space, unless it is a single newline. *)
Theorem pipeline_no_blank_run (cfg : config) (content : str) :
  get cfg "remove_empty_lines" true = true ->
  exists cleaned,
    clean_content uni_alnum cfg content = Ok cleaned /\
    no_blank_run cleaned /\
    (cleaned = [NL] \/
     exists c rest, cleaned = c :: rest /\ isspace c = false).
Proof.
  intros E. eexists. split; [apply clean_content_ok|].
  destruct (pipeline_ends_settled cfg content E) as [y ->].
  split; [now apply empty_lines_calm|now apply empty_lines_start].
Qed.

End PipelineShape.

Lemma pipeline_ends_with_newline_witness :
  exists cleaned,
    clean_content (fun _ => false) defaults (doc "# a$|x|y|$|1|2|") = Ok cleaned /\
    ends_with_one_newline cleaned.
Proof.
  apply (pipeline_ends_with_newline (fun _ => false) defaults).
  left. reflexivity.
Defined.

Lemma pipeline_lines_trimmed_witness :
  exists cleaned,
    clean_content (fun _ => false) defaults (doc "# a  $b $") = Ok cleaned /\
    Forall (fun l => rstrip l = l) (split NL cleaned).
Proof.
  apply (pipeline_lines_trimmed (fun _ => false) defaults). reflexivity.
Defined.

Lemma pipeline_no_blank_run_witness :
  exists cleaned,
    clean_content (fun _ => false) defaults (doc " a$$$$b") = Ok cleaned /\
    no_blank_run cleaned /\
    (cleaned = [NL] \/
     exists c rest, cleaned = c :: rest /\ isspace c = false).
Proof.
  apply (pipeline_no_blank_run (fun _ => false) defaults). reflexivity.
Defined.

(** *** The pattern stages on text without their syntax *)

Section PlainText.

(** A pattern that starts with a character that the subject lacks matches
    nowhere, and so does one whose second character the subject lacks. *)
Lemma sub_first_absent (p : char -> bool) (r : regex) (t : template)
  (b : bool) (s : str) :
  forallb (fun c => negb (p c)) s = true ->
  sub_from (One p :: r) t b 0 s = s.
Proof.
  revert b; induction s as [|c s IH]; intros b H; [reflexivity|].
  cbn [forallb] in H. apply andb_true_iff in H. destruct H as [Hc Hs].
  apply negb_true_iff in Hc. cbn [sub_from run]. rewrite Hc.
  now rewrite IH.
Qed.

Lemma sub_second_absent (p q : char -> bool) (r : regex) (t : template)
  (b : bool) (s : str) :
  forallb (fun c => negb (q c)) s = true ->
  sub_from (One p :: One q :: r) t b 0 s = s.
Proof.
  revert b; induction s as [|c s IH]; intros b H; [reflexivity|].
  cbn [forallb] in H. apply andb_true_iff in H. destruct H as [Hc Hs].
  cbn [sub_from]. rewrite (IH false Hs).
  replace (run (One p :: One q :: r) b (c :: s) no_caps)
    with (@None (str * caps)); [reflexivity|].
  cbn [run]. destruct (p c); [|reflexivity].
  destruct s as [|d s]; [reflexivity|].
  cbn [forallb] in Hs. apply andb_true_iff in Hs. destruct Hs as [Hd _].
  apply negb_true_iff in Hd. now rewrite Hd.
Qed.

Lemma absent_only (a : char) (s : str) :
  contains a s = false -> forallb (fun c => negb (only a c)) s = true.
Proof.
  induction s as [|c s IH]; [reflexivity|].
  rewrite contains_cons. intros H. apply orb_false_iff in H.
  destruct H as [Hc Hs]. cbn [forallb]. unfold only at 1.
  rewrite N.eqb_sym, Hc. now apply IH.
Qed.

(** The three patterns of [remove_image_links] start with [!] or [<]. *)
Lemma image_links_absent (cfg : config) (content : str) :
  contains (ch "!") content = false ->
  contains (ch "<") content = false ->
  remove_image_links cfg content = content.
Proof.
  intros H1 H2. unfold remove_image_links.
  destruct (negb _); [reflexivity|].
  apply absent_only in H1. apply absent_only in H2.
  unfold sub.
  replace (sub_from pattern1 [] true 0 content) with content
    by (symmetry; exact (sub_first_absent _ _ _ _ _ H1)).
  replace (sub_from pattern2 [] true 0 content) with content
    by (symmetry; exact (sub_first_absent _ _ _ _ _ H2)).
  exact (sub_first_absent _ _ _ _ _ H1).
Qed.

(** X13.  A document with no exclamation mark and no opening angle
    bracket goes through [remove_image_links] unchanged. *)
Theorem image_links_plain_text (cfg : config) (content : str) :
  contains (ch "!") content = false ->
  contains (ch "<") content = false ->
  remove_image_links cfg content = content.
Proof. exact (image_links_absent cfg content). Qed.

Lemma image_links_plain_text_witness :
  remove_image_links defaults (doc "# a$b [c](d.png)") = doc "# a$b [c](d.png)".
Proof.
  apply (image_links_plain_text defaults (doc "# a$b [c](d.png)"));
    vm_compute; reflexivity.
Defined.

(** The two patterns of [standardize_code_blocks] start with a backtick. *)
Lemma code_blocks_absent (uni_alnum : char -> bool) (cfg : config)
  (content : str) :
  contains (ch "`") content = false ->
  standardize_code_blocks uni_alnum cfg content = content.
Proof.
  intros H. unfold standardize_code_blocks.
  destruct (negb _); [reflexivity|].
  apply absent_only in H. unfold sub.
  replace (sub_from (fence_tag uni_alnum) [Txt (lit "```"); Ref 1] true 0 content)
    with content
    by (symmetry; exact (sub_first_absent _ _ _ _ _ H)).
  exact (sub_first_absent _ _ _ _ _ H).
Qed.

(** X14.  A document with no backtick goes through
    [standardize_code_blocks] unchanged. *)
Theorem code_blocks_plain_text (uni_alnum : char -> bool) (cfg : config)
  (content : str) :
  contains (ch "`") content = false ->
  standardize_code_blocks uni_alnum cfg content = content.
Proof. exact (code_blocks_absent uni_alnum cfg content). Qed.

Lemma code_blocks_plain_text_witness :
  standardize_code_blocks (fun _ => false) defaults (doc "# a$  b") =
  doc "# a$  b".
Proof.
  apply (code_blocks_plain_text (fun _ => false) defaults (doc "# a$  b")).
  vm_compute. reflexivity.
Defined.

(** The two patterns of [fix_urls] start with [\[] or with [!\[]. *)
Lemma urls_absent (cfg : config) (content : str) :
  contains (ch "[") content = false ->
  fix_urls cfg content = content.
Proof.
  intros H. unfold fix_urls.
  destruct (negb _); [reflexivity|].
  apply absent_only in H. unfold sub.
  match goal with
  | |- sub_from _ _ _ _ (sub_from ?r ?t true 0 content) = _ =>
      replace (sub_from r t true 0 content) with content
        by (symmetry; exact (sub_second_absent _ _ _ _ _ _ H))
  end.
  exact (sub_first_absent _ _ _ _ _ H).
Qed.

(** X15.  A document with no opening square bracket goes through
    [fix_urls] unchanged. *)
Theorem urls_plain_text (cfg : config) (content : str) :
  contains (ch "[") content = false ->
  fix_urls cfg content = content.
Proof. exact (urls_absent cfg content). Qed.

Lemma urls_plain_text_witness :
  fix_urls defaults (doc "a ( b ) !$( c )") = doc "a ( b ) !$( c )".
Proof.
  apply (urls_plain_text defaults (doc "a ( b ) !$( c )")).
  vm_compute. reflexivity.
Defined.

Lemma subseq_refl (s : str) : subseq s s.
Proof. induction s; constructor; assumption. Qed.

Lemma subseq_trans (a b c : str) : subseq a b -> subseq b c -> subseq a c.
Proof.
  intros H1 H2. revert a H1.
  induction H2 as [|x b c H2 IH|x b c H2 IH]; intros a H1.
  - exact H1.
  - inversion H1; subst; constructor; now apply IH.
  - constructor. now apply IH.
Qed.

Lemma subseq_length (a b : str) :
  subseq a b -> List.length a <= List.length b.
Proof. induction 1; cbn [List.length]; lia. Qed.

(** A substitution of nothing only leaves characters out. *)
Lemma sub_from_deletes (r : regex) (b : bool) (k : nat) (s : str) :
  subseq (sub_from r [] b k s) s.
Proof.
  revert b k; induction s as [|c s IH]; intros b k.
  - cbn [sub_from]. destruct k; [|constructor].
    destruct (run r b [] no_caps) as [[rest e]|]; constructor.
  - cbn [sub_from]. destruct k as [|k]; [|constructor; apply IH].
    destruct (run r b (c :: s) no_caps) as [[rest e]|].
    + cbn [expand flat_map app].
      destruct (List.length (c :: s) - List.length rest);
        constructor; apply IH.
    + constructor. apply IH.
Qed.

(** X16.  [remove_image_links] only deletes: its result is the document
    with some characters left out, in the same order, so it is never
    longer than the document. *)
Theorem image_links_delete_only (cfg : config) (content : str) :
  subseq (remove_image_links cfg content) content /\
  List.length (remove_image_links cfg content) <= List.length content.
Proof.
  assert (H : subseq (remove_image_links cfg content) content).
  { unfold remove_image_links. destruct (negb _); [apply subseq_refl|].
    unfold sub.
    eapply subseq_trans; [apply sub_from_deletes|].
    eapply subseq_trans; [apply sub_from_deletes|].
    apply sub_from_deletes. }
  split; [exact H|now apply subseq_length].
Qed.

End PlainText.

(** *** The heading stage *)

Section Headings.

(** The greedy [#*] passes a run of markers when the rest of the pattern
    then succeeds. *)
Lemma star_hashes (K : cont) (k : nat) (rest : str) (b : bool) (e : caps)
  (x : str * caps) :
  startswith HASH rest = false ->
  (forall b', K b' rest e = Some x) ->
  star (only HASH) K b (times HASH k ++ rest) e = Some x.
Proof.
  intros Hr HK. revert b; induction k as [|k IH]; intros b.
  - cbn [times repeat app]. destruct rest as [|c rest]; [apply HK|].
    cbn [star]. cbn [startswith] in Hr. unfold only. rewrite Hr. apply HK.
  - cbn [times repeat app star]. unfold only at 1. rewrite N.eqb_refl.
    fold (times HASH k). now rewrite IH.
Qed.

(** The greedy [\s*] at the end of a pattern passes the white space. *)
Lemma star_space_end (b : bool) (s : str) (e : caps) :
  star space (run []) b s e = Some (lstrip s, e).
Proof.
  revert b; induction s as [|c s IH]; intros b; [reflexivity|].
  cbn [star lstrip]. unfold space at 1.
  destruct (isspace c); [now rewrite IH|reflexivity].
Qed.

(** A pattern anchored at the start matches nowhere else. *)
Lemma sub_bol_later (r : regex) (t : template) (s : str) :
  sub_from (Bol :: r) t false 0 s = s.
Proof.
  induction s as [|c s IH]; [reflexivity|].
  cbn [sub_from run]. now rewrite IH.
Qed.

Lemma startswith_absent (c : char) (s : str) :
  contains c s = false -> startswith c s = false.
Proof.
  destruct s as [|a s]; [reflexivity|].
  rewrite contains_cons. intros H. apply orb_false_iff in H.
  cbn [startswith]. rewrite N.eqb_sym. apply H.
Qed.

(** [^#+\s*] takes the markers and the white space after them off a line
    that starts with markers. *)
Lemma leading_marks_off (k : nat) (rest : str) :
  startswith HASH rest = false ->
  sub leading_marks [] (times HASH (S k) ++ rest) = lstrip rest.
Proof.
  intros Hr. unfold sub. cbn [times repeat app]. fold (times HASH k).
  rewrite (lead_lstrip rest) at 1. rewrite app_assoc.
  rewrite (sub_from_match leading_marks [] true HASH
             (times HASH k ++ lead rest) (lstrip rest) no_caps).
  - cbn [expand flat_map app]. apply sub_bol_later.
  - rewrite <- app_assoc, <- lead_lstrip.
    unfold leading_marks. cbn [run]. unfold only at 1. rewrite N.eqb_refl.
    apply star_hashes; [exact Hr|]. intros b'. apply star_space_end.
Qed.

(** The greedy [p*] before a character that the subject lacks fails. *)
Lemma star_absent (p q : char -> bool) (r : regex) (b : bool) (s : str)
  (e : caps) :
  forallb (fun c => negb (q c)) s = true ->
  star p (run (One q :: r)) b s e = None.
Proof.
  revert b; induction s as [|c s IH]; intros b H; [reflexivity|].
  cbn [forallb] in H. apply andb_true_iff in H. destruct H as [Hc Hs].
  apply negb_true_iff in Hc. cbn [star]. rewrite (IH false Hs).
  cbn [run]. rewrite Hc. now destruct (p c).
Qed.

Lemma sub_star_absent (p q : char -> bool) (r : regex) (t : template)
  (b : bool) (s : str) :
  forallb (fun c => negb (q c)) s = true ->
  sub_from (Star p :: One q :: r) t b 0 s = s.
Proof.
  revert b; induction s as [|c s IH]; intros b H.
  - reflexivity.
  - pose proof H as H'. cbn [forallb] in H'. apply andb_true_iff in H'.
    destruct H' as [_ Hs]. cbn [sub_from].
    replace (run (Star p :: One q :: r) b (c :: s) no_caps)
      with (@None (str * caps))
      by (symmetry; exact (star_absent p q r b (c :: s) no_caps H)).
    now rewrite IH.
Qed.

(** [\s*#+\s*$] leaves a text without markers as it is. *)
Lemma trailing_marks_absent (s : str) :
  contains HASH s = false -> sub trailing_marks [] s = s.
Proof.
  intros H. apply absent_only in H. exact (sub_star_absent _ _ _ _ _ _ H).
Qed.

Lemma remove_absent (c : char) (s : str) :
  contains c s = false -> remove c s = s.
Proof.
  induction s as [|a s IH]; [reflexivity|].
  rewrite contains_cons. intros H. apply orb_false_iff in H.
  destruct H as [Ha Hs]. cbn [remove filter]. rewrite N.eqb_sym, Ha.
  cbn [negb]. f_equal. now apply IH.
Qed.

Lemma strip_lstrip (s : str) : strip (lstrip s) = strip s.
Proof. unfold strip. now rewrite <- lstrip_rstrip, lstrip_idem. Qed.

Lemma strip_marked (s : str) : startswith HASH (strip (HASH :: s)) = true.
Proof.
  unfold strip. rewrite rstrip_cons.
  destruct (rstrip s); reflexivity.
Qed.

(** A line of markers and a text without markers comes out with one
    marker. *)
Lemma normalize_marked (k : nat) (rest : str) :
  contains HASH rest = false ->
  normalize_line (times HASH (S k) ++ rest) = HASH :: SP :: strip rest.
Proof.
  intros H. unfold normalize_line.
  replace (startswith HASH (strip (times HASH (S k) ++ rest))) with true
    by (symmetry; apply strip_marked).
  rewrite leading_marks_off by now apply startswith_absent.
  pose proof (contains_lstrip HASH rest H) as Hl.
  rewrite trailing_marks_absent by exact Hl.
  rewrite Hl, remove_absent by exact Hl.
  now rewrite strip_lstrip.
Qed.

(** X17.  A heading line that starts with its markers and has no marker
    in its text comes out at level 1, whatever its level was: the level is
    counted after the markers have been removed. *)
Theorem heading_level_flattened (k : nat) (rest : str) :
  1 <= k ->
  contains HASH rest = false ->
  normalize_line (times HASH k ++ rest) = HASH :: SP :: strip rest.
Proof.
  intros Hk H. destruct k as [|k]; [lia|]. now apply normalize_marked.
Qed.

Lemma heading_level_flattened_witness :
  normalize_line (times HASH 3 ++ lit " Title ") = lit "# Title".
Proof.
  apply (heading_level_flattened 3 (lit " Title ")); [lia|reflexivity].
Defined.

Lemma subseq_contains (c : char) (a b : str) :
  subseq a b -> contains c b = false -> contains c a = false.
Proof.
  induction 1 as [|x a b _ IH|x a b _ IH]; [auto| |];
    rewrite !contains_cons; intros H; apply orb_false_iff in H;
    destruct H as [Hx Hb].
  - now rewrite Hx, IH.
  - now apply IH.
Qed.

Lemma contains_app (c : char) (u v : str) :
  contains c (u ++ v) = contains c u || contains c v.
Proof. apply existsb_app. Qed.

Lemma contains_times (c d : char) (n : nat) :
  (c =? d)%N = false -> contains c (times d n) = false.
Proof.
  intros H. induction n as [|n IH]; [reflexivity|].
  cbn [times repeat]. rewrite contains_cons, H. exact IH.
Qed.

Lemma contains_remove (c d : char) (s : str) :
  contains c s = false -> contains c (remove d s) = false.
Proof.
  induction s as [|a s IH]; [auto|].
  rewrite contains_cons. intros H. apply orb_false_iff in H.
  destruct H as [Ha Hs]. cbn [remove filter].
  destruct (negb (a =? d)%N); [|now apply IH].
  rewrite contains_cons, Ha. now apply IH.
Qed.

(** A line stays one line. *)
Lemma normalize_line_one_line (line : str) :
  contains NL line = false -> contains NL (normalize_line line) = false.
Proof.
  intros H. unfold normalize_line.
  destruct (startswith HASH (strip line)); [|exact H].
  rewrite !contains_app, contains_times by reflexivity.
  cbn [orb]. change (contains NL [SP]) with false. cbn [orb].
  apply contains_strip, contains_remove.
  unfold sub.
  eapply subseq_contains; [apply sub_from_deletes|].
  eapply subseq_contains; [apply sub_from_deletes|exact H].
Qed.

Lemma normalize_lines_one_line (ls : list str) :
  forallb (fun l => negb (contains NL l)) ls = true ->
  forallb (fun l => negb (contains NL l)) (map normalize_line ls) = true.
Proof.
  induction ls as [|l ls IH]; [auto|]. cbn [map forallb].
  intros H. apply andb_true_iff in H. destruct H as [Hl Hs].
  apply negb_true_iff in Hl.
  now rewrite (normalize_line_one_line l Hl), IH.
Qed.

(** The heading stage works line by line. *)
Lemma normalize_headings_lines (cfg : config) (content : str) :
  get cfg "normalize_headings" true = true ->
  split NL (normalize_headings cfg content) =
  map normalize_line (split NL content).
Proof.
  intros E. unfold normalize_headings. rewrite E. cbn [negb].
  apply split_join.
  - intros H. apply map_eq_nil in H. now apply split_not_nil in H.
  - apply normalize_lines_one_line, split_lines.
Qed.

(** X18.  The heading stage works line by line: line [i] of its result is
    the normalized line [i] of the document, and the number of lines is
    kept. *)
Theorem heading_lines_kept (cfg : config) (content : str) :
  get cfg "normalize_headings" true = true ->
  split NL (normalize_headings cfg content) =
  map normalize_line (split NL content) /\
  List.length (split NL (normalize_headings cfg content)) =
  List.length (split NL content).
Proof.
  intros E. rewrite normalize_headings_lines by exact E.
  split; [reflexivity|apply length_map].
Qed.

Lemma heading_lines_kept_witness :
  split NL (normalize_headings defaults (doc "##a #$b$# c #")) =
  map normalize_line (split NL (doc "##a #$b$# c #")) /\
  List.length (split NL (normalize_headings defaults (doc "##a #$b$# c #"))) =
  List.length (split NL (doc "##a #$b$# c #")).
Proof.
  apply (heading_lines_kept defaults (doc "##a #$b$# c #")). reflexivity.
Defined.

(** What a heading line comes out as. *)
Lemma normalize_line_shape (line : str) :
  startswith HASH (strip line) = true ->
  exists k title,
    normalize_line line = times HASH (S k) ++ SP :: title /\
    contains HASH title = false /\ strip title = title.
Proof.
  intros H. unfold normalize_line. rewrite H.
  set (rest := sub trailing_marks [] (sub leading_marks [] line)).
  exists (if contains HASH rest then Nat.min (count HASH rest + 1) 6 - 1 else 0),
         (strip (remove HASH rest)).
  split; [|split].
  - f_equal. f_equal. destruct (contains HASH rest); lia.
  - apply contains_strip, contains_filter_out.
  - apply strip_idem.
Qed.

Lemma strip_space_cons (c : char) (t : str) :
  isspace c = true -> strip (c :: t) = strip t.
Proof.
  intros H. unfold strip. rewrite rstrip_cons.
  destruct (rstrip t); cbn [lstrip]; now rewrite H.
Qed.

(** The second pass puts every heading at level 1. *)
Lemma normalize_line_twice (line : str) :
  startswith HASH (strip line) = true ->
  exists title,
    normalize_line (normalize_line line) = HASH :: SP :: title /\
    contains HASH title = false /\ strip title = title.
Proof.
  intros H. destruct (normalize_line_shape line H) as [k [title [E [Hc Hs]]]].
  exists title. split; [|now split].
  rewrite E, normalize_marked.
  - now rewrite strip_space_cons, Hs by reflexivity.
  - rewrite contains_cons, Hc. reflexivity.
Qed.

Lemma normalize_line_settled (line : str) :
  normalize_line (normalize_line (normalize_line line)) =
  normalize_line (normalize_line line).
Proof.
  destruct (startswith HASH (strip line)) eqn:H.
  - destruct (normalize_line_twice line H) as [title [E [Hc Hs]]].
    rewrite E.
    change (HASH :: SP :: title) with (times HASH 1 ++ SP :: title).
    rewrite normalize_marked.
    + now rewrite strip_space_cons, Hs by reflexivity.
    + rewrite contains_cons, Hc. reflexivity.
  - assert (E : normalize_line line = line)
      by (unfold normalize_line; now rewrite H).
    now rewrite !E.
Qed.

(** X19.  Two passes of the heading stage settle a document: a third pass
    changes nothing, and after the second every heading line has one
    marker, one space and a text without markers.  One pass does not do:
    "#a#b" comes out as "## ab", and that as "# ab". *)
Theorem headings_settle_in_two_passes (cfg : config) (content : str) :
  get cfg "normalize_headings" true = true ->
  let twice := normalize_headings cfg (normalize_headings cfg content) in
  normalize_headings cfg twice = twice /\
  (forall line,
     In line (split NL twice) ->
     startswith HASH (strip line) = true ->
     exists title,
       line = HASH :: SP :: title /\
       contains HASH title = false /\ strip title = title) /\
  normalize_headings cfg (lit "#a#b") = lit "## ab" /\
  normalize_headings cfg (lit "## ab") = lit "# ab".
Proof.
  intros E twice.
  assert (L : split NL twice =
              map (fun l => normalize_line (normalize_line l))
                  (split NL content)).
  { unfold twice. rewrite !normalize_headings_lines by exact E.
    apply map_map. }
  split; [|split].
  - rewrite <- (join_split (normalize_headings cfg twice)).
    rewrite <- (join_split twice) at 2.
    rewrite normalize_headings_lines by exact E. rewrite L. f_equal.
    rewrite map_map. apply map_ext. intros l. apply normalize_line_settled.
  - intros line Hin Hs. rewrite L in Hin. apply in_map_iff in Hin.
    destruct Hin as [l [<- _]].
    destruct (startswith HASH (strip l)) eqn:Hl.
    + destruct (normalize_line_twice l Hl) as [title H]. now exists title.
    + assert (El : normalize_line l = l)
        by (unfold normalize_line; now rewrite Hl).
      rewrite !El in Hs. congruence.
  - unfold normalize_headings. rewrite E. cbn [negb].
    split; vm_compute; reflexivity.
Qed.

Lemma headings_settle_in_two_passes_witness :
  normalize_headings defaults
    (normalize_headings defaults
       (normalize_headings defaults (doc "#a#b$c$### d ##"))) =
  normalize_headings defaults (normalize_headings defaults (doc "#a#b$c$### d ##")).
Proof.
  assert (E : get defaults "normalize_headings" true = true) by reflexivity.
  exact (proj1 (headings_settle_in_two_passes defaults (doc "#a#b$c$### d ##") E)).
Defined.

End Headings.

(** *** The table stage *)

Section TableShape.

Lemma absent_lines (c : char) (s : str) :
  contains c s = false ->
  forallb (fun l => negb (contains c l)) (split NL s) = true.
Proof.
  induction s as [|a s IH]; [reflexivity|].
  rewrite contains_cons. intros H. apply orb_false_iff in H.
  destruct H as [Ha Hs]. specialize (IH Hs). cbn [split].
  destruct (a =? NL)%N; [exact IH|].
  destruct (split NL s) as [|x xs]; cbn [forallb] in *.
  - now rewrite contains_cons, Ha.
  - now rewrite contains_cons, Ha.
Qed.

(** Outside a table, a line without a bar goes to the result as it is. *)
Lemma scan_plain_lines (ls o : list str) :
  forallb (fun l => negb (contains BAR l)) ls = true ->
  fold_left scan_step ls {| out := o; table_lines := []; in_table := false |} =
  {| out := o ++ ls; table_lines := []; in_table := false |}.
Proof.
  revert o; induction ls as [|l ls IH]; intros o H.
  - now rewrite app_nil_r.
  - cbn [forallb] in H. apply andb_true_iff in H. destruct H as [Hl Hs].
    apply negb_true_iff in Hl. cbn [fold_left]. unfold scan_step at 2.
    cbn [in_table table_lines out]. rewrite Hl. cbn [andb].
    rewrite Hl. rewrite IH by exact Hs. now rewrite <- app_assoc.
Qed.

(** A document without a bar goes through the table stage unchanged. *)
Lemma tables_text_absent (cfg : config) (content : str) :
  contains BAR content = false -> tables_text cfg content = content.
Proof.
  intros H. unfold tables_text.
  destruct (negb _); [reflexivity|].
  unfold start. rewrite scan_plain_lines by now apply absent_lines.
  unfold flush_text. cbn [in_table out andb app]. apply join_split.
Qed.

(** X20.  A document without a vertical bar goes through [format_tables]
    unchanged. *)
Theorem tables_plain_text (cfg : config) (content : str) :
  contains BAR content = false ->
  format_tables cfg content = Ok content.
Proof.
  intros H. rewrite format_tables_ok. f_equal. now apply tables_text_absent.
Qed.

Lemma tables_plain_text_witness :
  format_tables defaults (doc "# a$$b  c$") = Ok (doc "# a$$b  c$").
Proof.
  apply (tables_plain_text defaults (doc "# a$$b  c$")). reflexivity.
Defined.

Lemma maxes_nth (ws ns : list nat) (i : nat) :
  nth i (maxes ws ns) 0 = Nat.max (nth i ws 0) (nth i ns 0).
Proof.
  revert ns i; induction ws as [|w ws IH]; intros ns i.
  - cbn [maxes]. now destruct i.
  - destruct ns as [|n ns]; cbn [maxes].
    + destruct i; cbn [nth]; lia.
    + destruct i; cbn [nth]; [reflexivity|apply IH].
Qed.

Lemma widths_from_mono (rows : list str) (ws : list nat) (i : nat) :
  nth i ws 0 <= nth i (widths_from ws rows) 0.
Proof.
  revert ws; induction rows as [|r rows IH]; intros ws; [reflexivity|].
  unfold widths_from. cbn [fold_left].
  etransitivity; [|apply IH]. rewrite maxes_nth. lia.
Qed.

(** The width of a column is at least the length of each of its cells. *)
Lemma widths_from_wide (rows : list str) (ws : list nat) (line : str)
  (i : nat) :
  In line rows ->
  List.length (nth i (cells_of line) []) <= nth i (widths_from ws rows) 0.
Proof.
  revert ws; induction rows as [|r rows IH]; intros ws; [intros []|].
  intros [->|H].
  - unfold widths_from. cbn [fold_left].
    etransitivity; [|apply widths_from_mono]. rewrite maxes_nth.
    pose proof (map_nth (@List.length char) (cells_of line) [] i) as M.
    cbn [List.length] in M. rewrite M. apply Nat.le_max_r.
  - unfold widths_from. cbn [fold_left]. now apply IH.
Qed.

Lemma ljust_length (s : str) (w : nat) :
  List.length s <= w -> List.length (ljust s w) = w.
Proof.
  intros H. unfold ljust, times. rewrite length_app, repeat_length. lia.
Qed.

(** A field is two characters wider than its column. *)
Lemma cell_text_length (ws : list nat) (j i : nat) (cell : str) :
  List.length cell <= nth i ws 0 ->
  List.length (cell_text ws j (i, cell)) = nth i ws 0 + 2.
Proof.
  intros H. unfold cell_text. cbn [fst snd].
  destruct (j =? 1).
  - apply repeat_length.
  - rewrite !length_app, ljust_length by exact H. cbn [List.length]. lia.
Qed.

Lemma fields_length (ws : list nat) (j k : nat) (cells : list str) :
  (forall i, List.length (nth i cells []) <= nth (k + i) ws 0) ->
  map (@List.length char)
      (map (cell_text ws j) (combine (seq k (List.length cells)) cells)) =
  map (fun i => nth i ws 0 + 2) (seq k (List.length cells)).
Proof.
  revert k; induction cells as [|c cells IH]; intros k H; [reflexivity|].
  cbn [List.length seq combine map]. f_equal.
  - apply cell_text_length. specialize (H 0). cbn [nth] in H.
    now rewrite Nat.add_0_r in H.
  - apply IH. intros i. specialize (H (S i)). cbn [nth] in H.
    now rewrite Nat.add_succ_r in H.
Qed.

Lemma nth_error_enumerate {A} (l : list A) (k j : nat) (x : A) :
  nth_error l j = Some x ->
  nth_error (combine (seq k (List.length l)) l) j = Some (k + j, x).
Proof.
  revert k j; induction l as [|a l IH]; intros k [|j] H; try discriminate.
  - cbn in H. injection H as ->. cbn. now rewrite Nat.add_0_r.
  - cbn [List.length seq combine nth_error] in *.
    rewrite (IH (S k) j H). f_equal. f_equal. lia.
Qed.

(** X21.  The table formatter aligns the columns: it keeps the number of
    rows, and in every row the field of column [i] is two characters wider
    than the width computed for that column, whatever the row and the
    cell. *)
Theorem table_columns_aligned (table_lines : list str) :
  2 <= List.length table_lines ->
  exists col_widths formatted_lines,
    widths_of table_lines = Ok col_widths /\
    _format_table_lines table_lines = Ok formatted_lines /\
    List.length formatted_lines = List.length table_lines /\
    forall j line,
      nth_error table_lines j = Some line ->
      exists fields,
        nth_error formatted_lines j = Some ([BAR] ++ join [BAR] fields ++ [BAR]) /\
        map (@List.length char) fields =
        map (fun i => nth i col_widths 0 + 2)
            (seq 0 (List.length (cells_of line))).
Proof.
  intros H.
  exists (widths_from [] table_lines), (table_text table_lines).
  split; [apply widths_of_total|]. split; [apply format_table_lines_ok|].
  unfold table_text.
  replace (List.length table_lines <? 2) with false
    by (symmetry; apply Nat.ltb_ge; exact H).
  split.
  - unfold enumerate. rewrite length_map, length_combine, length_seq. lia.
  - intros j line Hj.
    exists (map (cell_text (widths_from [] table_lines) j)
                (enumerate (cells_of line))).
    split.
    + unfold enumerate at 1.
      erewrite map_nth_error; [|apply nth_error_enumerate; exact Hj].
      reflexivity.
    + unfold enumerate. apply fields_length. intros i.
      apply widths_from_wide. eapply nth_error_In; exact Hj.
Qed.

Lemma table_columns_aligned_witness :
  exists col_widths formatted_lines,
    widths_of [doc "|a|bcd|"; doc "|-|-|"; doc "| xy | z |  |"] = Ok col_widths /\
    _format_table_lines [doc "|a|bcd|"; doc "|-|-|"; doc "| xy | z |  |"] =
    Ok formatted_lines /\
    List.length formatted_lines = 3 /\
    forall j line,
      nth_error [doc "|a|bcd|"; doc "|-|-|"; doc "| xy | z |  |"] j = Some line ->
      exists fields,
        nth_error formatted_lines j = Some ([BAR] ++ join [BAR] fields ++ [BAR]) /\
        map (@List.length char) fields =
        map (fun i => nth i col_widths 0 + 2)
            (seq 0 (List.length (cells_of line))).
Proof.
  apply (table_columns_aligned
           [doc "|a|bcd|"; doc "|-|-|"; doc "| xy | z |  |"]).
  cbn [List.length]. lia.
Defined.

End TableShape.

(** *** Documents without syntax *)

Section Prose.

Variable uni_alnum : char -> bool.

Lemma prose_absent (a : char) (s : str) :
  contains a syntax = true -> prose s = true -> contains a s = false.
Proof.
  intros Ha. induction s as [|c s IH]; [reflexivity|].
  cbn [prose forallb]. intros H. apply andb_true_iff in H.
  destruct H as [Hc Hs]. rewrite contains_cons, (IH Hs), orb_false_r.
  destruct (N.eqb_spec a c) as [->|]; [|reflexivity].
  now rewrite Ha in Hc.
Qed.

Lemma prose_filter (p : char -> bool) (s : str) :
  prose s = true -> prose (filter p s) = true.
Proof.
  induction s as [|c s IH]; [auto|]. cbn [prose forallb filter].
  intros H. apply andb_true_iff in H. destruct H as [Hc Hs].
  destruct (p c); [cbn [forallb]; rewrite Hc|]; now apply IH.
Qed.

Lemma normalize_line_absent (line : str) :
  contains HASH line = false -> normalize_line line = line.
Proof.
  intros H. unfold normalize_line.
  now rewrite (startswith_absent _ _ (contains_strip _ _ H)).
Qed.

(** A document without a marker goes through the heading stage
    unchanged. *)
Lemma normalize_headings_absent (cfg : config) (content : str) :
  contains HASH content = false -> normalize_headings cfg content = content.
Proof.
  intros H. unfold normalize_headings. destruct (negb _); [reflexivity|].
  rewrite <- (join_split content) at 2. f_equal.
  apply absent_lines in H. induction (split NL content) as [|l ls IH];
    [reflexivity|].
  cbn [forallb] in H. apply andb_true_iff in H. destruct H as [Hl Hs].
  apply negb_true_iff in Hl. cbn [map].
  now rewrite normalize_line_absent, IH.
Qed.

Lemma special_prose (cfg : config) (x : str) :
  prose x = true -> prose (remove_special_chars cfg x) = true.
Proof.
  intros H. unfold remove_special_chars. destruct (negb _); [exact H|].
  unfold sub. rewrite sub_class_filter. now apply prose_filter.
Qed.

(** On a document without syntax only the stages on white space and
    control characters act. *)
Lemma pipeline_text_prose (cfg : config) (content : str) :
  prose content = true ->
  pipeline_text uni_alnum cfg content = tidy cfg content.
Proof.
  intros H. unfold pipeline_text, tidy.
  rewrite image_links_absent by (apply prose_absent; [reflexivity|exact H]).
  pose proof (special_prose cfg content H) as P.
  rewrite normalize_headings_absent
    by (apply prose_absent; [reflexivity|exact P]).
  rewrite tables_text_absent by (apply prose_absent; [reflexivity|exact P]).
  rewrite code_blocks_absent by (apply prose_absent; [reflexivity|exact P]).
  rewrite urls_absent by (apply prose_absent; [reflexivity|exact P]).
  reflexivity.
Qed.

(** X22.  On a document that has none of the characters [!], [<], [#],
    [|], the backtick and [\[], the five stages that act on Markdown syntax
    change nothing, whatever the switches: the cleaned document is the
    result of the stages on white space and control characters alone. *)
Theorem pipeline_prose (cfg : config) (content : str) :
  prose content = true ->
  clean_content uni_alnum cfg content = Ok (tidy cfg content).
Proof.
  intros H. rewrite clean_content_ok. f_equal. now apply pipeline_text_prose.
Qed.

Lemma trailing_prose (cfg : config) (x : str) :
  prose x = true -> prose (remove_trailing_whitespace cfg x) = true.
Proof.
  intros H. unfold remove_trailing_whitespace.
  destruct (negb _); [exact H|].
  apply all_join; [reflexivity|].
  now apply all_map_rstrip, all_split.
Qed.

Lemma empty_prose (cfg : config) (x : str) :
  prose x = true -> prose (remove_empty_lines cfg x) = true.
Proof.
  intros H. unfold remove_empty_lines. destruct (negb _); [exact H|].
  apply all_snoc_newline; [reflexivity|].
  apply all_lstrip, all_rstrip.
  apply all_collapse; [reflexivity|]. apply all_collapse; [reflexivity|exact H].
Qed.

Lemma final_prose (cfg : config) (x : str) :
  prose x = true -> prose (add_final_newline cfg x) = true.
Proof.
  intros H. unfold add_final_newline. destruct (negb _); [exact H|].
  apply all_snoc_newline; [reflexivity|]. now apply all_rstrip.
Qed.

(** X23.  On a document without those characters a second run of the
    pipeline changes nothing, whatever the switches: under the default
    configuration too, the cleaner is idempotent on plain prose. *)
Theorem prose_idempotent (cfg : config) (content : str) :
  prose content = true ->
  exists once,
    clean_content uni_alnum cfg content = Ok once /\
    clean_content uni_alnum cfg once = Ok once.
Proof.
  intros H. exists (tidy cfg content).
  rewrite !clean_content_ok, pipeline_text_prose by exact H.
  split; [reflexivity|]. f_equal.
  rewrite pipeline_text_prose; [apply tidy_idem|].
  unfold tidy. now apply final_prose, empty_prose, trailing_prose, special_prose.
Qed.

End Prose.

Lemma pipeline_prose_witness :
  clean_content (fun _ => false) defaults (doc " (a)  $$$$b. c > d  $$") =
  Ok (doc "(a)$$b. c > d$").
Proof.
  apply (pipeline_prose (fun _ => false) defaults
           (doc " (a)  $$$$b. c > d  $$")).
  reflexivity.
Defined.

Lemma prose_idempotent_witness :
  exists once,
    clean_content (fun _ => false) defaults (doc " (a)  $$$$b. c > d  $$") = Ok once /\
    clean_content (fun _ => false) defaults once = Ok once.
Proof.
  apply (prose_idempotent (fun _ => false) defaults
           (doc " (a)  $$$$b. c > d  $$")).
  reflexivity.
Defined.

(** *** Matches of the pattern stages *)

Section Matches.

(** The greedy [p*] passes a run of the class when the rest of the pattern
    then succeeds. *)
Lemma star_all (p : char -> bool) (K : cont) (u t : str) (b : bool)
  (e : caps) (x : str * caps) :
  forallb p u = true -> halts p t = true ->
  (forall b', K b' t e = Some x) ->
  star p K b (u ++ t) e = Some x.
Proof.
  intros Hu Ht HK. revert b; induction u as [|c u IH]; intros b.
  - cbn [app]. destruct t as [|d t]; [apply HK|].
    cbn [star]. cbn [halts] in Ht. apply negb_true_iff in Ht.
    rewrite Ht. apply HK.
  - cbn [forallb] in Hu. apply andb_true_iff in Hu. destruct Hu as [Hc Hu].
    cbn [app star]. rewrite Hc. now rewrite (IH Hu).
Qed.

(** The lazy [p*?] goes on as long as the rest of the pattern fails; where
    all the matches of the rest end at the same place, so does the match of
    the whole. *)
Lemma lazy_any (p : char -> bool) (K : cont) (post : str) (u t : str)
  (b : bool) (e : caps) :
  forallb p u = true ->
  (forall u1 u2 b', u = u1 ++ u2 ->
     K b' (u2 ++ t) e = None \/ exists e', K b' (u2 ++ t) e = Some (post, e')) ->
  (forall b', exists e', K b' t e = Some (post, e')) ->
  exists e', lazy p K b (u ++ t) e = Some (post, e').
Proof.
  intros Hu Hmid Hend. revert b; induction u as [|c u IH]; intros b.
  - cbn [app]. destruct (Hend b) as [e' He'].
    exists e'. destruct t; cbn [lazy]; now rewrite He'.
  - cbn [forallb] in Hu. apply andb_true_iff in Hu. destruct Hu as [Hc Hu].
    cbn [app lazy].
    destruct (Hmid [] (c :: u) b eq_refl) as [H|[e' H]];
      cbn [app] in H; rewrite H.
    + rewrite Hc. apply IH; [exact Hu|].
      intros u1 u2 b' E. apply (Hmid (c :: u1) u2 b'). now rewrite E.
    + now exists e'.
Qed.

(** The same, when the rest of the pattern fails on the way. *)
Lemma lazy_skip (p : char -> bool) (K : cont) (u t : str) (b : bool)
  (e : caps) (x : str * caps) :
  forallb p u = true ->
  (forall c rest b', In c u -> K b' (c :: rest) e = None) ->
  (forall b', K b' t e = Some x) ->
  lazy p K b (u ++ t) e = Some x.
Proof.
  intros Hu Hmid Hend. revert b; induction u as [|c u IH]; intros b.
  - cbn [app]. destruct t; cbn [lazy]; now rewrite Hend.
  - cbn [forallb] in Hu. apply andb_true_iff in Hu. destruct Hu as [Hc Hu].
    cbn [app lazy]. rewrite (Hmid c (u ++ t) b) by now left.
    rewrite Hc. apply IH; [exact Hu|].
    intros d rest b' Hd. apply Hmid. now right.
Qed.

(** A pattern that starts with a character that a prefix of the subject
    lacks matches nowhere in the prefix. *)
Lemma sub_pass (p : char -> bool) (r : regex) (t : template) (pre s : str)
  (b : bool) :
  forallb (fun c => negb (p c)) pre = true ->
  exists b',
    sub_from (One p :: r) t b 0 (pre ++ s) =
    pre ++ sub_from (One p :: r) t b' 0 s.
Proof.
  revert b; induction pre as [|c pre IH]; intros b H.
  - now exists b.
  - cbn [forallb] in H. apply andb_true_iff in H. destruct H as [Hc Hs].
    apply negb_true_iff in Hc. destruct (IH false Hs) as [b' E].
    exists b'. cbn [app sub_from run]. now rewrite Hc, E.
Qed.

(** Where the pattern does not match, one character is copied. *)
Lemma sub_from_miss (r : regex) (t : template) (b : bool) (a : char)
  (s : str) :
  run r b (a :: s) no_caps = None ->
  sub_from r t b 0 (a :: s) = a :: sub_from r t false 0 s.
Proof. intros H. cbn [sub_from]. now rewrite H. Qed.

(** What a group holds when it is closed. *)
Lemma close_open (g : nat) (u s : str) (e : caps) :
  close_group g s (open_group g (u ++ s) e) =
  {| opened := (g, u ++ s) :: opened e; closed := (g, u) :: closed e |}.
Proof.
  unfold close_group, open_group. cbn [opened closed find].
  rewrite Nat.eqb_refl. f_equal. f_equal. f_equal.
  rewrite length_app, Nat.add_sub.
  now rewrite firstn_app, Nat.sub_diag, firstn_all, firstn_O, app_nil_r.
Qed.

End Matches.

(** *** Code fences *)

Section Fences.

Variable uni_alnum : char -> bool.

Lemma word_not_tick (c : char) :
  word uni_alnum c = true -> (c =? ch "`")%N = false.
Proof.
  intros H. destruct (N.eqb_spec c (ch "`")) as [->|]; [|reflexivity].
  cbn in H. discriminate H.
Qed.

Lemma space_not_newline (c : char) : isspace c = false -> (c =? NL)%N = false.
Proof.
  intros H. destruct (N.eqb_spec c NL) as [->|]; [|reflexivity].
  cbn in H. discriminate H.
Qed.

Lemma words_no_tick (s : str) :
  forallb (word uni_alnum) s = true -> contains (ch "`") s = false.
Proof.
  induction s as [|c s IH]; [reflexivity|]. cbn [forallb].
  intros H. apply andb_true_iff in H. destruct H as [Hc Hs].
  rewrite contains_cons, N.eqb_sym, (word_not_tick c Hc). now apply IH.
Qed.

(** The first pattern on a fence, white space and a word. *)
Lemma run_fence_tag (ws : str) (c : char) (tag rest : str) (b : bool) :
  blank ws = true ->
  forallb (word uni_alnum) (c :: tag) = true ->
  isspace c = false ->
  halts (word uni_alnum) rest = true ->
  run (fence_tag uni_alnum) b (lit "```" ++ ws ++ c :: tag ++ rest) no_caps =
  Some (rest, {| opened := [(1, (c :: tag) ++ rest)];
                 closed := [(1, c :: tag)] |}).
Proof.
  intros Hw Ht Hc Hr. cbn [forallb] in Ht. apply andb_true_iff in Ht.
  destruct Ht as [Hc' Ht].
  unfold fence_tag, text. cbn [lit map app run].
  unfold only at 1 2 3. rewrite !N.eqb_refl.
  apply star_all; [exact Hw|cbn [halts]; unfold space; now rewrite Hc|].
  intros _. cbn [run]. rewrite Hc'.
  apply star_all; [exact Ht|exact Hr|].
  intros _. cbn [run]. f_equal. f_equal.
  change (c :: tag ++ rest) with ((c :: tag) ++ rest).
  apply (close_open 1 (c :: tag) rest no_caps).
Qed.

(** The second pattern finds no fence that ends its line. *)
Lemma fence_end_absent (t : template) (c : char) (s : str) :
  word uni_alnum c = true -> isspace c = false ->
  contains (ch "`") s = false ->
  sub fence_end t (lit "```" ++ c :: s) = lit "```" ++ c :: s.
Proof.
  intros Hw Hc Hs. pose proof (word_not_tick c Hw) as Ht.
  pose proof (space_not_newline c Hc) as Hn.
  assert (R : sub_from fence_end t false 0 (c :: s) = c :: s).
  { apply sub_first_absent. cbn [forallb]. unfold only at 1.
    rewrite Ht. cbn [negb andb]. now apply absent_only. }
  assert (M : forall b u,
             u = [] \/ u = [ch "`"] \/ u = [ch "`"; ch "`"] ->
             run fence_end b (ch "`" :: u ++ c :: s) no_caps = None).
  { intros b u [-> | [-> | ->]]; unfold fence_end, text;
      cbn [lit map app run star]; unfold only, space;
      rewrite ?N.eqb_refl, ?Ht, ?Hc, ?Hn; reflexivity. }
  unfold sub. change (lit "```" ++ c :: s)
    with (ch "`" :: [ch "`"; ch "`"] ++ c :: s).
  rewrite sub_from_miss by (apply M; auto). cbn [app].
  rewrite (sub_from_miss _ _ _ _ _ (M false [ch "`"] ltac:(auto))).
  rewrite (sub_from_miss _ _ _ _ _ (M false [] ltac:(auto))).
  cbn [app]. now rewrite R.
Qed.

(** X24.  A fence followed by white space and a word loses the white
    space: the word is joined to the fence.  The white space can hold
    newlines, so that the first word of the line after a fence without a
    language is joined to the fence as well. *)
Theorem fence_tag_joined (cfg : config) (ws : str) (c : char)
  (tag rest : str) :
  get cfg "standardize_code_blocks" true = true ->
  blank ws = true ->
  forallb (word uni_alnum) (c :: tag) = true ->
  isspace c = false ->
  halts (word uni_alnum) rest = true ->
  contains (ch "`") rest = false ->
  standardize_code_blocks uni_alnum cfg
    (lit "```" ++ ws ++ c :: tag ++ rest) =
  lit "```" ++ c :: tag ++ rest.
Proof.
  intros E Hw Ht Hc Hr Hn. unfold standardize_code_blocks.
  rewrite E. cbn [negb].
  assert (F : sub (fence_tag uni_alnum) [Txt (lit "```"); Ref 1]
                (lit "```" ++ ws ++ c :: tag ++ rest) =
              lit "```" ++ c :: tag ++ rest).
  { unfold sub.
    pose proof (run_fence_tag ws c tag rest true Hw Ht Hc Hr) as R.
    assert (Eq : lit "```" ++ ws ++ c :: tag ++ rest =
                 ch "`" :: (ch "`" :: ch "`" :: ws ++ c :: tag) ++ rest).
    { cbn [lit app]. now rewrite <- app_assoc. }
    rewrite Eq in R |- *.
    rewrite (sub_from_match _ _ _ _ _ _ _ R).
    cbn [expand flat_map closed find Nat.eqb app].
    rewrite app_nil_r.
    replace (sub_from (fence_tag uni_alnum) [Txt (lit "```"); Ref 1] false 0 rest)
      with rest
      by (symmetry; exact (sub_first_absent _ _ _ _ _ (absent_only _ _ Hn))).
    now rewrite <- app_assoc. }
  rewrite F. apply fence_end_absent.
  - cbn [forallb] in Ht. now apply andb_true_iff in Ht.
  - exact Hc.
  - rewrite contains_app, Hn, orb_false_r. apply words_no_tick.
    cbn [forallb] in Ht. now apply andb_true_iff in Ht.
Qed.

End Fences.

Lemma fence_tag_joined_witness :
  standardize_code_blocks (fun _ => false) defaults (doc "```  $print(1)$") =
  doc "```print(1)$".
Proof.
  apply (fence_tag_joined (fun _ => false) defaults (doc "  $")
           (ch "p") (lit "rint") (doc "(1)$")); reflexivity.
Defined.

(** *** Links *)

Section Links.

Lemma absent_forall (a : char) (s : str) (c : char) :
  contains a s = false -> In c s -> (c =? a)%N = false.
Proof.
  induction s as [|d s IH]; [intros _ []|].
  rewrite contains_cons. intros H. apply orb_false_iff in H.
  destruct H as [Hd Hs]. intros [->|Hc]; [now rewrite N.eqb_sym|auto].
Qed.

Lemma absent_dots (s : str) : contains NL s = false -> forallb dot s = true.
Proof.
  induction s as [|c s IH]; [reflexivity|].
  rewrite contains_cons. intros H. apply orb_false_iff in H.
  destruct H as [Hc Hs]. cbn [forallb]. unfold dot at 1.
  rewrite N.eqb_sym, Hc. now apply IH.
Qed.

Lemma solid_dots (s : str) :
  forallb (fun c => negb (isspace c)) s = true -> forallb dot s = true.
Proof.
  induction s as [|c s IH]; [reflexivity|]. cbn [forallb].
  intros H. apply andb_true_iff in H. destruct H as [Hc Hs].
  apply negb_true_iff in Hc. unfold dot at 1.
  now rewrite (space_not_newline c Hc), IH.
Qed.

Lemma blank_absent (a : char) (w : str) :
  isspace a = false -> blank w = true -> contains a w = false.
Proof.
  intros Ha. induction w as [|c w IH]; [reflexivity|].
  cbn [blank forallb]. intros H. apply andb_true_iff in H.
  destruct H as [Hc Hw]. rewrite contains_cons, (IH Hw), orb_false_r.
  destruct (N.eqb_spec a c) as [->|]; congruence.
Qed.

(** The end of the pattern, from the target on. *)
Lemma run_target (url ws2 post : str) (b : bool) (e : caps) :
  forallb (fun c => negb (isspace c)) url = true ->
  contains (ch ")") url = false ->
  blank ws2 = true ->
  run [Open 2; Lazy dot; Close 2; Star space; One (only (ch ")"))] b
      (url ++ ws2 ++ ch ")" :: post) e =
  Some (post, {| opened := (2, url ++ ws2 ++ ch ")" :: post) :: opened e;
                 closed := (2, url) :: closed e |}).
Proof.
  intros Hu Hc Hw. cbn [run].
  apply lazy_skip; [now apply solid_dots| |].
  - intros c rest b' Hin. cbn [run star].
    rewrite forallb_forall in Hu. specialize (Hu c Hin).
    apply negb_true_iff in Hu. unfold space at 1. rewrite Hu.
    destruct (close_group 2 (c :: rest) _). cbn [run].
    unfold only. now rewrite (absent_forall _ _ _ Hc Hin).
  - intros b'. cbn [run]. rewrite close_open.
    apply star_all; [exact Hw|reflexivity|].
    intros _. cbn [run]. unfold only. now rewrite N.eqb_refl.
Qed.

(** The white space before the target lies outside the group. *)
Lemma run_spaces_target (ws1 url ws2 post : str) (b : bool) (e : caps) :
  blank ws1 = true ->
  forallb (fun c => negb (isspace c)) url = true ->
  contains (ch ")") url = false ->
  blank ws2 = true ->
  exists e',
    run [Star space; Open 2; Lazy dot; Close 2; Star space; One (only (ch ")"))]
        b (ws1 ++ url ++ ws2 ++ ch ")" :: post) e = Some (post, e') /\
    closed e' = (2, url) :: closed e.
Proof.
  intros H1 Hu Hc H2. destruct url as [|c url].
  - eexists. split.
    + cbn [app run]. rewrite app_assoc. apply star_all.
      * change (blank (ws1 ++ ws2) = true). now rewrite blank_app, H1, H2.
      * reflexivity.
      * intros b'. exact (run_target [] [] post b' e eq_refl eq_refl eq_refl).
    + reflexivity.
  - eexists. split.
    + cbn [run]. apply star_all; [exact H1| |].
      * cbn [forallb] in Hu. apply andb_true_iff in Hu. apply Hu.
      * intros b'. exact (run_target (c :: url) ws2 post b' e Hu Hc H2).
    + reflexivity.
Qed.

(** The second pattern on a link. *)
Lemma run_link_target (label ws1 url ws2 post : str) (b : bool) :
  contains NL label = false ->
  contains (ch "]") label = false ->
  blank ws1 = true ->
  forallb (fun c => negb (isspace c)) url = true ->
  contains (ch ")") url = false ->
  blank ws2 = true ->
  exists e,
    run link_target b
        (ch "[" :: label ++ lit "](" ++ ws1 ++ url ++ ws2 ++ ch ")" :: post)
        no_caps = Some (post, e) /\
    closed e = [(2, url); (1, label)].
Proof.
  intros Hn Hl H1 Hu Hc H2.
  destruct (run_spaces_target ws1 url ws2 post false
              {| opened := [(1, label ++ lit "](" ++ ws1 ++ url ++ ws2 ++
                                  ch ")" :: post)];
                 closed := [(1, label)] |} H1 Hu Hc H2) as [e [R C]].
  exists e. split; [|exact C].
  unfold link_target, text. cbn [lit map app run].
  unfold only at 1. rewrite N.eqb_refl.
  apply lazy_skip; [now apply absent_dots| |].
  - intros c rest b' Hin.
    destruct (close_group 1 (c :: rest) _). cbn [run].
    unfold only at 1. now rewrite (absent_forall _ _ _ Hl Hin).
  - intros b'.
    rewrite (close_open 1 label _ no_caps).
    cbn [run]. unfold only at 1 2. rewrite !N.eqb_refl. exact R.
Qed.

(** X25.  A link whose label has no closing bracket and whose target has
    no white space and no closing parenthesis loses the white space around
    the target; the text before and after it is kept. *)
Theorem link_target_trimmed (cfg : config)
  (pre label ws1 url ws2 post : str) :
  get cfg "fix_urls" true = true ->
  contains (ch "[") pre = false -> contains (ch "!") pre = false ->
  contains NL label = false -> contains (ch "]") label = false ->
  contains (ch "!") label = false ->
  blank ws1 = true ->
  forallb (fun c => negb (isspace c)) url = true ->
  contains (ch ")") url = false -> contains (ch "!") url = false ->
  blank ws2 = true ->
  contains (ch "[") post = false ->
  fix_urls cfg
    (pre ++ lit "[" ++ label ++ lit "](" ++ ws1 ++ url ++ ws2 ++ lit ")" ++ post) =
  pre ++ lit "[" ++ label ++ lit "](" ++ url ++ lit ")" ++ post.
Proof.
  intros E Hp Hp' Hn Hl Hl' H1 Hu Hc Hu' H2 Hq.
  unfold fix_urls. rewrite E. cbn [negb].
  set (link := lit "[" ++ label ++ lit "](" ++ ws1 ++ url ++ ws2 ++ lit ")").
  assert (L : pre ++ lit "[" ++ label ++ lit "](" ++ ws1 ++ url ++ ws2 ++
              lit ")" ++ post = (pre ++ link) ++ post).
  { unfold link. cbn [lit]. now reassoc. }
  assert (A : contains (ch "!") (pre ++ link) = false).
  { unfold link. cbn [lit app].
    repeat (rewrite contains_app || rewrite contains_cons).
    rewrite Hp', Hl', Hu'.
    rewrite !(blank_absent (ch "!")) by (assumption || reflexivity).
    reflexivity. }
  rewrite L. unfold sub at 2.
  destruct (sub_pass (only (ch "!")) (tl image_target)
              [Txt (lit "!["); Ref 1; Txt (lit "]("); Ref 2; Txt (lit ")")]
              (pre ++ link) post true (absent_only _ _ A)) as [b1 S1].
  change (One (only (ch "!")) :: tl image_target) with image_target in S1.
  rewrite S1.
  replace (sub_from image_target
             [Txt (lit "!["); Ref 1; Txt (lit "]("); Ref 2; Txt (lit ")")]
             b1 0 post) with post
    by (symmetry; exact (sub_second_absent _ _ _ _ _ _ (absent_only _ _ Hq))).
  rewrite <- app_assoc. unfold sub.
  destruct (sub_pass (only (ch "[")) (tl link_target)
              [Txt (lit "["); Ref 1; Txt (lit "]("); Ref 2; Txt (lit ")")]
              pre (link ++ post) true (absent_only _ _ Hp)) as [b2 S2].
  change (One (only (ch "[")) :: tl link_target) with link_target in S2.
  rewrite S2. f_equal.
  destruct (run_link_target label ws1 url ws2 post b2 Hn Hl H1 Hu Hc H2)
    as [e [R C]].
  assert (M : link ++ post =
              ch "[" :: (label ++ lit "](" ++ ws1 ++ url ++ ws2 ++ [ch ")"]) ++
              post).
  { unfold link. cbn [lit]. now reassoc. }
  assert (M' : label ++ lit "](" ++ ws1 ++ url ++ ws2 ++ ch ")" :: post =
               (label ++ lit "](" ++ ws1 ++ url ++ ws2 ++ [ch ")"]) ++ post).
  { cbn [lit]. now reassoc. }
  rewrite M. rewrite M' in R.
  rewrite (sub_from_match _ _ _ _ _ _ _ R).
  unfold expand. rewrite C. cbn [flat_map find Nat.eqb lit app].
  rewrite ?app_nil_r.
  match goal with
  | |- context [sub_from link_target ?t false 0 post] =>
      replace (sub_from link_target t false 0 post) with post
        by (symmetry; exact (sub_first_absent _ _ _ _ _ (absent_only _ _ Hq)))
  end.
  now reassoc.
Qed.

Lemma link_target_trimmed_witness :
  fix_urls defaults (doc "see [the docs](  http://a.b/c?d $) now") =
  doc "see [the docs](http://a.b/c?d) now".
Proof.
  apply (link_target_trimmed defaults (lit "see ") (lit "the docs") (lit "  ")
           (lit "http://a.b/c?d") (doc " $") (lit " now")); reflexivity.
Defined.

End Links.

(** *** Images *)

Section Images.

Lemma strip_prefix_self (w s : str) : strip_prefix w (w ++ s) = Some s.
Proof.
  induction w as [|a w IH]; [reflexivity|].
  cbn [app strip_prefix]. now rewrite N.eqb_refl.
Qed.

(** A word without a closing parenthesis is matched before the next
    closing parenthesis. *)
Lemma strip_prefix_inside (w u post s' : str) :
  forallb inside w = true -> forallb inside u = true ->
  strip_prefix w (u ++ ch ")" :: post) = Some s' ->
  exists u', s' = u' ++ ch ")" :: post /\ forallb inside u' = true.
Proof.
  revert u; induction w as [|a w IH]; intros u Hw Hu H.
  - injection H as <-. now exists u.
  - cbn [forallb] in Hw. apply andb_true_iff in Hw. destruct Hw as [Ha Hw].
    destruct u as [|d u]; cbn [app strip_prefix] in H.
    + unfold inside in Ha. apply andb_true_iff in Ha. destruct Ha as [_ Ha].
      apply negb_true_iff in Ha. rewrite N.eqb_sym, Ha in H. discriminate H.
    + cbn [forallb] in Hu. apply andb_true_iff in Hu. destruct Hu as [_ Hu].
      destruct (d =? a)%N; [|discriminate H]. now apply (IH u).
Qed.

(** The alternatives, when every one that matches leads to the same end. *)
Lemma alt_good (ws : list str) (K : cont) (b : bool) (s : str) (e : caps)
  (post : str) :
  (forall w s' b', In w ws -> strip_prefix w s = Some s' ->
     exists e', K b' s' e = Some (post, e')) ->
  alt ws K b s e = None \/ exists e', alt ws K b s e = Some (post, e').
Proof.
  revert b; induction ws as [|w ws IH]; intros b H; [now left|].
  cbn [alt]. destruct (strip_prefix w s) as [s'|] eqn:E.
  - destruct (H w s' (b && Nat.eqb (List.length w) 0) (or_introl eq_refl) E)
      as [e' ->].
    right. now exists e'.
  - apply IH. intros w' s' b' Hin. apply H. now right.
Qed.

Lemma alt_some (ws : list str) (K : cont) (b : bool) (s : str) (e : caps)
  (post : str) (w s' : str) :
  In w ws -> strip_prefix w s = Some s' ->
  (forall w s' b', In w ws -> strip_prefix w s = Some s' ->
     exists e', K b' s' e = Some (post, e')) ->
  exists e', alt ws K b s e = Some (post, e').
Proof.
  intros Hin Hw H. revert b; induction ws as [|w0 ws IH]; intros b;
    [destruct Hin|].
  cbn [alt]. destruct (strip_prefix w0 s) as [s0|] eqn:E.
  - destruct (H w0 s0 (b && Nat.eqb (List.length w0) 0) (or_introl eq_refl) E)
      as [e' ->].
    now exists e'.
  - destruct Hin as [->|Hin]; [congruence|].
    apply IH; [exact Hin|]. intros w' s'' b' Hin'. apply H. now right.
Qed.

(** The end of the patterns, after the extension. *)
Lemma run_to_close (u post : str) (b : bool) (e : caps) :
  forallb inside u = true ->
  exists e',
    run [Close 1; Lazy dot; One (only (ch ")"))] b (u ++ ch ")" :: post) e =
    Some (post, e').
Proof.
  intros Hu. eexists. cbn [run]. apply lazy_skip.
  - apply forallb_forall. intros c Hc. rewrite forallb_forall in Hu.
    specialize (Hu c Hc). unfold inside in Hu.
    now apply andb_true_iff in Hu.
  - intros c rest b' Hc. rewrite forallb_forall in Hu.
    specialize (Hu c Hc). unfold inside in Hu.
    apply andb_true_iff in Hu. destruct Hu as [_ Hu].
    apply negb_true_iff in Hu. cbn [run]. unfold only. now rewrite Hu.
  - intros b'. cbn [run]. unfold only. now rewrite N.eqb_refl.
Qed.

Lemma raster_inside : forallb (forallb inside) raster = true.
Proof. reflexivity. Qed.

(** The patterns from the dot on: wherever they match, they end at the
    closing parenthesis. *)
Lemma run_from_dot (u post : str) (b : bool) (e : caps) :
  forallb inside u = true ->
  let r := run [One (only (ch ".")); Open 1; Alt raster; Close 1; Lazy dot;
                One (only (ch ")"))] b (u ++ ch ")" :: post) e in
  r = None \/ exists e', r = Some (post, e').
Proof.
  intros Hu r. subst r. destruct u as [|c u]; cbn [app run].
  - now left.
  - destruct (only (ch ".") c); [|now left].
    cbn [forallb] in Hu. apply andb_true_iff in Hu. destruct Hu as [_ Hu].
    apply alt_good. intros w s' b' Hw Hs.
    pose proof raster_inside as Hr. rewrite forallb_forall in Hr.
    destruct (strip_prefix_inside w u post s' (Hr w Hw) Hu Hs)
      as [u' [-> Hu']].
    now apply run_to_close.
Qed.

Lemma run_at_dot (ext tail post : str) (b : bool) (e : caps) :
  In ext raster -> forallb inside tail = true ->
  exists e',
    run [One (only (ch ".")); Open 1; Alt raster; Close 1; Lazy dot;
         One (only (ch ")"))] b (ch "." :: ext ++ tail ++ ch ")" :: post) e =
    Some (post, e').
Proof.
  intros He Ht. cbn [run]. unfold only at 1. rewrite N.eqb_refl.
  pose proof raster_inside as Hr. rewrite forallb_forall in Hr.
  apply (alt_some raster _ false _ _ post ext (tail ++ ch ")" :: post) He).
  - apply strip_prefix_self.
  - intros w s' b' Hw Hs. rewrite app_assoc in Hs.
    destruct (strip_prefix_inside w (ext ++ tail) post s' (Hr w Hw)) as
      [u' [-> Hu']]; [|exact Hs|now apply run_to_close].
    now rewrite forallb_app, (Hr ext He), Ht.
Qed.

(** The first pattern on an image. *)
Lemma run_pattern1 (label path ext tail post : str) (b : bool) :
  contains NL label = false -> contains (ch "]") label = false ->
  forallb inside path = true -> In ext raster ->
  forallb inside tail = true ->
  exists e,
    run pattern1 b
        (ch "!" :: (ch "[" :: label ++ lit "](" ++ path ++ ch "." :: ext ++
                    tail ++ [ch ")"]) ++ post) no_caps = Some (post, e).
Proof.
  intros Hn Hl Hp He Ht.
  assert (R : exists e,
             lazy dot (run [One (only (ch ".")); Open 1; Alt raster; Close 1;
                            Lazy dot; One (only (ch ")"))]) false
                  (path ++ ch "." :: ext ++ tail ++ ch ")" :: post) no_caps =
             Some (post, e)).
  { apply lazy_any.
    - apply forallb_forall. intros c Hc. rewrite forallb_forall in Hp.
      specialize (Hp c Hc). unfold inside in Hp.
      now apply andb_true_iff in Hp.
    - intros u1 u2 b' ->.
      replace (u2 ++ ch "." :: ext ++ tail ++ ch ")" :: post)
        with ((u2 ++ ch "." :: ext ++ tail) ++ ch ")" :: post) by (now reassoc).
      apply run_from_dot.
      pose proof raster_inside as Hr. rewrite forallb_forall in Hr.
      rewrite forallb_app in Hp. apply andb_true_iff in Hp.
      destruct Hp as [_ Hp]. rewrite forallb_app, Hp. cbn [forallb andb].
      rewrite forallb_app, (Hr ext He), Ht. reflexivity.
    - intros b'. now apply run_at_dot. }
  destruct R as [e R]. exists e.
  unfold pattern1, text. cbn [lit map app run].
  unfold only at 1 2. rewrite !N.eqb_refl.
  replace ((label ++ ch "]" :: ch "(" :: path ++ ch "." :: ext ++ tail ++
            [ch ")"]) ++ post)
    with (label ++ ch "]" :: ch "(" :: path ++ ch "." :: ext ++ tail ++
          ch ")" :: post) by (now reassoc).
  apply lazy_skip; [now apply absent_dots| |].
  - intros c rest b' Hin. cbn [run]. unfold only at 1.
    now rewrite (absent_forall _ _ _ Hl Hin).
  - intros b'. cbn [run]. unfold only at 1 2. rewrite !N.eqb_refl. exact R.
Qed.

Lemma inside_absent (s : str) :
  contains NL s = false -> contains (ch ")") s = false ->
  forallb inside s = true.
Proof.
  induction s as [|c s IH]; [reflexivity|].
  rewrite !contains_cons. intros H1 H2.
  apply orb_false_iff in H1. apply orb_false_iff in H2.
  destruct H1 as [Hn H1], H2 as [Hc H2]. cbn [forallb].
  unfold inside at 1, dot. rewrite (N.eqb_sym c NL), Hn.
  rewrite (N.eqb_sym c (ch ")")), Hc. now apply IH.
Qed.

(** X26.  An image whose path has one of the six raster extensions is
    deleted, and the text before and after it is kept, when the label has
    no closing bracket, the text between the parentheses has no closing
    parenthesis, neither holds a newline, and the text around the image
    has no exclamation mark and no opening angle bracket. *)
Theorem image_link_removed (cfg : config)
  (pre label path ext tail post : str) :
  get cfg "remove_image_links" true = true ->
  contains (ch "!") pre = false -> contains (ch "<") pre = false ->
  contains NL label = false -> contains (ch "]") label = false ->
  contains NL path = false -> contains (ch ")") path = false ->
  In ext raster ->
  contains NL tail = false -> contains (ch ")") tail = false ->
  contains (ch "!") post = false -> contains (ch "<") post = false ->
  remove_image_links cfg
    (pre ++ lit "![" ++ label ++ lit "](" ++ path ++ lit "." ++ ext ++ tail ++
     lit ")" ++ post) =
  pre ++ post.
Proof.
  intros E Hp1 Hp2 Hn Hl Hpn Hpc He Htn Htc Hq1 Hq2.
  unfold remove_image_links. rewrite E. cbn [negb].
  assert (A : contains (ch "!") (pre ++ post) = false)
    by now rewrite contains_app, Hp1, Hq1.
  assert (B : contains (ch "<") (pre ++ post) = false)
    by now rewrite contains_app, Hp2, Hq2.
  assert (F : sub pattern1 []
                (pre ++ lit "![" ++ label ++ lit "](" ++ path ++ lit "." ++
                 ext ++ tail ++ lit ")" ++ post) = pre ++ post).
  { unfold sub.
    destruct (sub_pass (only (ch "!")) (tl pattern1) []
                pre (lit "![" ++ label ++ lit "](" ++ path ++ lit "." ++
                     ext ++ tail ++ lit ")" ++ post) true
                (absent_only _ _ Hp1)) as [b1 S1].
    change (One (only (ch "!")) :: tl pattern1) with pattern1 in S1.
    rewrite S1. f_equal.
    destruct (run_pattern1 label path ext tail post b1 Hn Hl
                (inside_absent _ Hpn Hpc) He (inside_absent _ Htn Htc))
      as [e R].
    replace (lit "![" ++ label ++ lit "](" ++ path ++ lit "." ++ ext ++ tail ++
             lit ")" ++ post)
      with (ch "!" :: (ch "[" :: label ++ lit "](" ++ path ++ ch "." :: ext ++
                       tail ++ [ch ")"]) ++ post)
      by (cbn [lit]; now reassoc).
    rewrite (sub_from_match _ _ _ _ _ _ _ R). cbn [expand flat_map app].
    exact (sub_first_absent _ _ _ _ _ (absent_only _ _ Hq1)). }
  rewrite F. unfold sub.
  replace (sub_from pattern2 [] true 0 (pre ++ post)) with (pre ++ post)
    by (symmetry; exact (sub_first_absent _ _ _ _ _ (absent_only _ _ B))).
  exact (sub_first_absent _ _ _ _ _ (absent_only _ _ A)).
Qed.

Lemma image_link_removed_witness :
  remove_image_links defaults
    (doc "a ![fig. 1](img/x.v2.jpeg?w=3 'f') b$c") = doc "a  b$c".
Proof.
  apply (image_link_removed defaults (lit "a ") (lit "fig. 1") (lit "img/x.v2")
           (lit "jpeg") (lit "?w=3 'f'") (doc " b$c"));
    try reflexivity.
  right; left; reflexivity.
Defined.

End Images.

(** *** A table that is formatted again *)

Section TableGrowth.

Lemma split_one (sep : char) (l : str) :
  contains sep l = false -> split sep l = [l].
Proof.
  induction l as [|c l IH]; [reflexivity|].
  rewrite contains_cons. intros H. apply orb_false_iff in H.
  destruct H as [Hc Hl]. cbn [split]. rewrite N.eqb_sym, Hc.
  now rewrite (IH Hl).
Qed.

Lemma split_first (sep : char) (l r : str) :
  contains sep l = false -> split sep (l ++ sep :: r) = l :: split sep r.
Proof.
  induction l as [|c l IH]; [intros _; apply split_cons_sep|].
  rewrite contains_cons. intros H. apply orb_false_iff in H.
  destruct H as [Hc Hl]. cbn [app split]. rewrite N.eqb_sym, Hc.
  now rewrite (IH Hl).
Qed.

(** Joining fields and splitting again gives the fields back. *)
Lemma split_fields (sep : char) (fs : list str) :
  fs <> [] ->
  forallb (fun f => negb (contains sep f)) fs = true ->
  split sep (join [sep] fs) = fs.
Proof.
  induction fs as [|f fs IH]; [congruence|]. intros _ H.
  cbn [forallb] in H. apply andb_true_iff in H. destruct H as [Hf Hfs].
  apply negb_true_iff in Hf.
  destruct fs as [|f2 fs].
  - cbn [join]. now apply split_one.
  - change (join [sep] (f :: f2 :: fs)) with (f ++ sep :: join [sep] (f2 :: fs)).
    rewrite split_first by exact Hf.
    f_equal. apply IH; [discriminate|exact Hfs].
Qed.

Lemma strip_dashes (n : nat) : strip (times DASH n) = times DASH n.
Proof.
  unfold strip.
  assert (R : rstrip (times DASH n) = times DASH n).
  { induction n as [|n IH]; [reflexivity|].
    cbn [times repeat]. rewrite rstrip_cons. fold (times DASH n).
    rewrite IH. now destruct (times DASH n). }
  rewrite R. now destruct n.
Qed.

(** The fields of the second row are dashes. *)
Lemma dash_fields (ws : list nat) (k : nat) (cells : list str) :
  map (cell_text ws 1) (combine (seq k (List.length cells)) cells) =
  map (fun i => times DASH (nth i ws 0 + 2)) (seq k (List.length cells)).
Proof.
  revert k; induction cells as [|c cells IH]; intros k; [reflexivity|].
  cbn [List.length seq combine map]. now rewrite IH.
Qed.

(** The cells of the formatted second row are its fields. *)
Lemma dash_cells (ws : list nat) (line : str) :
  cells_of line <> [] ->
  cells_of (row_text ws (1, line)) =
  map (fun i => times DASH (nth i ws 0 + 2))
      (seq 0 (List.length (cells_of line))).
Proof.
  intros H. unfold row_text. cbn [fst snd]. rewrite cells_of_bracket.
  unfold enumerate. rewrite dash_fields, split_fields.
  - rewrite map_map. apply map_ext. intros i. apply strip_dashes.
  - intros E. apply map_eq_nil in E.
    apply (f_equal (@List.length nat)) in E. rewrite length_seq in E.
    destruct (cells_of line); [congruence|discriminate E].
  - apply forallb_forall. intros f Hf. apply in_map_iff in Hf.
    destruct Hf as [i [<- _]]. now rewrite contains_times.
Qed.

(** The formatter keeps the number of rows. *)
Lemma table_text_length (rows : list str) :
  List.length (table_text rows) = List.length rows.
Proof.
  unfold table_text. destruct (List.length rows <? 2); [reflexivity|].
  unfold enumerate. rewrite length_map, length_combine, length_seq. lia.
Qed.

(** The second row of a formatted block. *)
Lemma table_text_second (rows : list str) (line : str) :
  2 <= List.length rows ->
  nth_error rows 1 = Some line ->
  nth_error (table_text rows) 1 =
  Some (row_text (widths_from [] rows) (1, line)).
Proof.
  intros H Hl. unfold table_text.
  replace (List.length rows <? 2) with false
    by (symmetry; apply Nat.ltb_ge; exact H).
  unfold enumerate.
  erewrite map_nth_error; [|apply nth_error_enumerate; exact Hl].
  reflexivity.
Qed.

(** The widths of the formatted block, for the columns of the second
    row. *)
Lemma table_text_wider (rows : list str) (line : str) (i : nat) :
  2 <= List.length rows ->
  nth_error rows 1 = Some line ->
  i < List.length (cells_of line) ->
  nth i (widths_from [] rows) 0 + 2 <=
  nth i (widths_from [] (table_text rows)) 0.
Proof.
  intros H Hl Hi. set (ws := widths_from [] rows).
  pose proof (table_text_second rows line H Hl) as O. fold ws in O.
  pose proof (widths_from_wide (table_text rows) []
                (row_text ws (1, line)) i (nth_error_In _ _ O)) as W.
  rewrite dash_cells in W
    by (destruct (cells_of line); [inversion Hi|discriminate]).
  rewrite (nth_indep _ [] (times DASH (nth 0 ws 0 + 2))) in W
    by now rewrite length_map, length_seq.
  rewrite (map_nth (fun i => times DASH (nth i ws 0 + 2))) in W.
  rewrite seq_nth in W by exact Hi. cbn [Nat.add] in W.
  unfold times in W. now rewrite repeat_length in W.
Qed.

(** X27.  Formatting a table again widens it: in the widths computed for
    the formatted block, every column that the second row has is at least
    two characters wider than before, because the dashes of the second
    row are two characters longer than the column.  So no block with a
    cell in its second row is left as it is when it is formatted again. *)
Theorem table_widens (table_lines : list str) :
  2 <= List.length table_lines ->
  exists col_widths formatted_lines col_widths' again,
    widths_of table_lines = Ok col_widths /\
    _format_table_lines table_lines = Ok formatted_lines /\
    widths_of formatted_lines = Ok col_widths' /\
    _format_table_lines formatted_lines = Ok again /\
    forall line,
      nth_error table_lines 1 = Some line ->
      (forall i, i < List.length (cells_of line) ->
                 nth i col_widths 0 + 2 <= nth i col_widths' 0) /\
      (cells_of line <> [] -> again <> formatted_lines).
Proof.
  intros H.
  exists (widths_from [] table_lines), (table_text table_lines),
         (widths_from [] (table_text table_lines)),
         (table_text (table_text table_lines)).
  split; [apply widths_of_total|]. split; [apply format_table_lines_ok|].
  split; [apply widths_of_total|]. split; [apply format_table_lines_ok|].
  intros line Hl. split.
  - intros i Hi. exact (table_text_wider table_lines line i H Hl Hi).
  - intros Hc E.
    set (ws := widths_from [] table_lines) in *.
    set (ws' := widths_from [] (table_text table_lines)) in *.
    pose proof (table_text_second table_lines line H Hl) as O. fold ws in O.
    assert (H' : 2 <= List.length (table_text table_lines))
      by now rewrite table_text_length.
    pose proof (table_text_second _ _ H' O) as O'. fold ws' in O'.
    rewrite E, O in O'.
    assert (R : cells_of (row_text ws (1, line)) =
                cells_of (row_text ws' (1, row_text ws (1, line))))
      by congruence.
    clear O'. rename R into O'.
    assert (Hd : cells_of (row_text ws (1, line)) <> []).
    { rewrite dash_cells by exact Hc. intros N. apply map_eq_nil in N.
      apply (f_equal (@List.length nat)) in N. rewrite length_seq in N.
      destruct (cells_of line); [congruence|discriminate N]. }
    rewrite (dash_cells ws' (row_text ws (1, line)) Hd) in O'. rewrite !(dash_cells ws line Hc) in O'.
    rewrite length_map, length_seq in O'.
    assert (Hi : 0 < List.length (cells_of line))
      by (destruct (cells_of line); [congruence|cbn; lia]).
    pose proof (table_text_wider table_lines line 0 H Hl Hi) as G.
    fold ws ws' in G.
    destruct (List.length (cells_of line)) as [|m]; [lia|].
    cbn [seq map] in O'. injection O' as O' _.
    apply (f_equal (@List.length char)) in O'.
    unfold times in O'. rewrite !repeat_length in O'. lia.
Qed.

Lemma table_widens_witness :
  exists col_widths formatted_lines col_widths' again,
    widths_of [doc "|a|bc|"; doc "|-|-|"] = Ok col_widths /\
    _format_table_lines [doc "|a|bc|"; doc "|-|-|"] = Ok formatted_lines /\
    widths_of formatted_lines = Ok col_widths' /\
    _format_table_lines formatted_lines = Ok again /\
    forall line,
      nth_error [doc "|a|bc|"; doc "|-|-|"] 1 = Some line ->
      (forall i, i < List.length (cells_of line) ->
                 nth i col_widths 0 + 2 <= nth i col_widths' 0) /\
      (cells_of line <> [] -> again <> formatted_lines).
Proof.
  apply (table_widens [doc "|a|bc|"; doc "|-|-|"]). cbn [List.length]. lia.
Defined.

End TableGrowth.

(** *** Closed headings *)

Section ClosedHeadings.

(** The greedy [\s*] before a character that is no white space fails when
    the text after the white space does not start with it. *)
Lemma star_space_absent (a : char) (r : regex) (b : bool) (s : str)
  (e : caps) :
  isspace a = false -> startswith a (lstrip s) = false ->
  star space (run (One (only a) :: r)) b s e = None.
Proof.
  intros Ha. revert b; induction s as [|c s IH]; intros b H; [reflexivity|].
  cbn [star lstrip] in *. unfold space at 1.
  destruct (isspace c) eqn:Hc.
  - rewrite (IH false H). cbn [run]. unfold only.
    destruct (N.eqb_spec c a) as [->|]; [congruence|reflexivity].
  - cbn [run]. cbn [startswith] in H. unfold only. now rewrite H.
Qed.

(** Where the pattern matches nowhere in a prefix, the prefix is copied. *)
Lemma sub_from_pass (r : regex) (t : template) (pre s : str) (b : bool) :
  (forall u1 c u2 b', pre = u1 ++ c :: u2 ->
     run r b' (c :: u2 ++ s) no_caps = None) ->
  exists b', sub_from r t b 0 (pre ++ s) = pre ++ sub_from r t b' 0 s.
Proof.
  revert b; induction pre as [|c pre IH]; intros b H; [now exists b|].
  destruct (IH false) as [b' E].
  { intros u1 d u2 b' ->. now apply (H (c :: u1) d u2 b'). }
  exists b'. cbn [app]. rewrite sub_from_miss by now apply (H [] c pre b).
  now rewrite E.
Qed.

Lemma lstrip_before_char (u : str) (c : char) (r : str) :
  isspace c = false -> lstrip (u ++ c :: r) = lstrip u ++ c :: r.
Proof.
  intros H. induction u as [|a u IH]; cbn [app lstrip]; [now rewrite H|].
  now destruct (isspace a).
Qed.

(** No suffix of a text without markers and without white space at its
    end leads to a marker through white space. *)
Lemma suffix_no_marker (v : str) (d : char) (s : str) :
  isspace d = false -> contains HASH (v ++ [d]) = false ->
  startswith HASH (lstrip (v ++ d :: s)) = false.
Proof.
  intros Hd. induction v as [|a v IH]; cbn [app lstrip]; intros H.
  - rewrite Hd. cbn [startswith]. rewrite contains_cons in H.
    apply orb_false_iff in H. rewrite N.eqb_sym. apply H.
  - rewrite contains_cons in H. apply orb_false_iff in H.
    destruct H as [Ha Hv]. destruct (isspace a); [now apply IH|].
    cbn [startswith]. now rewrite N.eqb_sym.
Qed.

Lemma hashes_all (n : nat) : forallb (only HASH) (times HASH n) = true.
Proof. induction n as [|n IH]; [reflexivity|exact IH]. Qed.

Lemma blank_halts (w : str) : blank w = true -> halts (only HASH) w = true.
Proof.
  destruct w as [|c w]; [reflexivity|]. cbn [blank forallb halts].
  intros H. apply andb_true_iff in H. destruct H as [Hc _].
  unfold only. destruct (N.eqb_spec c HASH) as [E|]; [|reflexivity].
  rewrite E in Hc. discriminate Hc.
Qed.

(** [\s*#+\s*$] on the closing markers. *)
Lemma run_trailing_marks (w : str) (m : nat) (w' : str) (b : bool) :
  blank w = true -> blank w' = true ->
  run trailing_marks b (w ++ times HASH (S m) ++ w') no_caps =
  Some ([], no_caps).
Proof.
  intros Hw Hw'. unfold trailing_marks. cbn [run].
  apply star_all; [exact Hw|reflexivity|].
  intros _. cbn [times repeat app run]. unfold only at 1.
  rewrite N.eqb_refl. fold (times HASH m).
  apply star_all; [apply hashes_all|now apply blank_halts|].
  intros b'. cbn [run]. rewrite <- (app_nil_r w').
  apply star_all; [exact Hw'|reflexivity|]. reflexivity.
Qed.

(** [\s*#+\s*$] takes the closing markers, and the white space around
    them, off a text without other markers. *)
Lemma trailing_marks_off (y w : str) (m : nat) (w' : str) :
  rstrip y = y -> contains HASH y = false ->
  blank w = true -> blank w' = true ->
  sub trailing_marks [] (y ++ w ++ times HASH (S m) ++ w') = y.
Proof.
  intros Hy Hc Hw Hw'. unfold sub.
  destruct (sub_from_pass trailing_marks [] y
              (w ++ times HASH (S m) ++ w') true) as [b' E].
  { intros u1 c u2 b' Ey.
    apply (star_space_absent HASH [Star (only HASH); Star space; Eol] b' _
             no_caps eq_refl).
    destruct (@exists_last _ (c :: u2)) as [v [d Ev]]; [discriminate|].
    assert (Hd : isspace d = false).
    { apply (rstrip_last y (u1 ++ v)). rewrite Hy, Ey, Ev.
      now rewrite app_assoc. }
    change (c :: u2 ++ w ++ times HASH (S m) ++ w')
      with ((c :: u2) ++ w ++ times HASH (S m) ++ w').
    rewrite Ev, <- app_assoc. cbn [app].
    apply suffix_no_marker; [exact Hd|].
    rewrite <- Ev. rewrite Ey, contains_app in Hc.
    now apply orb_false_iff in Hc. }
  rewrite E.
  pose proof (run_trailing_marks w m w' b' Hw Hw') as R.
  destruct (w ++ times HASH (S m) ++ w') as [|c u] eqn:Es.
  - destruct w; discriminate Es.
  - rewrite <- (app_nil_r u) in R |- *.
    rewrite (sub_from_match _ _ _ _ _ _ _ R).
    cbn [expand flat_map app sub_from]. now rewrite app_nil_r.
Qed.

(** X28.  A closed heading, markers on both sides of a text that has none,
    comes out at level 1 whatever the number of markers: the closing
    markers and the white space around them are removed, and so are the
    opening ones before the level is counted. *)
Theorem closed_heading_flattened (k m : nat) (body w : str) :
  1 <= k -> 1 <= m ->
  body <> [] -> contains HASH body = false -> blank w = true ->
  normalize_line (times HASH k ++ body ++ times HASH m ++ w) =
  HASH :: SP :: strip body.
Proof.
  intros Hk Hm Hb Hc Hw.
  destruct k as [|k]; [lia|]. destruct m as [|m]; [lia|].
  unfold normalize_line.
  replace (startswith HASH
             (strip (times HASH (S k) ++ body ++ times HASH (S m) ++ w)))
    with true by (symmetry; apply strip_marked).
  rewrite leading_marks_off.
  2:{ destruct body as [|c body]; [congruence|].
      rewrite contains_cons in Hc. apply orb_false_iff in Hc.
      cbn [app startswith]. rewrite N.eqb_sym. apply Hc. }
  destruct (rstrip_tail (lstrip body)) as [t [Et Ht]].
  assert (L : lstrip (body ++ times HASH (S m) ++ w) =
              strip body ++ t ++ times HASH (S m) ++ w).
  { cbn [times repeat app]. rewrite lstrip_before_char by reflexivity.
    rewrite Et at 1. unfold strip. rewrite lstrip_rstrip.
    now rewrite <- app_assoc. }
  rewrite L.
  rewrite trailing_marks_off; [| | |exact Ht|exact Hw].
  - pose proof (contains_strip HASH body Hc) as Hs.
    rewrite Hs, remove_absent by exact Hs. now rewrite strip_idem.
  - apply rstrip_strip.
  - now apply contains_strip.
Qed.

Lemma closed_heading_flattened_witness :
  normalize_line (lit "### Title ## ") = lit "# Title".
Proof.
  apply (closed_heading_flattened 3 2 (lit " Title ") (lit " "));
    try reflexivity; try lia.
  discriminate.
Defined.

End ClosedHeadings.

(** *** Claim on shorthand rows *)

Section ShorthandRows.







End ShorthandRows.

(** *** Trailing white space, run by run *)

Section LineRuns.

(** [remove_trailing_whitespace] character by character: a white-space
    character is dropped when nothing but white space follows on its
    line. *)
Lemma rstrip_lines_cons (c : char) (s : str) :
  rstrip_lines (c :: s) =
  if (c =? NL)%N then NL :: rstrip_lines s
  else if isspace c && negb (ok_next (rstrip_lines s)) then rstrip_lines s
       else c :: rstrip_lines s.
Proof.
  unfold rstrip_lines. cbn [split].
  destruct (c =? NL)%N eqn:Ec.
  - cbn [map]. rewrite join_cons; [reflexivity|].
    intros E. apply map_eq_nil in E. now apply split_not_nil in E.
  - pose proof (split_lines s) as L.
    destruct (split NL s) as [|x xs] eqn:E; [now apply split_not_nil in E|].
    cbn [forallb] in L. apply andb_true_iff in L. destruct L as [Lx _].
    apply negb_true_iff in Lx. apply contains_rstrip in Lx.
    cbn [map]. rewrite rstrip_cons.
    destruct (rstrip x) as [|r0 r] eqn:Er.
    + destruct (map rstrip xs) as [|y ys]; cbn [join ok_next app negb];
        rewrite andb_true_r; now destruct (isspace c).
    + rewrite contains_cons in Lx. apply orb_false_iff in Lx.
      destruct Lx as [Lx _].
      destruct (map rstrip xs) as [|y ys]; cbn [join app ok_next];
        rewrite (N.eqb_sym r0 NL), Lx; cbn [negb];
        now rewrite andb_false_r.
Qed.

(** Of a run of white space at the end of the text, the newlines stay. *)
Lemma rstrip_lines_blank (w : str) :
  blank w = true -> rstrip_lines w = times NL (count NL w).
Proof.
  induction w as [|a w IH]; [reflexivity|]. intros H.
  destruct (blank_cons _ _ H) as [Ha Hw]. specialize (IH Hw).
  rewrite rstrip_lines_cons, count_cons, (N.eqb_sym NL a).
  destruct (a =? NL)%N.
  - now rewrite IH.
  - rewrite Ha, IH. cbn [Nat.add].
    now destruct (count NL w).
Qed.

(** A run of white space before a character: a run without a newline, or
    with one newline at its head only, stays as it is. *)
Lemma rstrip_lines_run (w : str) :
  blank w = true ->
  exists w',
    blank w' = true /\ (w = [] -> w' = []) /\ (w <> [] -> w' <> []) /\
    (contains NL (tl w) = false -> w' = w) /\
    forall d t, isspace d = false ->
                rstrip_lines (w ++ d :: t) = w' ++ d :: rstrip_lines t.
Proof.
  induction w as [|a w IH]; intros H.
  - exists []. repeat split; auto. intros d t Hd. cbn [app].
    rewrite rstrip_lines_cons, (space_not_newline d Hd), Hd. reflexivity.
  - destruct (blank_cons _ _ H) as [Ha Hw].
    destruct (IH Hw) as [w0 (B & N0 & N1 & C & E)].
    assert (C' : contains NL w = false -> w0 = w).
    { intros Hn. apply C. destruct w as [|b w]; [reflexivity|].
      rewrite contains_cons in Hn. now apply orb_false_iff in Hn. }
    cbn [tl]. destruct (a =? NL)%N eqn:Ea.
    + exists (NL :: w0). split; [exact B|].
      split; [discriminate|]. split; [discriminate|].
      split.
      * intros Hn. apply N.eqb_eq in Ea. subst a. now rewrite C'.
      * intros d t Hd. cbn [app].
        rewrite rstrip_lines_cons, Ea. now rewrite E.
    + destruct w0 as [|b v].
      * exists [a]. split; [now cbn; rewrite Ha|].
        split; [discriminate|]. split; [discriminate|].
        assert (w = []) as ->.
        { destruct w; [reflexivity|]. exfalso. now apply N1. }
        split; [reflexivity|].
        intros d t Hd. cbn [app].
        rewrite rstrip_lines_cons, Ea.
        specialize (E d t Hd). cbn [app] in E. rewrite E.
        cbn [ok_next]. rewrite (space_not_newline d Hd). cbn [negb].
        now rewrite andb_false_r.
      * destruct (b =? NL)%N eqn:Eb.
        -- exists (b :: v). split; [exact B|].
           split; [discriminate|]. split; [discriminate|].
           split.
           ++ intros Hn. specialize (C' Hn). subst w.
              rewrite contains_cons, N.eqb_sym, Eb in Hn. discriminate.
           ++ intros d t Hd. cbn [app].
              rewrite rstrip_lines_cons, Ea, E by exact Hd.
              cbn [app ok_next]. rewrite Eb, Ha. reflexivity.
        -- exists (a :: b :: v).
           split; [now cbn [blank forallb] in *; rewrite Ha|].
           split; [discriminate|]. split; [discriminate|].
           split.
           ++ intros Hn. now rewrite C'.
           ++ intros d t Hd. cbn [app].
              rewrite rstrip_lines_cons, Ea, E by exact Hd.
              cbn [app ok_next]. rewrite Eb. cbn [negb].
              now rewrite andb_false_r.
Qed.

End LineRuns.

(** *** Code fences that the stage leaves as they are *)

Section Guards.

Variable ok : str -> bool.

Lemma guarded_cons (k : nat) (c : char) (s : str) :
  guarded ok k (c :: s) =
  (if (3 <=? k) && isspace c then ok s else true) &&
  guarded ok (if (c =? tick)%N then S k else 0) s.
Proof. reflexivity. Qed.

Lemma space_not_tick (c : char) : isspace c = true -> (c =? tick)%N = false.
Proof.
  intros H. destruct (N.eqb_spec c tick) as [->|]; [|reflexivity].
  discriminate H.
Qed.

(** A character other than white space is passed without a check. *)
Lemma guarded_char (k : nat) (d : char) (s : str) :
  isspace d = false ->
  guarded ok k (d :: s) = guarded ok (if (d =? tick)%N then S k else 0) s.
Proof. intros H. rewrite guarded_cons, H, andb_false_r. reflexivity. Qed.

Lemma guarded_tick (k : nat) (s : str) :
  guarded ok k (tick :: s) = guarded ok (S k) s.
Proof. now rewrite guarded_char by reflexivity. Qed.

Lemma guarded_fence (k : nat) (s : str) :
  guarded ok k (lit "```" ++ s) = guarded ok (S (S (S k))) s.
Proof.
  change (lit "```" ++ s) with (tick :: tick :: tick :: s).
  now rewrite !guarded_tick.
Qed.

(** White space read away from a fence is passed without a check. *)
Lemma guarded_blank (w s : str) :
  blank w = true -> guarded ok 0 (w ++ s) = guarded ok 0 s.
Proof.
  induction w as [|a w IH]; [reflexivity|]. intros H.
  destruct (blank_cons _ _ H) as [Ha Hw]. cbn [app].
  rewrite guarded_cons. cbn [Nat.leb andb].
  rewrite (space_not_tick a Ha). now apply IH.
Qed.

(** White space read after [k] backquotes. *)
Lemma guarded_space (k : nat) (a : char) (s : str) :
  isspace a = true ->
  guarded ok k (a :: s) = (if 3 <=? k then ok s else true) && guarded ok 0 s.
Proof.
  intros H. rewrite guarded_cons, H, andb_true_r.
  now rewrite (space_not_tick a H).
Qed.

(** A run of white space after [k] backquotes, before a character. *)
Lemma guarded_run (k : nat) (a : char) (w : str) (d : char) (t : str) :
  isspace a = true -> blank w = true ->
  guarded ok k (a :: w ++ d :: t) =
  (if 3 <=? k then ok (w ++ d :: t) else true) && guarded ok 0 (d :: t).
Proof.
  intros Ha Hw. rewrite guarded_space by exact Ha.
  now rewrite guarded_blank by exact Hw.
Qed.

(** A run of white space after [k] backquotes, at the end of the text. *)
Lemma guarded_end (k : nat) (v : str) :
  blank v = true ->
  guarded ok k v =
  match v with
  | [] => true
  | _ :: v' => if 3 <=? k then ok v' else true
  end.
Proof.
  intros H. destruct v as [|a v]; [reflexivity|].
  destruct (blank_cons _ _ H) as [Ha Hv].
  rewrite guarded_space by exact Ha.
  rewrite <- (app_nil_r v) at 2. rewrite guarded_blank by exact Hv.
  apply andb_true_r.
Qed.

(** The text after the backquotes is guarded as a text of its own. *)
Lemma guarded_less (k : nat) (s : str) :
  guarded ok k s = true -> guarded ok 0 s = true.
Proof.
  assert (G : forall s k j, j <= k -> guarded ok k s = true ->
                            guarded ok j s = true).
  { clear s k. induction s as [|c s IH]; intros k j Hj H; [reflexivity|].
    rewrite guarded_cons in *. apply andb_true_iff in H.
    destruct H as [H1 H2]. apply andb_true_iff. split.
    - destruct ((3 <=? j) && isspace c) eqn:E; [|reflexivity].
      apply andb_true_iff in E. destruct E as [E1 E2].
      apply Nat.leb_le in E1.
      replace (3 <=? k) with true in H1
        by (symmetry; apply Nat.leb_le; lia).
      now rewrite E2 in H1.
    - destruct (c =? tick)%N.
      + apply (IH (S k)); [lia|exact H2].
      + exact H2. }
  apply G. lia.
Qed.

Lemma lead_run (w : str) (d : char) (t : str) :
  blank w = true -> isspace d = false -> lead (w ++ d :: t) = w.
Proof.
  intros Hw Hd. induction w as [|a w IH]; cbn [app lead].
  - now rewrite Hd.
  - destruct (blank_cons _ _ Hw) as [Ha Hw']. rewrite Ha. now rewrite IH.
Qed.

Lemma lead_all (w : str) : blank w = true -> lead w = w.
Proof.
  intros Hw. induction w as [|a w IH]; [reflexivity|]. cbn [lead].
  destruct (blank_cons _ _ Hw) as [Ha Hw']. rewrite Ha. now rewrite IH.
Qed.

(** What the check after a fence looks at: whether the white space that
    follows has a newline, and the first character after it. *)
Section Checks.

Hypothesis ok_nil : ok [] = true.
Hypothesis ok_from : forall s s',
    hd_error (lstrip s') = hd_error (lstrip s) ->
    (contains NL (lead s) = false -> contains NL (lead s') = false) ->
    ok s = true -> ok s' = true.

Lemma ok_run (w w' : str) (d : char) (t t' : str) :
  blank w = true -> blank w' = true -> isspace d = false ->
  (contains NL w = false -> contains NL w' = false) ->
  ok (w ++ d :: t) = true -> ok (w' ++ d :: t') = true.
Proof.
  intros Hw Hw' Hd C. apply ok_from.
  - now rewrite !lstrip_blank_app, !lstrip_char by assumption.
  - now rewrite !lead_run by assumption.
Qed.

Lemma ok_end (w w' : str) :
  blank w = true -> blank w' = true ->
  (contains NL w = false -> contains NL w' = false) ->
  ok w = true -> ok w' = true.
Proof.
  intros Hw Hw' C. apply ok_from.
  - now rewrite !lstrip_blank by assumption.
  - now rewrite !lead_all by assumption.
Qed.

(** A stage that works run by run: it keeps the characters that are no
    white space, puts white space where there was some, and adds no
    newline after the first character of a run that had none there. *)
Section RunWise.

Variable g : str -> str.

Hypothesis g_end : forall w,
    blank w = true ->
    blank (g w) = true /\
    (contains NL (tl w) = false -> contains NL (tl (g w)) = false).

Hypothesis g_run : forall w,
    blank w = true ->
    exists w',
      blank w' = true /\ (w = [] -> w' = []) /\ (w <> [] -> w' <> []) /\
      (contains NL (tl w) = false -> contains NL (tl w') = false) /\
      forall d t, isspace d = false -> g (w ++ d :: t) = w' ++ d :: g t.

Lemma guarded_run_wise (s : str) :
  forall k, guarded ok k s = true -> guarded ok k (g s) = true.
Proof.
  induction s as [w Hw|w d t Hw Hd IH] using runs_ind; intros k H.
  - destruct (g_end w Hw) as [B C].
    rewrite guarded_end in H by exact Hw. rewrite guarded_end by exact B.
    destruct (g w) as [|b v]; [reflexivity|].
    destruct (3 <=? k); [|reflexivity].
    destruct (blank_cons _ _ B) as [_ Bv]. cbn [tl] in C.
    destruct w as [|a w].
    + apply (ok_end [] v); auto.
    + destruct (blank_cons _ _ Hw) as [_ Hw']. apply (ok_end w v); auto.
  - destruct (g_run w Hw) as [w' (B & N0 & N1 & C & E)].
    rewrite E by exact Hd. destruct w as [|a w].
    + rewrite (N0 eq_refl). cbn [app] in *.
      rewrite guarded_char in * by exact Hd. now apply IH.
    + destruct w' as [|b v]; [now exfalso; apply N1|].
      destruct (blank_cons _ _ Hw) as [Ha Hw'].
      destruct (blank_cons _ _ B) as [Hb Hv]. cbn [app tl] in *.
      rewrite guarded_run in * by assumption.
      apply andb_true_iff in H. destruct H as [H1 H2].
      apply andb_true_iff. split.
      * destruct (3 <=? k); [|reflexivity].
        now apply (ok_run w v d t (g t)).
      * rewrite guarded_char in * by exact Hd. now apply IH.
Qed.

End RunWise.

(** [rstrip] works run by run. *)
Lemma guarded_rstrip (s : str) (k : nat) :
  guarded ok k s = true -> guarded ok k (rstrip s) = true.
Proof.
  apply guarded_run_wise.
  - intros w Hw. now rewrite rstrip_blank.
  - intros w Hw. exists w. repeat split; auto.
    intros d t Hd. rewrite rstrip_app_char by exact Hd.
    destruct (rstrip_char d t Hd) as [Y E].
    rewrite rstrip_cons in *. rewrite Hd in *.
    now destruct (rstrip t).
Qed.

(** So does [rstrip] followed by a newline. *)
Lemma guarded_close (s : str) (k : nat) :
  guarded ok k s = true -> guarded ok k (rstrip s ++ [NL]) = true.
Proof.
  apply (guarded_run_wise (fun s => rstrip s ++ [NL])).
  - intros w Hw. now rewrite rstrip_blank.
  - intros w Hw. exists w. repeat split; auto.
    intros d t Hd. rewrite rstrip_app_char by exact Hd.
    rewrite rstrip_cons. rewrite Hd.
    rewrite <- app_assoc. now destruct (rstrip t).
Qed.

Lemma count_tail (w : str) : contains NL (tl w) = false -> count NL w <= 1.
Proof.
  destruct w as [|c w]; [cbn; lia|]. cbn [tl]. intros H.
  rewrite count_cons.
  assert (count NL w = 0).
  { destruct (count NL w) eqn:E; [reflexivity|].
    rewrite count_contains in H by lia. discriminate. }
  destruct (NL =? c)%N; lia.
Qed.

Lemma squeeze_nil (w : str) : w <> [] -> squeeze w <> [].
Proof.
  destruct w as [|c w]; [congruence|]. intros _. cbn [squeeze].
  destruct (c =? NL)%N; [|discriminate].
  destruct (cut2 w); discriminate.
Qed.

Lemma squeeze_tail (w : str) :
  contains NL (tl w) = false -> contains NL (tl (squeeze w)) = false.
Proof.
  intros H. rewrite squeeze_few; [exact H|].
  apply count_tail in H. lia.
Qed.

(** So does the pattern on blank lines. *)
Lemma guarded_collapse (s : str) (k : nat) :
  guarded ok k s = true -> guarded ok k (collapse s) = true.
Proof.
  apply guarded_run_wise.
  - intros w Hw. rewrite collapse_blank by exact Hw.
    split; [now apply squeeze_blank|apply squeeze_tail].
  - intros w Hw. exists (squeeze w).
    split; [now apply squeeze_blank|].
    split; [now intros ->|].
    split; [apply squeeze_nil|].
    split; [apply squeeze_tail|].
    intros d t Hd. now apply collapse_run_char.
Qed.

(** So does the trimming of the lines. *)
Lemma guarded_rstrip_lines (s : str) (k : nat) :
  guarded ok k s = true -> guarded ok k (rstrip_lines s) = true.
Proof.
  apply guarded_run_wise.
  - intros w Hw. rewrite rstrip_lines_blank by exact Hw.
    split; [apply blank_newlines|]. intros H. apply count_tail in H.
    destruct (count NL w) as [|[|n]]; [reflexivity|reflexivity|lia].
  - intros w Hw. destruct (rstrip_lines_run w Hw) as [w' (B & N0 & N1 & C & E)].
    exists w'. repeat split; auto. intros H. now rewrite (C H).
Qed.

Lemma guarded_lstrip (s : str) :
  guarded ok 0 s = true -> guarded ok 0 (lstrip s) = true.
Proof.
  intros H. rewrite (lead_lstrip s) in H.
  now rewrite guarded_blank in H by apply lead_blank.
Qed.

(** The three stages on white space keep a text guarded. *)
Lemma guarded_trailing (cfg : config) (s : str) (k : nat) :
  guarded ok k s = true ->
  guarded ok k (remove_trailing_whitespace cfg s) = true.
Proof.
  intros H. unfold remove_trailing_whitespace.
  destruct (negb _); [exact H|]. now apply guarded_rstrip_lines.
Qed.

Lemma guarded_empty (cfg : config) (s : str) :
  guarded ok 0 s = true -> guarded ok 0 (remove_empty_lines cfg s) = true.
Proof.
  intros H. destruct (get cfg "remove_empty_lines" true) eqn:E.
  - rewrite remove_empty_lines_on by exact E.
    replace (collapse (strip s)) with (rstrip (collapse (strip s)))
      by now rewrite rstrip_collapse, rstrip_strip.
    apply guarded_close, guarded_collapse. unfold strip.
    now apply guarded_lstrip, guarded_rstrip.
  - unfold remove_empty_lines. now rewrite E.
Qed.

Lemma guarded_final (cfg : config) (s : str) (k : nat) :
  guarded ok k s = true -> guarded ok k (add_final_newline cfg s) = true.
Proof.
  intros H. unfold add_final_newline.
  destruct (negb _); [exact H|]. now apply guarded_close.
Qed.

End Checks.

(** White space right after a fence passes the check. *)
Lemma guarded_at (pre : str) (a : char) (s : str) (k : nat) :
  guarded ok k (pre ++ lit "```" ++ a :: s) = true ->
  isspace a = true -> ok s = true.
Proof.
  revert k; induction pre as [|c pre IH]; intros k H Ha.
  - cbn [app] in H. rewrite guarded_fence, guarded_space in H by exact Ha.
    cbn [Nat.leb] in H. now apply andb_true_iff in H.
  - cbn [app] in H. rewrite guarded_cons in H.
    apply andb_true_iff in H. destruct H as [_ H]. now apply IH in H.
Qed.

(** Characters other than white space and backquotes, read away from a
    fence. *)
Lemma guarded_others (u s : str) :
  forallb (fun c => negb (isspace c) && negb (c =? tick)%N) u = true ->
  guarded ok 0 (u ++ s) = guarded ok 0 s.
Proof.
  induction u as [|c u IH]; [reflexivity|]. cbn [forallb app]. intros H.
  apply andb_true_iff in H. destruct H as [Hc Hu].
  apply andb_true_iff in Hc. destruct Hc as [H1 H2].
  apply negb_true_iff in H1, H2.
  rewrite guarded_char by exact H1. rewrite H2. now apply IH.
Qed.

End Guards.

Lemma halts_head (p : char -> bool) (a b : str) :
  hd_error a = hd_error b -> halts p a = halts p b.
Proof. destruct a, b; cbn; congruence. Qed.

Lemma wordless_from (p : char -> bool) (s s' : str) :
  hd_error (lstrip s') = hd_error (lstrip s) ->
  (contains NL (lead s) = false -> contains NL (lead s') = false) ->
  wordless p s = true -> wordless p s' = true.
Proof. intros E _. unfold wordless. now rewrite (halts_head p _ _ E). Qed.

Lemma lineless_from (s s' : str) :
  hd_error (lstrip s') = hd_error (lstrip s) ->
  (contains NL (lead s) = false -> contains NL (lead s') = false) ->
  lineless s = true -> lineless s' = true.
Proof.
  intros _ C H. unfold lineless in *. apply negb_true_iff in H.
  apply negb_true_iff. now apply C.
Qed.

(** *** What the patterns on code fences match *)

Section FenceMatches.

Variable uni_alnum : char -> bool.

(** No white-space character is alphanumeric in the Unicode database. *)
Hypothesis space_not_alnum : forall c, isspace c = true -> uni_alnum c = false.

Lemma word_not_space (c : char) :
  word uni_alnum c = true -> isspace c = false.
Proof.
  intros W. destruct (isspace c) eqn:E; [|reflexivity].
  pose proof (space_not_alnum c E) as U. unfold word in W.
  rewrite U, andb_false_r, orb_false_r in W. unfold isspace in E.
  repeat (rewrite orb_true_iff in W || rewrite andb_true_iff in W ||
          rewrite N.leb_le in W || rewrite N.eqb_eq in W).
  repeat (rewrite orb_true_iff in E || rewrite andb_true_iff in E ||
          rewrite N.leb_le in E || rewrite N.eqb_eq in E).
  lia.
Qed.

(** A greedy repetition that matched took some characters of its class
    and left the rest to what follows. *)
Lemma star_inv (p : char -> bool) (K : cont) (s : str) (b : bool) (e : caps)
  (x : str * caps) :
  star p K b s e = Some x ->
  exists u t b', s = u ++ t /\ forallb p u = true /\ K b' t e = Some x.
Proof.
  revert b; induction s as [|c s IH]; intros b H; cbn [star] in H.
  - now exists [], [], b.
  - destruct (p c) eqn:Pc; [|now exists [], (c :: s), b].
    destruct (star p K false s e) as [y|] eqn:S;
      [|now exists [], (c :: s), b].
    injection H as ->. destruct (IH false S) as (u & t & b' & -> & Hu & HK).
    exists (c :: u), t, b'. cbn [forallb app]. now rewrite Pc, Hu.
Qed.

(** Where white space and a newline do not match, the white space ahead
    has no newline. *)
Lemma star_newline_none (s : str) (b : bool) (e : caps) :
  star space (run [One (only NL)]) b s e = None ->
  contains NL (lead s) = false.
Proof.
  revert b; induction s as [|c s IH]; intros b H; [reflexivity|].
  cbn [star lead] in *. unfold space in H.
  destruct (isspace c) eqn:Ec; [|reflexivity].
  destruct (star isspace (run [One (only NL)]) false s e) eqn:S;
    [discriminate|].
  rewrite contains_cons, (IH false S), orb_false_r, N.eqb_sym.
  cbn [run] in H. unfold only in H.
  destruct (c =? NL)%N; [discriminate|reflexivity].
Qed.

(** White space and a newline, matched greedily: the newline is the last
    one of the run. *)
Lemma star_newline_inv (s : str) (b : bool) (e : caps) (rest : str)
  (e' : caps) :
  star space (run [One (only NL)]) b s e = Some (rest, e') ->
  exists w, s = w ++ NL :: rest /\ blank w = true /\
            contains NL (lead rest) = false.
Proof.
  revert b; induction s as [|c s IH]; intros b H; [discriminate|].
  cbn [star] in H. unfold space in H.
  assert (K : run [One (only NL)] b (c :: s) e = Some (rest, e') ->
              star isspace (run [One (only NL)]) false s e = None \/
              isspace c = false ->
              exists w, c :: s = w ++ NL :: rest /\ blank w = true /\
                        contains NL (lead rest) = false).
  { cbn [run]. unfold only. intros R N.
    destruct (N.eqb_spec c NL) as [->|]; [|discriminate].
    injection R as <- _. exists []. repeat split.
    destruct N as [N|N]; [|discriminate].
    now apply star_newline_none in N. }
  destruct (isspace c) eqn:Ec; [|now apply K; [|right]].
  destruct (star isspace (run [One (only NL)]) false s e) as [y|] eqn:S;
    [|now apply K; [|left]].
  injection H as ->. destruct (IH false S) as (w & -> & Hw & Hn).
  exists (c :: w). cbn [app blank forallb]. now rewrite Ec.
Qed.

(** The first pattern matched: a fence, white space, a word. *)
Lemma tag_inv (b : bool) (s rest : str) (e : caps) :
  run (fence_tag uni_alnum) b s no_caps = Some (rest, e) ->
  exists w c wd,
    s = lit "```" ++ w ++ c :: wd ++ rest /\ blank w = true /\
    word uni_alnum c = true /\ forallb (word uni_alnum) wd = true /\
    expand [Txt (lit "```"); Ref 1] e = lit "```" ++ c :: wd.
Proof.
  unfold fence_tag, text. cbn [lit map app run]. unfold only.
  destruct s as [|c1 [|c2 [|c3 s]]]; try discriminate;
    try (destruct (c1 =? _)%N; discriminate);
    try (destruct (c1 =? _)%N; [destruct (c2 =? _)%N|]; discriminate).
  destruct (N.eqb_spec c1 (ch "`")) as [->|]; [|discriminate].
  destruct (N.eqb_spec c2 (ch "`")) as [->|]; [|discriminate].
  destruct (N.eqb_spec c3 (ch "`")) as [->|]; [|discriminate].
  intros H. apply star_inv in H. destruct H as (w & t & b' & -> & Hw & H).
  cbn [run] in H. destruct t as [|c t]; [discriminate|].
  destruct (word uni_alnum c) eqn:Hc; [|discriminate].
  apply star_inv in H. destruct H as (wd & t' & b'' & -> & Hwd & H).
  cbn [run] in H. injection H as <- <-.
  exists w, c, wd. repeat split; try assumption.
  change (c :: wd ++ t') with ((c :: wd) ++ t').
  rewrite (close_open 1 (c :: wd) t' no_caps).
  cbn [expand flat_map closed find Nat.eqb]. now rewrite app_nil_r.
Qed.

(** The second pattern matched: a fence, white space, its last newline. *)
Lemma end_inv (b : bool) (s rest : str) (e : caps) :
  run fence_end b s no_caps = Some (rest, e) ->
  exists w, s = lit "```" ++ w ++ NL :: rest /\ blank w = true /\
            contains NL (lead rest) = false.
Proof.
  unfold fence_end, text. cbn [lit map app run]. unfold only.
  destruct s as [|c1 [|c2 [|c3 s]]]; try discriminate;
    try (destruct (c1 =? _)%N; discriminate);
    try (destruct (c1 =? _)%N; [destruct (c2 =? _)%N|]; discriminate).
  destruct (N.eqb_spec c1 (ch "`")) as [->|]; [|discriminate].
  destruct (N.eqb_spec c2 (ch "`")) as [->|]; [|discriminate].
  destruct (N.eqb_spec c3 (ch "`")) as [->|]; [|discriminate].
  intros H. apply star_newline_inv in H. destruct H as (w & -> & Hw & Hn).
  now exists w.
Qed.

(** A text is a word followed by a text that does not go on with one. *)
Lemma word_span (p : char -> bool) (t : str) :
  exists u v, t = u ++ v /\ forallb p u = true /\ halts p v = true.
Proof.
  induction t as [|c t (u & v & -> & Hu & Hv)]; [now exists [], []|].
  destruct (p c) eqn:Pc.
  - exists (c :: u), v. cbn [app forallb]. now rewrite Pc, Hu.
  - exists [], (c :: u ++ v). cbn [halts]. now rewrite Pc.
Qed.

(** Where the first pattern does not match after a fence, no word follows
    the white space. *)
Lemma tag_fails (b : bool) (s : str) :
  run (fence_tag uni_alnum) b (lit "```" ++ s) no_caps = None ->
  wordless (word uni_alnum) s = true.
Proof.
  intros H. unfold wordless. destruct (lstrip s) as [|d t] eqn:L;
    [reflexivity|].
  cbn [halts]. destruct (word uni_alnum d) eqn:Hd; [|reflexivity].
  exfalso. destruct (word_span (word uni_alnum) t) as (u & v & -> & Hu & Hv).
  rewrite (lead_lstrip s), L in H.
  rewrite (run_fence_tag uni_alnum (lead s) d u v b) in H.
  - discriminate.
  - apply lead_blank.
  - cbn [forallb]. now rewrite Hd, Hu.
  - now apply word_not_space.
  - exact Hv.
Qed.

(** Where the second pattern does not match after a fence, the white space
    has no newline. *)
Lemma end_fails (b : bool) (s : str) :
  run fence_end b (lit "```" ++ s) no_caps = None -> lineless s = true.
Proof.
  unfold fence_end, text. cbn [lit map app run]. unfold only.
  rewrite !N.eqb_refl. intros H. apply star_newline_none in H.
  unfold lineless. now rewrite H.
Qed.

End FenceMatches.

(** *** What the code-fence stage returns *)

Section Heads.

(** A pattern that starts with a backquote, replaced by a text that starts
    with one. *)
Variable r' : regex.
Variable t : template.
Hypothesis t_tick : forall e, startswith tick (expand t e) = true.

(** The substitution keeps the white space at the head of the text, and
    the character after it. *)
Lemma sub_lead (s : str) (b : bool) :
  lead (sub_from (One (only tick) :: r') t b 0 s) = lead s /\
  hd_error (lstrip (sub_from (One (only tick) :: r') t b 0 s)) =
  hd_error (lstrip s).
Proof.
  revert b; induction s as [|c s IH]; intros b; [now cbn|].
  destruct (isspace c) eqn:Ec.
  - rewrite sub_from_miss
      by (cbn [run]; unfold only; now rewrite (space_not_tick c Ec)).
    cbn [lead lstrip]. rewrite Ec. destruct (IH false) as [I1 I2].
    now rewrite I1, I2.
  - cbn [lead lstrip]. rewrite Ec. cbn [hd_error sub_from].
    destruct (run _ b (c :: s) no_caps) as [[rest e]|] eqn:R.
    + assert (c = tick) as ->.
      { cbn [run] in R. unfold only in R.
        destruct (N.eqb_spec c tick); [assumption|discriminate]. }
      specialize (t_tick e). destruct (expand t e) as [|x X]; [discriminate|].
      cbn [startswith] in t_tick. apply N.eqb_eq in t_tick. subst x.
      now destruct (List.length (tick :: s) - List.length rest).
    + cbn [lead lstrip]. now rewrite Ec.
Qed.

End Heads.

(** A substitution changes nothing where every match is replaced by the
    text that it matched. *)
Lemma sub_fixed (r : regex) (t : template) (n : nat) :
  forall s, List.length s <= n ->
    (forall pre suf b rest e,
        s = pre ++ suf -> run r b suf no_caps = Some (rest, e) ->
        exists m, m <> [] /\ suf = m ++ rest /\ expand t e = m) ->
    forall b, sub_from r t b 0 s = s.
Proof.
  induction n as [|n IH]; intros s Hn Q b.
  - destruct s; [|cbn in Hn; lia]. cbn [sub_from].
    destruct (run r b [] no_caps) as [[rest e]|] eqn:R; [|reflexivity].
    destruct (Q [] [] b rest e eq_refl R) as (m & Hm & E & _).
    symmetry in E. apply app_eq_nil in E. now destruct E.
  - destruct s as [|c s].
    { cbn [sub_from].
      destruct (run r b [] no_caps) as [[rest e]|] eqn:R; [|reflexivity].
      destruct (Q [] [] b rest e eq_refl R) as (m & Hm & E & _).
      symmetry in E. apply app_eq_nil in E. now destruct E. }
    destruct (run r b (c :: s) no_caps) as [[rest e]|] eqn:R.
    + destruct (Q [] (c :: s) b rest e eq_refl R) as (m & Hm & E & X).
      destruct m as [|c' u]; [congruence|]. cbn [app] in E.
      injection E as <- ->.
      rewrite (sub_from_match _ _ _ _ _ _ _ R), X. cbn [app]. f_equal.
      f_equal. apply IH.
      * cbn [List.length] in Hn. rewrite length_app in Hn. lia.
      * intros pre suf b' rest' e' E. apply (Q ((c :: u) ++ pre)).
        rewrite E. now rewrite <- app_assoc.
    + rewrite sub_from_miss by exact R. f_equal. apply IH.
      * cbn [List.length] in Hn. lia.
      * intros pre suf b' rest' e' E. apply (Q (c :: pre)). now rewrite E.
Qed.

Lemma times_snoc (c : char) (n : nat) (s : str) :
  times c (S n) ++ s = times c n ++ c :: s.
Proof.
  induction n as [|n IH]; [reflexivity|].
  change (times c (S (S n)) ++ s) with (c :: (times c (S n) ++ s)).
  now rewrite IH.
Qed.

(** One more character read: the pattern stays unmatched after the
    backquotes before the rest of the text. *)
Lemma unmatched_next (r : regex) (k : nat) (c : char) (s : str) :
  unmatched r k (c :: s) ->
  run r false (c :: s) no_caps = None ->
  unmatched r (if (c =? tick)%N then S k else 0) s.
Proof.
  intros U R. destruct (N.eqb_spec c tick) as [->|_].
  - intros j J1 J3 Jk. destruct j as [|[|j]]; [lia|exact R|].
    rewrite times_snoc. apply U; lia.
  - intros j J1 J3 Jk. lia.
Qed.

Lemma unmatched_none (r : regex) (s : str) : unmatched r 0 s.
Proof. intros j J1 J3 Jk. lia. Qed.

Section FenceScan.

Variable uni_alnum : char -> bool.

(** No white-space character is alphanumeric in the Unicode database. *)
Hypothesis space_not_alnum : forall c, isspace c = true -> uni_alnum c = false.

Lemma word_other (u : str) :
  forallb (word uni_alnum) u = true ->
  forallb (fun c => negb (isspace c) && negb (c =? tick)%N) u = true.
Proof.
  induction u as [|c u IH]; [reflexivity|]. cbn [forallb]. intros H.
  apply andb_true_iff in H. destruct H as [Hc Hu].
  rewrite (word_not_space uni_alnum space_not_alnum c Hc).
  change tick with (ch "`"). rewrite (word_not_tick uni_alnum c Hc).
  now apply IH.
Qed.

Lemma tag_head (s : str) (b : bool) :
  lead (sub_from (fence_tag uni_alnum) [Txt (lit "```"); Ref 1] b 0 s) =
  lead s /\
  hd_error
    (lstrip (sub_from (fence_tag uni_alnum) [Txt (lit "```"); Ref 1] b 0 s)) =
  hd_error (lstrip s).
Proof.
  apply (sub_lead [One (only tick); One (only tick); Star space; Open 1;
                   One (word uni_alnum); Star (word uni_alnum); Close 1]).
  reflexivity.
Qed.

Lemma end_head (s : str) (b : bool) :
  lead (sub_from fence_end [Txt (lit "```" ++ [NL])] b 0 s) = lead s /\
  hd_error (lstrip (sub_from fence_end [Txt (lit "```" ++ [NL])] b 0 s)) =
  hd_error (lstrip s).
Proof.
  apply (sub_lead [One (only tick); One (only tick); Star space;
                   One (only NL)]).
  reflexivity.
Qed.

(** After the first substitution, no word stands after the white space
    that follows a fence. *)
Lemma tag_guarded (n : nat) :
  forall y k b,
    List.length y <= n -> unmatched (fence_tag uni_alnum) k y ->
    guarded (wordless (word uni_alnum)) k
      (sub_from (fence_tag uni_alnum) [Txt (lit "```"); Ref 1] b 0 y) = true.
Proof.
  induction n as [|n IH]; intros y k b Hn U.
  - destruct y; [reflexivity|cbn in Hn; lia].
  - destruct y as [|c y]; [reflexivity|].
    destruct (run (fence_tag uni_alnum) b (c :: y) no_caps) as [[rest e]|] eqn:R.
    + destruct (tag_inv _ _ _ _ _ R) as (w & c1 & wd & E & Hw & Hc & Hwd & X).
      assert (E' : c :: y = tick :: (tick :: tick :: w ++ c1 :: wd) ++ rest).
      { rewrite E. cbn [lit app]. now rewrite <- app_assoc. }
      rewrite E' in R |- *. rewrite (sub_from_match _ _ _ _ _ _ _ R), X.
      rewrite <- app_assoc, guarded_fence. cbn [app].
      rewrite guarded_char
        by (now apply (word_not_space uni_alnum space_not_alnum)).
      change tick with (ch "`"). rewrite (word_not_tick uni_alnum c1 Hc).
      rewrite guarded_others by now apply word_other.
      apply IH; [|apply unmatched_none].
      rewrite E' in Hn. cbn [List.length] in Hn. rewrite length_app in Hn. lia.
    + rewrite sub_from_miss by exact R. rewrite guarded_cons.
      apply andb_true_iff. split.
      * destruct ((3 <=? k) && isspace c) eqn:G; [|reflexivity].
        apply andb_true_iff in G. destruct G as [G1 G2].
        apply Nat.leb_le in G1.
        destruct (tag_head y false) as [_ T]. unfold wordless.
        rewrite (halts_head _ _ _ T).
        pose proof (tag_fails uni_alnum space_not_alnum false (c :: y)
                      (U 3 ltac:(lia) ltac:(lia) G1)) as F.
        unfold wordless in F. cbn [lstrip] in F. now rewrite G2 in F.
      * apply IH; [cbn [List.length] in Hn; lia|].
        now apply unmatched_next.
Qed.

(** After the second substitution, white space after a fence has a
    newline at its head at most. *)
Lemma end_guarded (n : nat) :
  forall y k b,
    List.length y <= n -> unmatched fence_end k y ->
    guarded lineless k
      (sub_from fence_end [Txt (lit "```" ++ [NL])] b 0 y) = true.
Proof.
  induction n as [|n IH]; intros y k b Hn U.
  - destruct y; [reflexivity|cbn in Hn; lia].
  - destruct y as [|c y]; [reflexivity|].
    destruct (run fence_end b (c :: y) no_caps) as [[rest e]|] eqn:R.
    + destruct (end_inv _ _ _ _ R) as (w & E & Hw & Hl).
      assert (E' : c :: y = tick :: (tick :: tick :: w ++ [NL]) ++ rest).
      { rewrite E. cbn [lit app]. now rewrite <- app_assoc. }
      rewrite E' in R |- *. rewrite (sub_from_match _ _ _ _ _ _ _ R).
      cbn [expand flat_map]. rewrite app_nil_r, <- !app_assoc, guarded_fence.
      cbn [app]. rewrite guarded_space by reflexivity. cbn [Nat.leb].
      apply andb_true_iff. split.
      * destruct (end_head rest false) as [L _]. unfold lineless.
        now rewrite L, Hl.
      * apply IH; [|apply unmatched_none].
        rewrite E' in Hn. cbn [List.length] in Hn.
        rewrite length_app in Hn. lia.
    + rewrite sub_from_miss by exact R. rewrite guarded_cons.
      apply andb_true_iff. split.
      * destruct ((3 <=? k) && isspace c) eqn:G; [|reflexivity].
        apply andb_true_iff in G. destruct G as [G1 G2].
        apply Nat.leb_le in G1.
        destruct (end_head y false) as [L _]. unfold lineless. rewrite L.
        pose proof (end_fails false (c :: y)
                      (U 3 ltac:(lia) ltac:(lia) G1)) as F.
        unfold lineless in F. cbn [lead] in F. rewrite G2 in F.
        rewrite contains_cons in F. apply negb_true_iff in F.
        apply orb_false_iff in F. destruct F as [_ F]. now rewrite F.
      * apply IH; [cbn [List.length] in Hn; lia|].
        now apply unmatched_next.
Qed.

(** The second substitution keeps what the first one made. *)
Lemma end_keeps (ok : str -> bool) (n : nat) :
  (forall s s',
      hd_error (lstrip s') = hd_error (lstrip s) ->
      (contains NL (lead s) = false -> contains NL (lead s') = false) ->
      ok s = true -> ok s' = true) ->
  forall y k b,
    List.length y <= n -> guarded ok k y = true ->
    guarded ok k (sub_from fence_end [Txt (lit "```" ++ [NL])] b 0 y) = true.
Proof.
  intros ok_from. induction n as [|n IH]; intros y k b Hn G.
  - destruct y; [reflexivity|cbn in Hn; lia].
  - destruct y as [|c y]; [reflexivity|].
    destruct (run fence_end b (c :: y) no_caps) as [[rest e]|] eqn:R.
    + destruct (end_inv _ _ _ _ R) as (w & E & Hw & Hl).
      assert (E' : c :: y = tick :: (tick :: tick :: w ++ [NL]) ++ rest).
      { rewrite E. cbn [lit app]. now rewrite <- app_assoc. }
      rewrite E in G. rewrite guarded_fence in G.
      rewrite E' in R |- *. rewrite (sub_from_match _ _ _ _ _ _ _ R).
      cbn [expand flat_map]. rewrite app_nil_r, <- !app_assoc, guarded_fence.
      cbn [app]. rewrite guarded_space by reflexivity. cbn [Nat.leb].
      destruct (end_head rest false) as [L T].
      assert (B : blank (w ++ [NL]) = true)
        by (rewrite blank_app, Hw; reflexivity).
      assert (G' : ok rest = true \/
                   exists w', blank w' = true /\ ok (w' ++ NL :: rest) = true).
      { destruct w as [|a w]; cbn [app] in G.
        - rewrite guarded_space in G by reflexivity. cbn [Nat.leb] in G.
          apply andb_true_iff in G. now left.
        - destruct (blank_cons _ _ Hw) as [Ha Hw'].
          rewrite guarded_space in G by exact Ha. cbn [Nat.leb] in G.
          apply andb_true_iff in G. right. now exists w. }
      assert (G0 : guarded ok 0 rest = true).
      { apply guarded_less in G.
        replace (w ++ NL :: rest) with ((w ++ [NL]) ++ rest) in G
          by now rewrite <- app_assoc.
        now rewrite guarded_blank in G by exact B. }
      apply andb_true_iff. split.
      * destruct G' as [G'|(w' & Hw' & G')].
        -- apply (ok_from rest); [exact T| |exact G']. now rewrite L.
        -- apply (ok_from (w' ++ NL :: rest)); [| |exact G'].
           ++ rewrite T.
              replace (w' ++ NL :: rest) with ((w' ++ [NL]) ++ rest)
                by now rewrite <- app_assoc.
              rewrite lstrip_blank_app; [reflexivity|].
              rewrite blank_app, Hw'. reflexivity.
           ++ intros N. exfalso.
              assert (contains NL (lead (w' ++ NL :: rest)) = true).
              { clear -Hw'. induction w' as [|a w' IHw]; [reflexivity|].
                destruct (blank_cons _ _ Hw') as [Ha Hw].
                cbn [app lead]. rewrite Ha, contains_cons, (IHw Hw).
                apply orb_true_r. }
              congruence.
      * apply IH; [|exact G0].
        rewrite E' in Hn. cbn [List.length] in Hn.
        rewrite length_app in Hn. lia.
    + rewrite sub_from_miss by exact R. rewrite guarded_cons in *.
      apply andb_true_iff in G. destruct G as [G1 G2].
      apply andb_true_iff. split.
      * destruct ((3 <=? k) && isspace c); [|reflexivity].
        destruct (end_head y false) as [L T].
        apply (ok_from y); [exact T| |exact G1]. now rewrite L.
      * apply IH; [cbn [List.length] in Hn; lia|exact G2].
Qed.

(** A text in which no word stands after the white space that follows a
    fence is left as it is by the first substitution. *)
Lemma tag_fixed (z : str) (b : bool) :
  guarded (wordless (word uni_alnum)) 0 z = true ->
  sub_from (fence_tag uni_alnum) [Txt (lit "```"); Ref 1] b 0 z = z.
Proof.
  intros G. apply (sub_fixed _ _ (List.length z) z (le_n _)).
  intros pre suf b' rest e Ez R.
  destruct (tag_inv _ _ _ _ _ R) as (w & c1 & wd & E & Hw & Hc & Hwd & X).
  destruct w as [|a w].
  - exists (lit "```" ++ c1 :: wd). split; [discriminate|].
    split; [|exact X]. rewrite E. cbn [lit app]. reflexivity.
  - exfalso. destruct (blank_cons _ _ Hw) as [Ha Hw'].
    rewrite Ez, E in G. cbn [app] in G.
    apply guarded_at in G; [|exact Ha].
    unfold wordless in G.
    rewrite lstrip_blank_app, lstrip_char in G;
      [|now apply (word_not_space uni_alnum space_not_alnum)|exact Hw'].
    cbn [halts] in G. rewrite Hc in G. discriminate G.
Qed.

(** A text in which white space after a fence has a newline at its head
    at most is left as it is by the second substitution. *)
Lemma end_fixed (z : str) (b : bool) :
  guarded lineless 0 z = true ->
  sub_from fence_end [Txt (lit "```" ++ [NL])] b 0 z = z.
Proof.
  intros G. apply (sub_fixed _ _ (List.length z) z (le_n _)).
  intros pre suf b' rest e Ez R.
  destruct (end_inv _ _ _ _ R) as (w & E & Hw & Hl).
  destruct w as [|a w].
  - exists (lit "```" ++ [NL]). split; [discriminate|].
    split; [|apply app_nil_r]. rewrite E. cbn [lit app]. reflexivity.
  - exfalso. destruct (blank_cons _ _ Hw) as [Ha Hw'].
    rewrite Ez, E in G. cbn [app] in G.
    apply guarded_at in G; [|exact Ha].
    unfold lineless in G. apply negb_true_iff in G.
    assert (contains NL (lead (w ++ NL :: rest)) = true).
    { clear -Hw'. induction w as [|c w IHw]; [reflexivity|].
      destruct (blank_cons _ _ Hw') as [Hc Hw].
      cbn [app lead]. rewrite Hc, contains_cons, (IHw Hw).
      apply orb_true_r. }
    congruence.
Qed.

(** The first substitution yields characters of the subject, and
    backquotes. *)
Lemma all_tag (P : char -> bool) (s : str) :
  forall b k, forallb P s = true ->
  forallb P (sub_from (fence_tag uni_alnum) [Txt (lit "```"); Ref 1] b k s) =
  true.
Proof.
  induction s as [|c s IH]; intros b k H.
  - cbn [sub_from]. destruct k; [|reflexivity].
    destruct (run (fence_tag uni_alnum) b [] no_caps) as [[rest e]|] eqn:R;
      [|reflexivity].
    destruct (tag_inv _ _ _ _ _ R) as (w & c1 & wd & E & _). discriminate E.
  - pose proof H as H'. cbn [forallb] in H. apply andb_true_iff in H.
    destruct H as [Hc Hs].
    cbn [sub_from]. destruct k as [|k]; [|now apply IH].
    destruct (run (fence_tag uni_alnum) b (c :: s) no_caps) as [[rest e]|] eqn:R.
    + destruct (tag_inv _ _ _ _ _ R) as (w & c1 & wd & E & _ & _ & _ & X).
      rewrite X.
      assert (A : forallb P (lit "```" ++ c1 :: wd) = true).
      { rewrite E in H'. rewrite !forallb_app in H'.
        apply andb_true_iff in H'. destruct H' as [H1 H2].
        apply andb_true_iff in H2. destruct H2 as [_ H2].
        change (c1 :: wd ++ rest) with ((c1 :: wd) ++ rest) in H2.
        rewrite forallb_app in H2. apply andb_true_iff in H2.
        destruct H2 as [H2 _]. now rewrite forallb_app, H1, H2. }
      destruct (List.length (c :: s) - List.length rest);
        rewrite forallb_app, A; cbn [andb forallb];
        [rewrite Hc|]; now rewrite IH.
    + cbn [forallb]. now rewrite Hc, IH.
Qed.

Variable cfg : config.

(** The stage yields a text that it leaves as it is. *)
Lemma code_out (x : str) :
  get cfg "standardize_code_blocks" true = true ->
  fenced (word uni_alnum) (standardize_code_blocks uni_alnum cfg x) = true.
Proof.
  intros E. unfold standardize_code_blocks, fenced, sub. rewrite E.
  cbn [negb]. apply andb_true_iff. split.
  - apply (end_keeps _ _ (wordless_from (word uni_alnum)) _ _ _ (le_n _)).
    apply (tag_guarded _ _ _ _ (le_n _)), unmatched_none.
  - apply (end_guarded _ _ _ _ (le_n _)), unmatched_none.
Qed.

Lemma code_id (y : str) :
  (get cfg "standardize_code_blocks" true = true ->
   fenced (word uni_alnum) y = true) ->
  standardize_code_blocks uni_alnum cfg y = y.
Proof.
  intros H. unfold standardize_code_blocks, sub.
  destruct (get cfg "standardize_code_blocks" true); [|reflexivity].
  cbn [negb]. specialize (H eq_refl). unfold fenced in H.
  apply andb_true_iff in H. destruct H as [H1 H2].
  rewrite tag_fixed by exact H1. now apply end_fixed.
Qed.

Lemma code_plain (x : str) :
  plain x = true -> plain (standardize_code_blocks uni_alnum cfg x) = true.
Proof.
  intros H. unfold standardize_code_blocks, sub.
  destruct (negb _); [exact H|].
  apply all_sub_from; [reflexivity|]. now apply all_tag.
Qed.

(** The stages on white space keep code fences as the stage leaves
    them. *)
Lemma fenced_trailing (x : str) :
  fenced (word uni_alnum) x = true ->
  fenced (word uni_alnum) (remove_trailing_whitespace cfg x) = true.
Proof.
  unfold fenced. intros H. apply andb_true_iff in H. destruct H as [H1 H2].
  apply andb_true_iff. split.
  - now apply guarded_trailing; [reflexivity|apply wordless_from|].
  - now apply guarded_trailing; [reflexivity|apply lineless_from|].
Qed.

Lemma fenced_empty (x : str) :
  fenced (word uni_alnum) x = true ->
  fenced (word uni_alnum) (remove_empty_lines cfg x) = true.
Proof.
  unfold fenced. intros H. apply andb_true_iff in H. destruct H as [H1 H2].
  apply andb_true_iff. split.
  - now apply guarded_empty; [reflexivity|apply wordless_from|].
  - now apply guarded_empty; [reflexivity|apply lineless_from|].
Qed.

Lemma fenced_final (x : str) :
  fenced (word uni_alnum) x = true ->
  fenced (word uni_alnum) (add_final_newline cfg x) = true.
Proof.
  unfold fenced. intros H. apply andb_true_iff in H. destruct H as [H1 H2].
  apply andb_true_iff. split.
  - now apply guarded_final; [reflexivity|apply wordless_from|].
  - now apply guarded_final; [reflexivity|apply lineless_from|].
Qed.

End FenceScan.

(** *** Claim on the whole pipeline: idempotence *)

Section PipelineClaims.

Variable uni_alnum : char -> bool.

Lemma pipeline_neat (cfg : config) (x : str) :
  get cfg "remove_image_links" true = false ->
  get cfg "normalize_headings" true = false ->
  get cfg "format_tables" true = false ->
  get cfg "fix_urls" true = false ->
  pipeline_text uni_alnum cfg x = neat uni_alnum cfg x.
Proof.
  intros Hi Hh Ht Hu. unfold pipeline_text, neat.
  unfold remove_image_links, normalize_headings, tables_text, fix_urls.
  rewrite Hi, Hh, Ht, Hu. reflexivity.
Qed.

(** The five stages, run on their own result, change nothing. *)
Lemma neat_idem (cfg : config) (x : str) :
  (get cfg "standardize_code_blocks" true = true ->
   forall c, isspace c = true -> uni_alnum c = false) ->
  neat uni_alnum cfg (neat uni_alnum cfg x) = neat uni_alnum cfg x.
Proof.
  intros Hs. unfold neat at 1.
  rewrite (special_id cfg (neat uni_alnum cfg x)).
  2:{ intros E. unfold neat.
      now apply final_plain, empty_plain, trailing_plain, code_plain,
        special_out. }
  assert (C : standardize_code_blocks uni_alnum cfg (neat uni_alnum cfg x) =
              neat uni_alnum cfg x).
  { destruct (get cfg "standardize_code_blocks" true) eqn:E.
    - specialize (Hs eq_refl). apply (code_id uni_alnum Hs).
      intros _. unfold neat.
      now apply fenced_final, fenced_empty, fenced_trailing, code_out.
    - unfold standardize_code_blocks. now rewrite E. }
  rewrite C.
  rewrite (trailing_id cfg (neat uni_alnum cfg x)).
  2:{ intros E. unfold neat.
      now apply final_trimmed, empty_trimmed, trailing_out. }
  rewrite (empty_id cfg (neat uni_alnum cfg x)).
  2:{ intros E. unfold neat. now apply final_settled, empty_out. }
  apply final_id. intros E. unfold neat. now apply final_out.
Qed.

(** C1, amended.  With image stripping, heading normalization, table
    formatting and URL fixing switched off, and for every combination of
    the five other switches (special characters, code fences, trailing
    white space, blank lines, final newline), the pipeline applied twice
    yields exactly the text that it yields applied once.  When the stage on
    code fences is on, the proof uses a fact of the Unicode database, which
    the class [\w] reads: no white-space character is alphanumeric. *)
Theorem pipeline_idempotent (cfg : config) (content : str) :
  (get cfg "standardize_code_blocks" true = true ->
   forall c, isspace c = true -> uni_alnum c = false) ->
  get cfg "remove_image_links" true = false ->
  get cfg "normalize_headings" true = false ->
  get cfg "format_tables" true = false ->
  get cfg "fix_urls" true = false ->
  exists once,
    clean_content uni_alnum cfg content = Ok once /\
    clean_content uni_alnum cfg once = Ok once.
Proof.
  intros Hs Hi Hh Ht Hu. exists (neat uni_alnum cfg content).
  rewrite !clean_content_ok, !pipeline_neat by assumption.
  now rewrite neat_idem.
Qed.

End PipelineClaims.

(** C1, as stated, fails under the default switches: a second run lowers
    the level of a heading again.  Each of the four stages that the
    amended claim switches off breaks it when it alone is added to the
    stages on white space: a second run removes an image that the removal
    of another one has put together, trims a link target that the first
    run has put together, lowers the level of a heading again, and widens
    a table again. *)
Lemma pipeline_idempotent_counterexample :
  (clean_content (fun _ => false) defaults (doc "#a#b$") = Ok (doc "## ab$") /\
   clean_content (fun _ => false) defaults (doc "## ab$") = Ok (doc "# ab$")) /\
  (clean_content (fun _ => false) (enable "remove_image_links" whitespace_only)
     (doc "!![a](b.png)[c](d.png)") = Ok (doc "![c](d.png)$") /\
   clean_content (fun _ => false) (enable "remove_image_links" whitespace_only)
     (doc "![c](d.png)$") = Ok (doc "$")) /\
  (clean_content (fun _ => false) (enable "fix_urls" whitespace_only)
     (doc "[]( a]($b)") = Ok (doc "[]( a](b)$") /\
   clean_content (fun _ => false) (enable "fix_urls" whitespace_only)
     (doc "[]( a](b)$") = Ok (doc "[](a](b)$")) /\
  (clean_content (fun _ => false) (enable "normalize_headings" whitespace_only)
     (doc "#a#b$") = Ok (doc "## ab$") /\
   clean_content (fun _ => false) (enable "normalize_headings" whitespace_only)
     (doc "## ab$") = Ok (doc "# ab$")) /\
  (clean_content (fun _ => false) (enable "format_tables" whitespace_only)
     (doc "|A|B|$|-|-|$") = Ok (doc "| A | B |$|---|---|$") /\
   clean_content (fun _ => false) (enable "format_tables" whitespace_only)
     (doc "| A | B |$|---|---|$") = Ok (doc "| A   | B   |$|-----|-----|$")).
Proof. repeat split; vm_compute; reflexivity. Qed.

Lemma pipeline_idempotent_witness :
  exists once,
    clean_content (fun _ => false) (enable "standardize_code_blocks" whitespace_only)
      (doc "```  py $x = 1$```   $$$$$ a  $") = Ok once /\
    clean_content (fun _ => false) (enable "standardize_code_blocks" whitespace_only)
      once = Ok once.
Proof.
  apply (pipeline_idempotent (fun _ => false)
           (enable "standardize_code_blocks" whitespace_only)
           (doc "```  py $x = 1$```   $$$$$ a  $"));
    reflexivity.
Defined.
